(** * CSRC downloader: link classification, pagination oracle, download store
      and crawl loop of [csrc_downloader.py], as a shallow embedding; with
      the start URL of [gui_app.py] and the time utilities of
      [clean_data.py].

    Conventions of the embedding.
    - A Python [str] is the list of its UTF-8 bytes ([list ascii]).  Substring
      tests on well-formed UTF-8 agree with tests on code points; case folding,
      [\d], [\s], [isdigit] and [strip] are the ASCII ones.
    - Python integers are unbounded ([N]).
    - Exceptions are the error branch of a state-and-error monad; the network
      and the file system are oracles of an environment record, indexed by a
      clock that advances with every request, so that replies may change over
      time.
    - [urljoin], [urlparse(..).path], the iteration order of a Python [set]
      and the file a path denotes are library and system behaviour: fields of
      the environment.  [urljoin] raises [ValueError] on a reference that does
      not parse; [urlparse] is applied only to what [urljoin] returned and to
      the URL it was joined against, which it accepts. *)

From Stdlib Require Import Strings.String Strings.Ascii NArith Lia.
From Stdlib Require Import Numbers.DecimalString Numbers.DecimalN.
From stdpp Require Import base option list gmap sets strings.

Local Open Scope list_scope.
#[local] Set Warnings "-register-all".

(* ===================================================================== *)
(** ** Python strings *)
(* ===================================================================== *)

Module Py.

Abbreviation str := (list ascii).

(** A literal. *)
Definition lit (s : string) : str := list_ascii_of_string s.

Definition ascii_eqb (a b : ascii) : bool := Ascii.eqb a b.

Definition is_upper (c : ascii) : bool :=
  let n := nat_of_ascii c in (65 <=? n)%nat && (n <=? 90)%nat.

Definition is_digit (c : ascii) : bool :=
  let n := nat_of_ascii c in (48 <=? n)%nat && (n <=? 57)%nat.

(** [str.isspace] on the ASCII range: tab, newline, vertical tab, form feed,
    carriage return, the four separators 0x1c-0x1f and the space. *)
Definition is_space (c : ascii) : bool :=
  let n := nat_of_ascii c in
  ((9 <=? n)%nat && (n <=? 13)%nat) || ((28 <=? n)%nat && (n <=? 32)%nat).

Definition lower_char (c : ascii) : ascii :=
  if is_upper c then ascii_of_nat (nat_of_ascii c + 32) else c.

(** [s.lower()] *)
Definition lower (s : str) : str := map lower_char s.

(** Equality of two characters under [re.I]. *)
Definition char_eq (ic : bool) (a b : ascii) : bool :=
  if ic then ascii_eqb (lower_char a) (lower_char b) else ascii_eqb a b.

(** [strip_prefix ic p s]: the rest of [s] after a leading copy of [p]
    (compared under [ic]), if there is one. *)
Fixpoint strip_prefix (ic : bool) (p s : str) : option str :=
  match p with
  | [] => Some s
  | a :: p' =>
      match s with
      | [] => None
      | b :: s' => if char_eq ic a b then strip_prefix ic p' s' else None
      end
  end.

(** [s.startswith(p)] *)
Definition startswith (p s : str) : bool :=
  match strip_prefix false p s with Some _ => true | None => false end.

(** [s.endswith(p)] *)
Definition endswith (p s : str) : bool := startswith (rev p) (rev s).

(** [p in s] *)
Fixpoint contains (p s : str) : bool :=
  startswith p s ||
  match s with
  | [] => false
  | _ :: s' => contains p s'
  end.

(** [s.replace(old, new)] for a non-empty [old]: the occurrences of [old] are
    replaced from left to right, without overlap.  [skip] counts the characters
    of a replaced occurrence that are still to be passed over. *)
Fixpoint replace_from (old new : str) (skip : nat) (s : str) : str :=
  match s with
  | [] => []
  | c :: s' =>
      match skip with
      | S k => replace_from old new k s'
      | O =>
          if startswith old s
          then new ++ replace_from old new (length old - 1) s'
          else c :: replace_from old new 0 s'
      end
  end.

Definition replace (old new s : str) : str := replace_from old new 0 s.

(** [s.split("/")[-1]]: what follows the last [sep] (the whole string when
    there is none). *)
Fixpoint last_segment (sep : ascii) (s : str) : str :=
  match s with
  | [] => []
  | c :: s' =>
      if existsb (ascii_eqb sep) s' then last_segment sep s'
      else if ascii_eqb sep c then s' else s
  end.

(** [s.strip()] *)
Fixpoint lstrip (s : str) : str :=
  match s with
  | c :: s' => if is_space c then lstrip s' else s
  | [] => []
  end.

Definition strip (s : str) : str := rev (lstrip (rev (lstrip s))).

(** [s.isdigit()] *)
Definition isdigit (s : str) : bool :=
  match s with [] => false | _ => forallb is_digit s end.

(** [int(s)] for a string of decimal digits. *)
Definition digit_val (c : ascii) : N := N.of_nat (nat_of_ascii c - 48).

Definition int_of (s : str) : N :=
  fold_left (fun acc c => (10 * acc + digit_val c)%N) s 0%N.

(** [str(n)] *)
Definition str_of_int (n : N) : str :=
  list_ascii_of_string (NilZero.string_of_uint (N.to_uint n)).

End Py.

(* ===================================================================== *)
(** ** The fragment of Python's [re] that the crawler uses *)
(* ===================================================================== *)

Module Re.
Import Py.

(** Patterns.  Repetition is only ever applied to a character class in the
    source, so [Star] and [Plus] take the class. *)
Inductive regex : Type :=
| Chars (l : str)                (* a literal run of characters *)
| Class (p : ascii -> bool)      (* [...], \d, \s *)
| Star (p : ascii -> bool)       (* class*, greedy *)
| Plus (p : ascii -> bool)       (* class+, greedy *)
| Cat (r1 r2 : regex)
| Alt (r1 r2 : regex)            (* r1|r2, r1 tried first *)
| Opt (r : regex)                (* r?, greedy *)
| Group (i : nat) (r : regex)    (* the i-th capturing group *)
| Dollar.                        (* $ without re.M *)

(** Captured groups, most recent binding first. *)
Abbreviation groups := (list (nat * str)).

Definition group (g : groups) (i : nat) : str :=
  match List.find (fun '(j, _) => Nat.eqb i j) g with
  | Some (_, s) => s
  | None => []
  end.

(** What was consumed between [s] and its suffix [rest]. *)
Definition consumed (s rest : str) : str := take (length s - length rest) s.

Section Matcher.
Context {R : Type}.
Variable ic : bool.            (* re.I *)

(** Greedy repetition of a class with backtracking: the longest run first,
    then one character less at a time. *)
Fixpoint star_k (p : ascii -> bool) (s : str) (k : str -> option R) : option R :=
  match s with
  | c :: s' =>
      if p c then
        match star_k p s' k with
        | Some x => Some x
        | None => k s
        end
      else k s
  | [] => k s
  end.

(** Backtracking matcher in continuation-passing style: [k] is tried on every
    way [r] matches a prefix of [s], in Python's order of preference. *)
Fixpoint rmatch (r : regex) (s : str) (g : groups)
         (k : str -> groups -> option R) : option R :=
  match r with
  | Chars l =>
      match strip_prefix ic l s with
      | Some rest => k rest g
      | None => None
      end
  | Class p =>
      match s with
      | c :: rest => if p c then k rest g else None
      | [] => None
      end
  | Star p => star_k p s (fun rest => k rest g)
  | Plus p =>
      match s with
      | c :: rest => if p c then star_k p rest (fun rest' => k rest' g) else None
      | [] => None
      end
  | Cat r1 r2 => rmatch r1 s g (fun s1 g1 => rmatch r2 s1 g1 k)
  | Alt r1 r2 =>
      match rmatch r1 s g k with
      | Some x => Some x
      | None => rmatch r2 s g k
      end
  | Opt r1 =>
      match rmatch r1 s g k with
      | Some x => Some x
      | None => k s g
      end
  | Group i r1 => rmatch r1 s g (fun rest g' => k rest ((i, consumed s rest) :: g'))
  | Dollar =>
      match s with
      | [] => k s g
      | [c] => if ascii_eqb c "010" then k s g else None
      | _ => None
      end
  end.
End Matcher.

(** [re.match]: the rest of the input and the groups of the preferred match at
    the start of [s]. *)
Definition match_here (ic : bool) (r : regex) (s : str) : option (str * groups) :=
  rmatch ic r s [] (fun rest g => Some (rest, g)).

(** A match object: the text before the match, [group(0)], the groups, and
    the text after the match. *)
Record Match : Type := mkMatch {
  m_pre : str;
  m_text : str;
  m_groups : groups;
  m_post : str
}.

(** [re.search]: the leftmost match.  [pre] is the reversed text already
    passed over. *)
Fixpoint search_from (ic : bool) (r : regex) (pre : str) (s : str) : option Match :=
  match match_here ic r s with
  | Some (rest, g) => Some (mkMatch (rev pre) (consumed s rest) g rest)
  | None =>
      match s with
      | [] => None
      | c :: s' => search_from ic r (c :: pre) s'
      end
  end.

Definition search (ic : bool) (r : regex) (s : str) : option Match :=
  search_from ic r [] s.

(** The truth value of [re.search(r, s)]. *)
Definition found (ic : bool) (r : regex) (s : str) : bool :=
  match search ic r s with Some _ => true | None => false end.

(** [re.sub(r, repl, s)] for a pattern that matches no empty string and a
    replacement without backslashes: every match, left to right and without
    overlap, becomes [repl]. *)
Fixpoint sub_from (ic : bool) (r : regex) (repl : str) (skip : nat) (s : str) : str :=
  match s with
  | [] => []
  | c :: s' =>
      match skip with
      | S k => sub_from ic r repl k s'
      | O =>
          match match_here ic r s with
          | Some (rest, _) =>
              match length s - length rest with
              | O => c :: sub_from ic r repl 0 s'
              | S n => repl ++ sub_from ic r repl n s'
              end
          | None => c :: sub_from ic r repl 0 s'
          end
      end
  end.

Definition sub (ic : bool) (r : regex) (repl : str) (s : str) : str :=
  sub_from ic r repl 0 s.

(** The language of a pattern: [lang ic r m rest] says that [r] can match the
    text [m] when [rest] is what follows it ([$] looks at what follows). *)
Fixpoint lang (ic : bool) (r : regex) (m rest : str) : Prop :=
  match r with
  | Chars l => if ic then lower m = lower l else m = l
  | Class p => exists c, m = [c] /\ p c = true
  | Star p => forallb p m = true
  | Plus p => m <> [] /\ forallb p m = true
  | Cat r1 r2 =>
      exists m1 m2, m = m1 ++ m2 /\ lang ic r1 m1 (m2 ++ rest) /\ lang ic r2 m2 rest
  | Alt r1 r2 => lang ic r1 m rest \/ lang ic r2 m rest
  | Opt r1 => m = [] \/ lang ic r1 m rest
  | Group _ r1 => lang ic r1 m rest
  | Dollar => m = [] /\ (rest = [] \/ rest = ["010"%char])
  end.

(** Whether the pattern matches at position [i] of [s], and whether it
    matches at no position before [n]. *)
Definition matches_at (ic : bool) (r : regex) (s : str) (i : nat) : bool :=
  match match_here ic r (drop i s) with Some _ => true | None => false end.

Definition no_match_before (ic : bool) (r : regex) (s : str) (n : nat) : bool :=
  negb (existsb (matches_at ic r s) (seq 0 n)).

(** Whether [s] starts with a character of the class. *)
Definition starts_with_class (p : ascii -> bool) (s : str) : bool :=
  match s with c :: _ => p c | [] => false end.

(** [re.escape(p)] followed by compilation: the literal [p]. *)
Definition escape (p : str) : regex := Chars p.

End Re.

(* ===================================================================== *)
(** ** Parsed documents, as the crawler reads them through BeautifulSoup *)
(* ===================================================================== *)

Module Bs4.
Import Py Re.

(** The attributes the crawler looks at.  [class] is multi-valued: the parser
    hands it over as the list of its tokens. *)
Record Attrs : Type := mkAttrs {
  at_href : option str;
  at_class : option (list str);
  at_onclick : option str;
  at_id : option str
}.

Inductive Node : Type :=
| NavigableString (s : str)
| Tag (name : str) (attrs : Attrs) (children : list Node).

(** A parsed document: the top-level nodes under the soup object. *)
Abbreviation Soup := (list Node).

(** The descendants of a node, in document order. *)
Fixpoint descendants (n : Node) : list Node :=
  match n with
  | NavigableString _ => []
  | Tag _ _ ch =>
      (fix go (l : list Node) : list Node :=
         match l with
         | [] => []
         | c :: l' => c :: descendants c ++ go l'
         end) ch
  end.

Definition soup_descendants (soup : Soup) : list Node :=
  flat_map (fun c => c :: descendants c) soup.

Definition attrs_of (n : Node) : option Attrs :=
  match n with
  | Tag _ a _ => Some a
  | NavigableString _ => None
  end.

(** [tag.get_text(strip=True)]: the stripped strings below the tag, the empty
    ones left out, concatenated. *)
Definition stripped_strings (ns : list Node) : list str :=
  flat_map (fun n =>
              match n with
              | NavigableString s => match strip s with [] => [] | t => [t] end
              | Tag _ _ _ => []
              end) ns.

Definition get_text (n : Node) : str := concat (stripped_strings (descendants n)).

(** An anchor as the loops see it: [a["href"]], [a.get_text(strip=True)],
    [a.get("class")] and [a.get("onclick")]. *)
Record Anchor : Type := mkAnchor {
  href : str;
  text : str;
  class : option (list str);
  onclick : option str
}.

Definition anchor_of (n : Node) : option Anchor :=
  match n with
  | Tag name a _ =>
      if decide (name = lit "a") then
        match at_href a with
        | Some h => Some (mkAnchor h (get_text n) (at_class a) (at_onclick a))
        | None => None
        end
      else None
  | NavigableString _ => None
  end.

(** [x.find_all("a", href=True)] over a list of candidate nodes. *)
Definition anchors_in (ns : list Node) : list Anchor := omap anchor_of ns.

(** [soup.find_all("a", href=True)] *)
Definition find_all_a (soup : Soup) : list Anchor := anchors_in (soup_descendants soup).

(** How a compiled pattern is matched against an attribute value: a
    multi-valued attribute matches when one token does or when the tokens
    joined by spaces do. *)
Fixpoint join_space (l : list str) : str :=
  match l with
  | [] => []
  | [x] => x
  | x :: l' => x ++ lit " " ++ join_space l'
  end.

Definition class_matches (r : regex) (a : Attrs) : bool :=
  match at_class a with
  | Some toks => existsb (found true r) toks || found true r (join_space toks)
  | None => false
  end.

Definition id_matches (r : regex) (a : Attrs) : bool :=
  match at_id a with
  | Some v => found true r v
  | None => false
  end.

(** [soup.find_all(attrs={...: re.compile(...)})] *)
Definition find_all_attrs (sel : Attrs -> bool) (soup : Soup) : list Node :=
  List.filter (fun n => match attrs_of n with Some a => sel a | None => false end)
              (soup_descendants soup).

End Bs4.

(* ===================================================================== *)
(** ** The environment: libraries, network and file system *)
(* ===================================================================== *)

Module Crawler.
Import Py Re Bs4.

Inductive Method : Type := GET | HEAD.

(** What the crawler reads from a [requests] response: the status, the
    document [BeautifulSoup(r.text, "lxml")] would build, and the chunks of
    [iter_content], after which the stream either ends ([stream_ok]) or
    breaks. *)
Record Response : Type := mkResponse {
  status_code : nat;
  document : Soup;
  chunks : list str;
  stream_ok : bool
}.

Record Env : Type := mkEnv {
  (** [urllib.parse.urljoin(base, href)]; [None] when the call raises
      [ValueError], as it does on a reference that does not parse as a URL *)
  urljoin : str -> str -> option str;
  (** [urllib.parse.urlparse(url).path] *)
  url_path : str -> str;
  (** [list(set(l))]: the order in which a set built from [l] is iterated *)
  set_order : list str -> list str;
  (** the reply to a request sent at a given time; [None] when [requests]
      raises (no connection, timeout, too many redirects, ...) *)
  request : nat -> Method -> str -> option Response;
  (** whether the file operation attempted at a given time succeeds *)
  fs_ok : nat -> bool;
  (** the file that the path [self.download_dir / name] denotes.  The files
      of [disk] are kept under one name each, the record under
      [record_name]; a name with the components [.] or [..], a name that
      differs only in case on a file system that ignores case, the name of a
      link, ... denote a file kept under another name *)
  file_of : str -> str
}.

(** What a well-behaved [set] guarantees of [list(set(l))]. *)
Definition set_order_ok (E : Env) : Prop :=
  forall l : list str, NoDup (set_order E l) /\ forall x, x ∈ set_order E l <-> x ∈ l.

Inductive Exn : Type :=
| RequestException            (* raised by [session.get] / [session.head] / a broken stream *)
| HTTPError (code : nat)      (* raised by [raise_for_status] *)
| OSError                     (* raised by [open] / [write] *)
| ValueError.                 (* raised by [urljoin] *)

Inductive Level : Type := INFO | WARNING | ERROR.

(** Everything the crawler does that can be seen from outside, in order. *)
Inductive Event : Type :=
| Request (m : Method) (url : str) (stream : bool) (timeout : nat)
| Log (lvl : Level) (msg : str)
| Sleep (seconds : nat).

(** The name of the durable record inside the download directory. *)
Definition record_name : str := lit "downloaded_files.txt".

(** The state a crawl works on: [self.downloaded], the files the crawl can
    reach, each under the one name it is kept under (the record among them),
    the clock and the trace. *)
Record State : Type := mkState {
  downloaded : gset str;
  disk : gmap str str;
  clock : nat;
  trace : list Event
}.

(* --------------------------------------------------------------------- *)
(** *** State and exceptions *)

Inductive Result (A : Type) : Type :=
| Ok (a : A)
| Raise (e : Exn).
Arguments Ok {A} a.
Arguments Raise {A} e.

Definition M (A : Type) : Type := State -> Result A * State.

Definition ret {A} (a : A) : M A := fun st => (Ok a, st).

Definition bind {A B} (m : M A) (f : A -> M B) : M B :=
  fun st =>
    match m st with
    | (Ok a, st') => f a st'
    | (Raise e, st') => (Raise e, st')
    end.

Definition raise {A} (e : Exn) : M A := fun st => (Raise e, st).

(** The value of a computation without effects that calls [urljoin]:
    [None] stands for the [ValueError] the call raised. *)
Definition returned {A} (o : option A) : M A :=
  fun st => match o with Some a => (Ok a, st) | None => (Raise ValueError, st) end.

(** [try: m  except: h] *)
Definition try_except {A} (m : M A) (h : Exn -> M A) : M A :=
  fun st =>
    match m st with
    | (Ok a, st') => (Ok a, st')
    | (Raise e, st') => h e st'
    end.

#[export] Instance M_ret : MRet M := @ret.
#[export] Instance M_bind : MBind M := fun A B f m => bind m f.

(** [for x in l: f(x)] *)
Fixpoint for_each {A} (l : list A) (f : A -> M unit) : M unit :=
  match l with
  | [] => ret tt
  | x :: l' => f x ;; for_each l' f
  end.

Definition emit (ev : Event) : M unit :=
  fun st => (Ok tt, mkState (downloaded st) (disk st) (clock st) (trace st ++ [ev])).

Definition log (lvl : Level) (msg : str) : M unit := emit (Log lvl msg).

Definition sleep (n : nat) : M unit := emit (Sleep n).

Definition tick : M nat :=
  fun st => (Ok (clock st), mkState (downloaded st) (disk st) (S (clock st)) (trace st)).

Definition get_downloaded : M (gset str) := fun st => (Ok (downloaded st), st).

Definition set_downloaded (d : gset str) : M unit :=
  fun st => (Ok tt, mkState d (disk st) (clock st) (trace st)).

Definition get_disk : M (gmap str str) := fun st => (Ok (disk st), st).

Definition set_disk (d : gmap str str) : M unit :=
  fun st => (Ok tt, mkState (downloaded st) d (clock st) (trace st)).

(** The state [n] clock ticks and the events [evs] later. *)
Definition after (st : State) (n : nat) (evs : list Event) : State :=
  mkState (downloaded st) (disk st) (n + clock st) (trace st ++ evs).

(** The text [f"{e}"] of an exception, abbreviated to its class (and the
    status, for an HTTP error). *)
Definition show_exn (e : Exn) : str :=
  match e with
  | RequestException => lit "RequestException"
  | HTTPError c => lit "HTTPError " ++ str_of_int (N.of_nat c)
  | OSError => lit "OSError"
  | ValueError => lit "ValueError"
  end.

(* ===================================================================== *)
(** ** [class CSRCDownloader] *)
(* ===================================================================== *)

(** [_load_downloaded]: the record is split like [str.splitlines] splits it,
    at \n, \r, \r\n, \v, \f, \x1c, \x1d, \x1e, and at U+0085, U+2028 and
    U+2029 in their UTF-8 form. *)
Definition line_break (s : str) : option str :=
  match s with
  | "013"%char :: "010"%char :: r => Some r
  | "194"%char :: "133"%char :: r => Some r
  | "226"%char :: "128"%char :: "168"%char :: r => Some r
  | "226"%char :: "128"%char :: "169"%char :: r => Some r
  | c :: r =>
      let n := nat_of_ascii c in
      if ((10 <=? n)%nat && (n <=? 13)%nat) || ((28 <=? n)%nat && (n <=? 30)%nat)
      then Some r else None
  | [] => None
  end.

(** [cur] is the current line, reversed; [skip] the bytes of a line break
    still to be passed over. *)
Fixpoint splitlines_from (cur : str) (skip : nat) (s : str) : list str :=
  match s with
  | [] => match cur with [] => [] | _ => [rev cur] end
  | c :: s' =>
      match skip with
      | S k => splitlines_from cur k s'
      | O =>
          match line_break s with
          | Some r => rev cur :: splitlines_from [] (length s' - length r) s'
          | None => splitlines_from (c :: cur) 0 s'
          end
      end
  end.

Definition splitlines (s : str) : list str := splitlines_from [] 0 s.

Definition load_downloaded (d : gmap str str) : gset str :=
  match d !! record_name with
  | Some txt => list_to_set (splitlines txt)
  | None => ∅
  end.

(** The text of the record, empty when the file is missing. *)
Definition record_of (d : gmap str str) : str := default [] (d !! record_name).

(** The object after [__init__] over a download directory with files [d]. *)
Definition init (d : gmap str str) : State := mkState (load_downloaded d) d 0 [].

(** Python truthiness of an optional string. *)
Definition truthy (o : option str) : bool :=
  match o with
  | Some (_ :: _) => true
  | _ => false
  end.

(* --------------------------------------------------------------------- *)
(** *** Patterns *)

Definition sep_class (c : ascii) : bool := ascii_eqb c "_" || is_space c.

(** [\.(csv|xls|xlsx)$] *)
Definition FILE_RE : regex :=
  Cat (Chars (lit "."))
      (Cat (Group 1 (Alt (Chars (lit "csv")) (Alt (Chars (lit "xls")) (Chars (lit "xlsx")))))
           Dollar).

(** the class of backslash, slash, colon, star, question mark, double quote,
    angle brackets and bar *)
Definition illegal_char (c : ascii) : bool :=
  existsb (ascii_eqb c) ["\"; "/"; ":"; "*"; "?"; "034"; "<"; ">"; "|"]%char.

(** [common_list(_\d+)?\.shtml] *)
Definition COMMON_LIST_ANY_RE : regex :=
  Cat (Chars (lit "common_list"))
      (Cat (Opt (Group 1 (Cat (Chars (lit "_")) (Plus is_digit)))) (Chars (lit ".shtml"))).

(** [page[_\s]*(\d+)], [p[_\s]*(\d+)], [index[_\s]*(\d+)] *)
Definition numbered_re (word : string) : regex :=
  Cat (Chars (lit word)) (Cat (Star sep_class) (Group 1 (Plus is_digit))).

(** [common_list_(\d+)\.shtml] *)
Definition COMMON_LIST_N_RE : regex :=
  Cat (Chars (lit "common_list_")) (Cat (Group 1 (Plus is_digit)) (Chars (lit ".shtml"))).

(** [( page[_\s]* | p[_\s]* )(\d+)], written without the spaces *)
Definition PAGE_RE : regex :=
  Cat (Group 1 (Alt (Cat (Chars (lit "page")) (Star sep_class))
                    (Cat (Chars (lit "p")) (Star sep_class))))
      (Group 2 (Plus is_digit)).

(** [index[_\s]*\d+] *)
Definition INDEX_SUB_RE : regex :=
  Cat (Chars (lit "index")) (Cat (Star sep_class) (Plus is_digit)).

Definition next_texts : list str :=
  [lit "下一页"; lit "下页"; lit "next"; lit "Next"; lit ">"; lit "»"].

Definition last_page_texts : list str :=
  [lit "最后一页"; lit "末页"; lit "last"; lit "Last"].

(* --------------------------------------------------------------------- *)
(** *** Pure helpers of the methods *)

(** [any(v in text for v in vocabulary)] *)
Definition any_in (vocabulary : list str) (text : str) : bool :=
  existsb (fun v => contains v text) vocabulary.

(** [a.get("class") and any("disabled" in str(c).lower() for c in a.get("class"))] *)
Definition disabled_class (a : Anchor) : bool :=
  match class a with
  | Some (c :: l) => existsb (fun c => contains (lit "disabled") (lower c)) (c :: l)
  | _ => false
  end.

(** ["disabled" in str(a.get("onclick", "")).lower()] *)
Definition disabled_onclick (a : Anchor) : bool :=
  contains (lit "disabled") (lower (default [] (onclick a))).

(** The test the three button loops share: a next-page text on an anchor that
    is not disabled. *)
Definition enabled_next (a : Anchor) : bool :=
  any_in next_texts (text a) && negb (disabled_class a) && negb (disabled_onclick a).

(** [_has_url_pagination_pattern] *)
Definition _has_url_pagination_pattern (url : str) : bool :=
  existsb (fun r => found true r url)
          [COMMON_LIST_ANY_RE; numbered_re "page"; numbered_re "p"; numbered_re "index"].

(** [generate_next_url] *)
Definition generate_next_url (current_url : str) : option str :=
  if endswith (lit "common_list.shtml") current_url then
    Some (replace (lit "common_list.shtml") (lit "common_list_2.shtml") current_url)
  else
    match search false COMMON_LIST_N_RE current_url with
    | Some m =>
        let n := (int_of (group (m_groups m) 1) + 1)%N in
        Some (replace (m_text m) (lit "common_list_" ++ str_of_int n ++ lit ".shtml") current_url)
    | None =>
        match search true PAGE_RE current_url with
        | Some m =>
            let prefix := group (m_groups m) 1 in
            let n := (int_of (group (m_groups m) 2) + 1)%N in
            Some (sub true (Cat (escape prefix) (Plus is_digit)) (prefix ++ str_of_int n)
                      current_url)
        | None =>
            match search true (numbered_re "index") current_url with
            | Some m =>
                let n := (int_of (group (m_groups m) 1) + 1)%N in
                Some (sub true INDEX_SUB_RE (lit "index_" ++ str_of_int n) current_url)
            | None => None
            end
        end
    end.

(** A non-empty run of decimal digits, and the digits of its successor. *)
Definition digits (ds : str) : Prop := ds <> [] /\ forallb is_digit ds = true.

Definition succ_digits (ds : str) : str := str_of_int (int_of ds + 1).

(* --------------------------------------------------------------------- *)
(** *** The classification rules, in words *)

(** The href is a stem, one of the three extensions in any case, and at most
    one newline after it. *)
Definition file_href (h : str) : Prop :=
  exists stem ext tail,
    h = stem ++ ext ++ tail /\
    lower ext ∈ [lit ".csv"; lit ".xls"; lit ".xlsx"] /\
    (tail = [] \/ tail = lit (String "010" EmptyString)).

(** The href contains the marker or ends in [.shtml]. *)
Definition content_href (h : str) : Prop :=
  (exists pre post, h = pre ++ lit "common_detail" ++ post) \/
  (exists pre, h = pre ++ lit ".shtml").

Section Methods.
Variable E : Env.

(** [_urls_match] *)
Definition _urls_match (url1 url2 : str) : bool :=
  bool_decide (url_path E url1 = url_path E url2).

(** [extract_links] *)
Definition file_name (a : Anchor) (full : str) : str :=
  sub false (Class illegal_char) (lit "_")
      (match text a with [] => last_segment "/" full | t => t end).

(** The loop of [extract_links]: every href is joined before it is looked
    at, so one reference that [urljoin] refuses makes the call raise; the
    loop has no effect but its two lists. *)
Fixpoint classify (page_url : str) (l : list Anchor)
  : option (list (str * str) * list str) :=
  match l with
  | [] => Some ([], [])
  | a :: l' =>
      match urljoin E page_url (href a) with
      | None => None
      | Some full =>
          match classify page_url l' with
          | None => None
          | Some (files, contents) =>
              if found true FILE_RE (href a) then
                Some ((full, file_name a full) :: files, contents)
              else if contains (lit "common_detail") (href a)
                      || endswith (lit ".shtml") (href a) then
                Some (files, full :: contents)
              else Some (files, contents)
          end
      end
  end.

Definition extract_links (soup : Soup) (page_url : str)
  : option (list (str * str) * list str) :=
  match classify page_url (find_all_a soup) with
  | Some (files, contents) => Some (files, set_order E contents)
  | None => None
  end.

(** What [classify] makes of a file link with the joined URL [full], and its
    test of a content link. *)
Definition link_of (a : Anchor) (full : str) : str * str := (full, file_name a full).

Definition is_content (a : Anchor) : bool :=
  negb (found true FILE_RE (href a)) &&
  (contains (lit "common_detail") (href a) || endswith (lit ".shtml") (href a)).

(* ------------------------------------------------------------------- *)
(** *** Network and file system *)

(** [session.get] / [session.head]: the request is recorded, the clock
    advances, and the environment replies or the call raises. *)
Definition send (m : Method) (url : str) (stream : bool) (timeout : nat) : M Response :=
  emit (Request m url stream timeout) ;;
  t ← tick;
  match request E t m url with
  | Some r => mret r
  | None => raise RequestException
  end.

(** [r.raise_for_status()] *)
Definition raise_for_status (r : Response) : M unit :=
  if (400 <=? status_code r)%nat && (status_code r <? 600)%nat
  then raise (HTTPError (status_code r))
  else mret tt.

(** One operation on the file system: it goes through or raises. *)
Definition fs_op : M unit :=
  t ← tick;
  if fs_ok E t then mret tt else raise OSError.

(** [open(path, "wb")]: the file is created or emptied. *)
Definition open_wb (name : str) : M unit :=
  fs_op ;;
  d ← get_disk;
  set_disk (<[name := []]> d).

(** [f.write(c)], for either mode: the bytes go to the end of the file. *)
Definition write (name : str) (c : str) : M unit :=
  fs_op ;;
  d ← get_disk;
  set_disk (<[name := default [] (d !! name) ++ c]> d).

(** [open(path, "a")]: the file is created if it is missing. *)
Definition open_a (name : str) : M unit :=
  fs_op ;;
  d ← get_disk;
  set_disk (<[name := default [] (d !! name)]> d).

(** [for c in r.iter_content(8192): f.write(c)] *)
Definition write_stream (name : str) (r : Response) : M unit :=
  for_each (chunks r) (write name) ;;
  if stream_ok r then mret tt else raise RequestException.

(** [_save_downloaded] *)
Definition _save_downloaded (url : str) : M unit :=
  open_a record_name ;;
  write record_name (url ++ lit (String "010" EmptyString)) ;;
  d ← get_downloaded;
  set_downloaded ({[url]} ∪ d).

(** [fetch] *)
Definition fetch (url : str) : M Soup :=
  r ← send GET url false 30;
  raise_for_status r ;;
  mret (document r).

(** [download] *)
Definition valid_names (name : str) : bool :=
  existsb (fun ext => endswith ext name) [lit "csv"; lit "xls"; lit "xlsx"].

Definition download (url name : str) : M unit :=
  d ← get_downloaded;
  if bool_decide (url ∈ d) && valid_names name then mret tt
  else
    r ← send GET url true 60;
    raise_for_status r ;;
    let path := file_of E name in
    open_wb path ;;
    write_stream path r ;;
    _save_downloaded url ;;
    log INFO (lit "Downloaded: " ++ name).

(** [url_exists]: the GET is the handler of the HEAD's [try], so it is sent
    only when the HEAD raises; both handlers are bare [except:]. *)
Definition url_exists (url : str) : M bool :=
  try_except
    (r ← send HEAD url false 10; mret (status_code r =? 200)%nat)
    (fun _ =>
       try_except
         (r ← send GET url true 10; mret (status_code r =? 200)%nat)
         (fun _ => mret false)).

(* ------------------------------------------------------------------- *)
(** *** Pagination *)

Inductive Mode : Type := Button | Url.

(** [find_next_button]: the first enabled next-page anchor with a non-empty
    href decides; the outer [None] is the [ValueError] of [urljoin], the inner
    one the [None] the method returns. *)
Definition find_next_button (soup : Soup) (current_url : str) : option (option str) :=
  match List.find (fun a => enabled_next a && truthy (Some (href a))) (find_all_a soup) with
  | Some a => Some <$> urljoin E current_url (href a)
  | None => Some None
  end.

(** [find_all_pagination_links].  The links of the anchors with a non-empty
    href in a list of anchors, in a container, under a selector: [None] when
    a call of [urljoin] raises. *)
Fixpoint joined_links (current_url : str) (l : list Anchor) : option (list str) :=
  match l with
  | [] => Some []
  | a :: l' =>
      if truthy (Some (href a)) then
        match urljoin E current_url (href a) with
        | None => None
        | Some full_url => cons full_url <$> joined_links current_url l'
        end
      else joined_links current_url l'
  end.

Definition container_links (current_url : str) (container : Node) : option (list str) :=
  joined_links current_url (anchors_in (descendants container)).

Fixpoint containers_links (current_url : str) (containers : list Node) : option (list str) :=
  match containers with
  | [] => Some []
  | c :: cs =>
      match container_links current_url c with
      | None => None
      | Some links => app links <$> containers_links current_url cs
      end
  end.

Definition selector_links (soup : Soup) (current_url : str) (sel : Attrs -> bool)
  : option (list str) :=
  containers_links current_url (find_all_attrs sel soup).

Fixpoint selectors_links (soup : Soup) (current_url : str) (sels : list (Attrs -> bool))
  : option (list str) :=
  match sels with
  | [] => Some []
  | sel :: sels' =>
      match selector_links soup current_url sel with
      | None => None
      | Some links => app links <$> selectors_links soup current_url sels'
      end
  end.

(** The second loop: the third log line joins the href, after the first two
    have been written. *)
Fixpoint numbered_links (current_url : str) (l : list Anchor) (acc : list str) : M (list str) :=
  match l with
  | [] => mret acc
  | a :: l' =>
      if isdigit (text a) && _has_url_pagination_pattern (href a) then
        log INFO (lit "Found numbered pagination link: " ++ href a) ;;
        log INFO (lit "Current URL: " ++ current_url) ;;
        full_url ← returned (urljoin E current_url (href a));
        log INFO (lit "Full URL: " ++ full_url) ;;
        numbered_links current_url l'
          (if bool_decide (full_url ∈ acc) then acc else acc ++ [full_url])
      else numbered_links current_url l' acc
  end.

Definition find_all_pagination_links (soup : Soup) (current_url : str) : M (list str) :=
  in_containers ←
    returned (selectors_links soup current_url
                [class_matches (Chars (lit "page"));
                 class_matches (Chars (lit "pagination"));
                 id_matches (Chars (lit "page"))]);
  links ← numbered_links current_url (find_all_a soup) in_containers;
  mret (set_order E links).

(** [detect_pagination_mode] *)
Definition detect_pagination_mode (soup : Soup) (current_url : str) : M (option Mode) :=
  if existsb enabled_next (find_all_a soup) then mret (Some Button)
  else
    by_url ←
      (if _has_url_pagination_pattern current_url then
         match generate_next_url current_url with
         | Some (c :: u) => url_exists (c :: u)
         | _ => mret false
         end
       else mret false);
    if by_url : bool then mret (Some Url)
    else
      pagination_links ← find_all_pagination_links soup current_url;
      if existsb _has_url_pagination_pattern (take 5 pagination_links)
      then mret (Some Url)
      else mret None.

(** [is_last_page].  The second loop of the button mode: whether a
    last-page anchor points at the current page; [None] when a call of
    [urljoin] raises before such an anchor is found. *)
Definition points_here (current_url full_url : str) : bool :=
  bool_decide (full_url = current_url) || _urls_match full_url current_url.

Fixpoint last_link_here (current_url : str) (l : list Anchor) : option bool :=
  match l with
  | [] => Some false
  | a :: l' =>
      if any_in last_page_texts (text a) && truthy (Some (href a)) then
        match urljoin E current_url (href a) with
        | None => None
        | Some full_url =>
            if points_here current_url full_url then Some true
            else last_link_here current_url l'
        end
      else last_link_here current_url l'
  end.

Definition is_last_page (soup : Soup) (current_url : str) (pagination_mode : option Mode)
  : M bool :=
  match pagination_mode with
  | Some Button =>
      let has_next := existsb enabled_next (find_all_a soup) in
      here ← returned (last_link_here current_url (find_all_a soup));
      if here : bool then mret true
      else mret (negb has_next)
  | Some Url =>
      match generate_next_url current_url with
      | Some (c :: u) => ok ← url_exists (c :: u); mret (negb ok)
      | _ => mret true
      end
  | None => mret true
  end.

(** [smart_next] *)
Definition smart_next (soup : Soup) (current_url : str) (pagination_mode : option Mode)
  : M (option str) :=
  match pagination_mode with
  | Some Button =>
      next_url ← returned (find_next_button soup current_url);
      match next_url with
      | Some (c :: u) =>
          log INFO (lit "Using Next Page button: " ++ c :: u) ;;
          mret (Some (c :: u))
      | _ =>
          log INFO (lit "No Next Page button found (reached last page)") ;;
          mret None
      end
  | Some Url =>
      let next_url := generate_next_url current_url in
      ok ← (match next_url with
            | Some (c :: u) => url_exists (c :: u)
            | _ => mret false
            end);
      if ok : bool then
        log INFO (lit "Using URL pagination: " ++ default [] next_url) ;;
        mret next_url
      else
        log INFO (lit "Next URL does not exist (reached last page): "
                    ++ default (lit "None") next_url) ;;
        mret None
  | None => mret None
  end.

(* ------------------------------------------------------------------- *)
(** *** The crawl loop *)

(** The local variables of [run]. *)
Record Locals : Type := mkLocals {
  current : option str;
  visited : gset str;
  page : nat;
  pagination_mode : option Mode
}.

(** How one pass through the body of the [while] loop ends. *)
Inductive Flow : Type :=
| Continue (l : Locals)    (* back to the loop test *)
| Break (l : Locals).      (* out of the loop *)

Definition show_mode (m : Mode) : str :=
  match m with Button => lit "button" | Url => lit "url" end.

Definition show_nat (n : nat) : str := str_of_int (N.of_nat n).

(** [for url, name in files: self.download(url, name); time.sleep(1)] *)
Definition download_all (files : list (str * str)) : M unit :=
  for_each files (fun '(url, name) => download url name ;; sleep 1).

(** The body of [for c in contents], with its own [try]. *)
Definition process_content (c : str) : M unit :=
  try_except
    (s ← fetch c;
     links ← returned (extract_links s c);
     download_all links.1)
    (fun e => log WARNING (lit "Error processing content page " ++ c ++ lit ": " ++ show_exn e)).

(** The [except] clause of the page. *)
Definition on_page_error (l : Locals) (cur : str) (e : Exn) : M Flow :=
  log ERROR (lit "Error processing page " ++ cur ++ lit ": " ++ show_exn e) ;;
  match pagination_mode l with
  | Some Url =>
      let next := generate_next_url cur in
      if truthy next && negb (bool_decide (default [] next ∈ visited l))
      then mret (Continue (mkLocals next (visited l) (S (page l)) (pagination_mode l)))
      else mret (Break (mkLocals next (visited l) (page l) (pagination_mode l)))
  | _ => mret (Break l)
  end.

(** The [try] block from the extraction of the links on: the mode is
    already in [l]. *)
Definition process_page (l : Locals) (cur : str) (soup : Soup) : M Flow :=
  '(files, contents) ← returned (extract_links soup cur);
  download_all files ;;
  for_each contents process_content ;;
  match pagination_mode l with
  | Some mode =>
      last ← is_last_page soup cur (Some mode);
      if last : bool then
        log INFO (lit "Reached last page (page " ++ show_nat (page l) ++ lit ")") ;;
        mret (Break l)
      else
        next ← smart_next soup cur (Some mode);
        sleep 2 ;;
        mret (Continue (mkLocals next (visited l) (S (page l)) (pagination_mode l)))
  | None =>
      log INFO (lit "No pagination available, processing single page only") ;;
      mret (Break l)
  end.

(** The first lines of the [try] block: the mode is detected on the first
    page that is fetched, and the assignment outlives a later exception. *)
Definition detect_once (l : Locals) (cur : str) (soup : Soup) : M Locals :=
  match pagination_mode l with
  | Some _ => mret l
  | None =>
      mode ← detect_pagination_mode soup cur;
      match mode with
      | Some m => log INFO (lit "Detected pagination mode: " ++ show_mode m)
      | None => log WARNING (lit "No pagination mechanism detected. Will process single page only.")
      end ;;
      mret (mkLocals (current l) (visited l) (page l) mode)
  end.

(** One pass through the body of [while current:], [cur] being the value of
    [current]. *)
Definition loop_body (max_pages : option nat) (l : Locals) (cur : str) : M Flow :=
  if bool_decide (cur ∈ visited l) then
    log INFO (lit "Already visited " ++ cur ++ lit ", stopping to avoid loop") ;;
    mret (Break l)
  else if match max_pages with Some (S n) => (S n <? page l)%nat | _ => false end then
    log INFO (lit "Reached max_pages limit (" ++ show_nat (default 0%nat max_pages) ++ lit ")") ;;
    mret (Break l)
  else
    let l1 := mkLocals (current l) ({[cur]} ∪ visited l) (page l) (pagination_mode l) in
    log INFO (lit "Processing page " ++ show_nat (page l) ++ lit ": " ++ cur) ;;
    fetched ← try_except (s ← fetch cur; mret (inl s)) (fun e => mret (inr e));
    match fetched with
    | inr e => on_page_error l1 cur e
    | inl soup =>
        detected ← try_except (l2 ← detect_once l1 cur soup; mret (inl l2))
                              (fun e => mret (inr e));
        match detected with
        | inr e => on_page_error l1 cur e
        | inl l2 => try_except (process_page l2 cur soup) (on_page_error l2 cur)
        end
    end.

(** [while current: ...], at most [fuel] passes.  The result is [None] when
    the passes run out before the loop ends. *)
Fixpoint while_current (fuel : nat) (max_pages : option nat) (l : Locals)
  : M (option Locals) :=
  match current l with
  | Some (c :: u) =>
      match fuel with
      | O => mret None
      | S fuel' =>
          flow ← loop_body max_pages l (c :: u);
          match flow with
          | Continue l' => while_current fuel' max_pages l'
          | Break l' => mret (Some l')
          end
      end
  | _ => mret (Some l)
  end.

(** [run] *)
Definition run (base_url : str) (max_pages : option nat) (fuel : nat) : M (option Locals) :=
  log INFO (lit "Starting download from: " ++ base_url) ;;
  out ← while_current fuel max_pages (mkLocals (Some base_url) ∅ 1 None);
  match out with
  | Some l =>
      log INFO (lit "All pages processed. Total pages: " ++ show_nat (page l)) ;;
      mret (Some l)
  | None => mret None
  end.

End Methods.


(* ===================================================================== *)
(** ** Notions used to state what a run does *)
(* ===================================================================== *)

(** An event that is not the request [download] sends for a file. *)
Definition safe_event (ev : Event) : Prop :=
  match ev with
  | Request GET _ true 60 => False
  | _ => True
  end.

(** [hoare R m Q X]: every run of [m] relates the states before and after by
    [R], and returns a value in [Q] or raises an exception in [X]. *)
Definition hoare (R : State -> State -> Prop) {A} (m : M A)
           (Q : A -> Prop) (X : Exn -> Prop) : Prop :=
  forall st res st', m st = (res, st') ->
    R st st' /\ match res with Ok a => Q a | Raise e => X e end.

(** Nothing recorded in the first state is fetched again on the way to the
    second. *)
Definition no_refetch (st st' : State) : Prop :=
  downloaded st ⊆ downloaded st' /\
  exists evs, trace st' = trace st ++ evs /\
              forall u, u ∈ downloaded st -> Request GET u true 60 ∉ evs.

(** Every file link of every document the server sends has a name that
    [download] takes for a data-file name. *)
Definition all_names_valid (E : Env) : Prop :=
  forall t url r files contents u n,
    request E t GET url = Some r ->
    extract_links E (document r) url = Some (files, contents) ->
    (u, n) ∈ files -> valid_names n = true.

(** How the [except] clause of a page leaves the loop body. *)
Definition error_flow (l : Locals) (cur : str) : Flow :=
  match pagination_mode l with
  | Some Url =>
      let next := generate_next_url cur in
      if truthy next && negb (bool_decide (default [] next ∈ visited l))
      then Continue (mkLocals next (visited l) (S (page l)) (pagination_mode l))
      else Break (mkLocals next (visited l) (page l) (pagination_mode l))
  | _ => Break l
  end.

End Crawler.

(* ===================================================================== *)
(** ** Fixtures: a small concrete environment *)
(* ===================================================================== *)

Module Fixture.
Import Py Re Bs4 Crawler.

(** [urljoin] on the references the fixtures use: an empty reference gives the
    base, an absolute one is kept, and a plain relative name replaces the last
    segment of the base.  A reference that opens an IPv6 host and does not
    close it, [//[...], is refused (see [fx_env]). *)
Definition fx_urljoin (base h : str) : str :=
  match h with
  | [] => base
  | _ =>
      if contains (lit "://") h then h
      else take (length base - length (last_segment "/" base)) base ++ h
  end.

(** [urlparse(url).path] on absolute [scheme://host/path?query#fragment]
    URLs: what lies between the host and the first [?] or [#]. *)
Fixpoint until_query (s : str) : str :=
  match s with
  | [] => []
  | c :: s' => if ascii_eqb c "?" || ascii_eqb c "#" then [] else c :: until_query s'
  end.

Fixpoint from_slash (s : str) : str :=
  match s with
  | [] => []
  | c :: s' => if ascii_eqb c "/" then s else from_slash s'
  end.

Definition fx_url_path (url : str) : str :=
  match search false (Chars (lit "://")) url with
  | Some m => until_query (from_slash (m_post m))
  | None => until_query url
  end.

(** An environment over a table of replies that does not change with time,
    in which a set is iterated in the order of first insertion. *)
Definition lookup_site (site : list (Method * str * Response)) (m : Method) (url : str)
  : option Response :=
  match List.find (fun '(m', u, _) =>
                     match m, m' with GET, GET | HEAD, HEAD => true | _, _ => false end
                     && bool_decide (u = url)) site with
  | Some (_, _, r) => Some r
  | None => None
  end.

(** The file a name denotes, in a directory without links on a file system
    that tells case apart: a leading [./] changes nothing. *)
Fixpoint fx_file_of (fuel : nat) (name : str) : str :=
  match fuel, name with
  | S fuel', "."%char :: "/"%char :: name' => fx_file_of fuel' name'
  | _, _ => name
  end.

Definition fx_env (site : list (Method * str * Response)) (fs : nat -> bool) : Env :=
  mkEnv (fun base h => if startswith (lit "//[") h then None else Some (fx_urljoin base h))
        fx_url_path (fun l => reverse (remove_dups (reverse l)))
        (fun _ => lookup_site site) fs (fun name => fx_file_of (length name) name).

Definition plain : Attrs := mkAttrs None None None None.

(** [<a href=h>t</a>] *)
Definition link (h t : string) : Node :=
  Tag (lit "a") (mkAttrs (Some (lit h)) None None None) [NavigableString (lit t)].

(** A page reply with status 200. *)
Definition page_reply (doc : Soup) : Response := mkResponse 200 doc [] true.

(** A file reply with status 200 and the given chunks. *)
Definition file_reply (cs : list string) : Response := mkResponse 200 [] (map lit cs) true.

(** A listing whose second anchor is an enabled next-page button. *)
Definition doc_next : Soup :=
  [Tag (lit "div") plain
     [link "data.csv" "Data";
      Tag (lit "a") (mkAttrs (Some (lit "common_list_3.shtml")) (Some [lit "btn"]) None None)
          [NavigableString (lit " 下一页 ")]]].

Definition next_anchor : Anchor :=
  mkAnchor (lit "common_list_3.shtml") (lit "下一页") (Some [lit "btn"]) None.

(** A next-page anchor whose only class token has the word disabled in it
    and is another token. *)
Definition doc_token : Soup :=
  [Tag (lit "a") (mkAttrs (Some (lit "list_2.html")) (Some [lit "btn-disabled"]) None None)
       [NavigableString (lit "next")]].

Definition token_anchor : Anchor :=
  mkAnchor (lit "list_2.html") (lit "next") (Some [lit "btn-disabled"]) None.

(** A server that answers HEAD with 405 Method Not Allowed and GET with 200. *)
Definition probe_url : str := lit "http://x/common_list_2.shtml".

Definition site_head_rejected : list (Method * str * Response) :=
  [(HEAD, probe_url, mkResponse 405 [] [] true);
   (GET, probe_url, mkResponse 200 [] [] true)].

(** An anchor whose text only contains a next-page word. *)
Definition doc_phrase : Soup := [link "list_2.html" "go to the next page"].

Definition phrase_anchor : Anchor :=
  mkAnchor (lit "list_2.html") (lit "go to the next page") None None.

(** A listing with an enabled next-page button and a last-page anchor whose
    href is empty. *)
Definition doc_last_empty : Soup := [link "list_2.html" "next"; link "" "Last"].

Definition last_empty_anchor : Anchor := mkAnchor [] (lit "Last") None None.

Definition list_url : str := lit "http://x/list.html".

(** A last-page anchor that points at the current page, query apart. *)
Definition doc_last_here : Soup := [link "list.html?p=9" "to the Last one"].

Definition last_here_anchor : Anchor :=
  mkAnchor (lit "list.html?p=9") (lit "to the Last one") None None.

(** A file whose stream breaks after its first chunk. *)
Definition file_url : str := lit "http://x/a.csv".

Definition site_broken_stream : list (Method * str * Response) :=
  [(GET, file_url, mkResponse 200 [] [lit "aaa"] false)].

(** A file that quotes its own URL on a line and whose stream breaks after
    that, offered under the name of the record and under a data-file name. *)
Definition site_self_quoting : list (Method * str * Response) :=
  [(GET, file_url, mkResponse 200 [] [file_url ++ lit (String "010" EmptyString)] false)].

(** A download directory whose record lists [file_url]. *)
Definition dir_with_record : gmap str str :=
  {[ record_name := file_url ++ lit (String "010" EmptyString) ]}.

(** The classification fixture: a data file, a detail page, a second data
    file whose anchor has no text, and a plain page. *)
Definition doc_classify : Soup :=
  [link "a.csv" "Report: 2020/21";
   link "common_detail_b.shtml" "Details";
   Tag (lit "a") (mkAttrs (Some (lit "files/c.XLSX")) None None None) [];
   link "d.html" "About"].

(** An anchor whose target has a query after the extension, and one whose
    href ends in a newline. *)
Definition doc_query : Soup := [link "a.csv?v=2" "A"].

Definition doc_newline : Soup :=
  [Tag (lit "a") (mkAttrs (Some (lit "b.xls" ++ lit (String "010" EmptyString))) None None None)
       [NavigableString (lit "B")]].

(** A listing with two file links; the server has the second file only. *)
Definition b_url : str := lit "http://x/b.csv".

Definition doc_two_files : Soup := [link "a.csv" "a.csv"; link "b.csv" "b.csv"].

Definition site_first_fails : list (Method * str * Response) :=
  [(GET, list_url, page_reply doc_two_files);
   (GET, b_url, file_reply ["bbb"])].

(** A listing whose file link has a title as anchor text. *)
Definition site_titled : list (Method * str * Response) :=
  [(GET, list_url, page_reply [link "a.csv" "Report"]);
   (GET, file_url, file_reply ["aaa"])].

(** A listing whose file links are named after their files. *)
Definition site_named : list (Method * str * Response) :=
  [(GET, list_url, page_reply [link "a.csv" "a.csv"; link "b.xls" "Table.xls"]);
   (GET, file_url, file_reply ["aaa"]);
   (GET, lit "http://x/b.xls", file_reply ["bbb"])].

End Fixture.

(* ===================================================================== *)
(** ** The start URL of the GUI ([gui_app.py]) *)
(* ===================================================================== *)

Module Gui.
Import Py.

(** [f"http://www.csrc.gov.cn/csrc/{self.section.get()}/common_list.shtml"]:
    the URL [App.start] and [App.daily] build from the text of the section
    field and hand to [CSRCDownloader]. *)
Definition start_url (section : str) : str :=
  lit "http://www.csrc.gov.cn/csrc/" ++ section ++ lit "/common_list.shtml".

End Gui.

(* ===================================================================== *)
(** ** Notions used to state what the store and the loop keep *)
(* ===================================================================== *)

Module Notions.
Import Py Re Bs4 Crawler.

(** The line feed [_save_downloaded] ends a line with. *)
Definition newline : str := ["010"%char].

(** A text in which [str.splitlines] finds no line break. *)
Fixpoint break_free (s : str) : bool :=
  match s with
  | [] => true
  | _ :: s' => match line_break s with Some _ => false | None => break_free s' end
  end.

(** The text of a record that [_save_downloaded] wrote, one URL a line. *)
Definition record_lines (us : list str) : str := concat (map (fun u => u ++ newline) us).

(** An anchor flagged disabled, in the words of the specification:
    [disabled] is one of its class tokens, or occurs in its onclick
    attribute.  The tests of the code are [disabled_class] and
    [disabled_onclick]. *)
Definition spec_flagged_disabled (a : Anchor) : bool :=
  bool_decide (lit "disabled" ∈ default [] (class a)) ||
  contains (lit "disabled") (default [] (onclick a)).

(** The relation between states that allows every step. *)
Definition any_step (st st' : State) : Prop := True.

(** Whether the page counter is within [max_pages], when that is set (a
    limit of zero is no limit, as [if max_pages and ...] reads it). *)
Definition within_limit (max_pages : option nat) (p : nat) : Prop :=
  match max_pages with Some (S n) => p <= S n | _ => True end.

(** How the part of a pass that follows [visited.add(current)] may leave the
    locals [l]: [continue] after [page += 1], or [break]; [visited] is not
    touched again, and only a detected mode lets the loop go on. *)
Definition step_of (l : Locals) (f : Flow) : Prop :=
  match f with
  | Continue l' =>
      page l' = S (page l) /\ visited l' = visited l /\ is_Some (pagination_mode l')
  | Break l' => page l' = page l /\ visited l' = visited l
  end.

(** How a pass through the body of the loop that began with the locals [l]
    on the URL [cur] may end. *)
Definition pass_ok (max_pages : option nat) (l : Locals) (cur : str) (f : Flow) : Prop :=
  match f with
  | Continue l' =>
      (cur ∉ visited l) /\ visited l' = {[cur]} ∪ visited l /\ page l' = S (page l) /\
      within_limit max_pages (page l) /\ is_Some (pagination_mode l')
  | Break l' =>
      page l' = page l /\
      (visited l' = visited l \/
       ((cur ∉ visited l) /\ within_limit max_pages (page l) /\
        visited l' = {[cur]} ∪ visited l))
  end.

(** The four ways a URL can have a successor, and what the successor is in
    each: the text before the first match, the rewritten match, and the rest
    after the same replacement. *)
Inductive successor_of (url : str) : str -> Prop :=
| by_list pre post :
    url = pre ++ lit "common_list.shtml" ++ post ->
    successor_of url (pre ++ lit "common_list_2.shtml"
                          ++ replace (lit "common_list.shtml") (lit "common_list_2.shtml") post)
| by_list_n pre ds post :
    digits ds ->
    url = pre ++ lit "common_list_" ++ ds ++ lit ".shtml" ++ post ->
    successor_of url (pre ++ lit "common_list_" ++ succ_digits ds ++ lit ".shtml"
                          ++ replace (lit "common_list_" ++ ds ++ lit ".shtml")
                                     (lit "common_list_" ++ succ_digits ds ++ lit ".shtml") post)
| by_page pre w seps ds post :
    lower w = lit "page" \/ lower w = lit "p" ->
    forallb sep_class seps = true -> digits ds ->
    starts_with_class is_digit post = false ->
    url = pre ++ w ++ seps ++ ds ++ post ->
    successor_of url (pre ++ w ++ seps ++ succ_digits ds
                          ++ sub true (Cat (escape (w ++ seps)) (Plus is_digit))
                                 (w ++ seps ++ succ_digits ds) post)
| by_index pre w seps ds post :
    lower w = lit "index" ->
    forallb sep_class seps = true -> digits ds ->
    starts_with_class is_digit post = false ->
    url = pre ++ w ++ seps ++ ds ++ post ->
    successor_of url (pre ++ lit "index_" ++ succ_digits ds
                          ++ sub true INDEX_SUB_RE (lit "index_" ++ succ_digits ds) post).

(** The pages of a numbered listing under the prefix [P]. *)
Definition first_page (P : str) : str := P ++ lit "common_list.shtml".

Definition numbered_page (P : str) (n : N) : str :=
  P ++ lit "common_list_" ++ str_of_int n ++ lit ".shtml".

(** The local variables after a pass that goes on to the page [next]. *)
Definition onward (l : Locals) (next : str) : Locals :=
  mkLocals (Some next) (visited l) (S (page l)) (Some Url).

(** A server that answers every request with 200 and the same page. *)
Definition always_200 : Env :=
  mkEnv (fun base h => Some (Fixture.fx_urljoin base h)) Fixture.fx_url_path (fun l => l)
        (fun _ _ _ => Some (Fixture.page_reply [Fixture.link "a.csv" "data"]))
        (fun _ => true) (fun name => name).

(** The three selectors of [find_all_pagination_links]. *)
Definition pagination_selectors : list (Attrs -> bool) :=
  [class_matches (Chars (lit "page"));
   class_matches (Chars (lit "pagination"));
   id_matches (Chars (lit "page"))].

(** An anchor with a number for its text and a paginated reference. *)
Definition numbered_anchor (a : Anchor) : bool :=
  isdigit (text a) && _has_url_pagination_pattern (href a).

(** The anchors whose reference [find_all_pagination_links] joins with the
    current URL: the anchors with a non-empty [href] below a tag whose
    [class] or [id] matches a selector, and the anchors of the page whose
    text is a number and whose [href] shows pagination. *)
Definition in_container (soup : Soup) (a : Anchor) : Prop :=
  exists n ats sel,
    n ∈ soup_descendants soup /\ attrs_of n = Some ats /\
    sel ∈ pagination_selectors /\ sel ats = true /\
    a ∈ anchors_in (descendants n) /\ href a <> [].

Definition pagination_anchor (soup : Soup) (a : Anchor) : Prop :=
  in_container soup a \/ (a ∈ find_all_a soup /\ numbered_anchor a = true).

(** The state in which the first pass of [run] comes to the extraction of
    the links, when the page was fetched and the mode of the button was
    detected on it. *)
Definition first_pass_state (base : str) (st : State) : State :=
  after (after (after (after st
    0 [Log INFO (lit "Starting download from: " ++ base)])
    0 [Log INFO (lit "Processing page " ++ show_nat 1 ++ lit ": " ++ base)])
    1 [Request GET base false 30])
    0 [Log INFO (lit "Detected pagination mode: " ++ show_mode Button)].

(** What the state keeps when only INFO lines are added to the log. *)
Definition only_logged (st st' : State) : Prop :=
  downloaded st' = downloaded st /\ disk st' = disk st /\ clock st' = clock st /\
  exists evs, trace st' = trace st ++ evs /\
              Forall (fun ev => exists msg, ev = Log INFO msg) evs.

(** A listing whose URL shows no pagination, with numbered links in a
    pagination container. *)
Definition doc_pages : Soup :=
  [Tag (lit "div") (mkAttrs None (Some [lit "pages"]) None None)
       [Fixture.link "page_2.html" "2"; Fixture.link "page_3.html" "3"];
   Fixture.link "a.csv" "data"].

Definition site_pages : list (Method * str * Response) :=
  [(GET, Fixture.list_url, Fixture.page_reply doc_pages)].

(** A numbered link whose reference [urljoin] does not accept. *)
Definition doc_unjoinable : Soup := [Fixture.link "//[page_2.html" "2"].

(** The probe of [url] at time [t] is answered with 200. *)
Definition answers_200 (E : Env) (t : nat) (url : str) : Prop :=
  exists r, request E t HEAD url = Some r /\ status_code r = 200.

(** The page at [url] cannot be fetched at time [t]: the request raises or
    is answered with a status from 400 to 599. *)
Definition unavailable (E : Env) (t : nat) (url : str) : Prop :=
  match request E t GET url with
  | Some r => 400 <= status_code r < 600
  | None => True
  end.

(** An event that is no pause. *)
Definition no_pause (ev : Event) : Prop :=
  match ev with Sleep _ => False | _ => True end.

(** A server that cannot be reached. *)
Definition offline : Env :=
  mkEnv (fun base h => Some (Fixture.fx_urljoin base h)) Fixture.fx_url_path (fun l => l)
        (fun _ _ _ => None) (fun _ => true) (fun name => name).

(** A listing whose next-page button works by script: an anchor with the
    text of the button and an empty reference. *)
Definition doc_scripted : Soup := [Fixture.link "" "next"; Fixture.link "notes.html" "notes"].

Definition site_scripted : list (Method * str * Response) :=
  [(GET, Fixture.list_url, Fixture.page_reply doc_scripted)].

End Notions.

(* ===================================================================== *)
(** ** The time utilities of the data cleaner ([clean_data.py]) *)
(* ===================================================================== *)

Module Cleaner.
Import Py Re.

(** A cell of a data frame as the two functions see it: missing
    ([pd.isna(x)] holds), or a value, given by its text [str(x)]. *)
Inductive Cell : Type :=
| NA
| Value (text : str).

(** [[-/]] and [[1-4]] *)
Definition dash (c : ascii) : bool := ascii_eqb c "-" || ascii_eqb c "/".

Definition quarter_digit (c : ascii) : bool :=
  let n := nat_of_ascii c in (49 <=? n)%nat && (n <=? 52)%nat.

(** [\d{4}] and [\d{1,2}] *)
Definition D4 : regex :=
  Cat (Class is_digit) (Cat (Class is_digit) (Cat (Class is_digit) (Class is_digit))).

Definition D12 : regex := Cat (Class is_digit) (Opt (Class is_digit)).

(** [^\d{4}$], [^\d{4}[-/]\d{1,2}$], [^\d{4}[-/]\d{1,2}[-/]\d{1,2}$] and
    [^\d{4}Q[1-4]$]; the leading [^] adds nothing under [re.match]. *)
Definition YEAR_RE : regex := Cat D4 Dollar.

Definition MONTH_RE : regex := Cat D4 (Cat (Class dash) (Cat D12 Dollar)).

Definition DAY_RE : regex :=
  Cat D4 (Cat (Class dash) (Cat D12 (Cat (Class dash) (Cat D12 Dollar)))).

Definition QUARTER_RE : regex :=
  Cat D4 (Cat (Chars (lit "Q")) (Cat (Class quarter_digit) Dollar)).

(** The truth value of [re.match(p, s)]. *)
Definition re_match (p : regex) (s : str) : bool :=
  match match_here false p s with Some _ => true | None => false end.

(** [looks_like_time] *)
Definition looks_like_time (x : Cell) : bool :=
  match x with
  | NA => false
  | Value text =>
      let s := strip text in
      existsb (fun p => re_match p s) [YEAR_RE; MONTH_RE; DAY_RE; QUARTER_RE]
  end.

(** [re.split(p, s)] for a pattern that is one character class: [cur] is
    the current piece, reversed. *)
Fixpoint split_from (p : ascii -> bool) (cur : str) (s : str) : list str :=
  match s with
  | [] => [rev cur]
  | c :: s' => if p c then rev cur :: split_from p [] s' else split_from p (c :: cur) s'
  end.

Definition re_split (p : ascii -> bool) (s : str) : list str := split_from p [] s.

(** [s.zfill(width)]: zeros go after a leading sign. *)
Definition zfill (width : nat) (s : str) : str :=
  match s with
  | c :: s' =>
      if ascii_eqb c "+" || ascii_eqb c "-"
      then c :: repeat "0"%char (width - length s) ++ s'
      else repeat "0"%char (width - length s) ++ s
  | [] => repeat "0"%char width
  end.

(** What a call does: it returns a text or [None], or it raises (the
    unpacking of [re.split], the index [s[-1]] and [int] can raise; the
    [try] covers the last statement only). *)
Inductive Outcome : Type :=
| Returns (v : option str)
| Raises.

Section Normalize.
(** [pd.to_datetime(s).strftime("%Y-%m-%d")]; [None] when the call raises. *)
Variable to_datetime : str -> option str.

(** [normalize_time] *)
Definition normalize_time (x : Cell) : Outcome :=
  match x with
  | NA => Returns None
  | Value text =>
      let s := strip text in
      if re_match YEAR_RE s then Returns (Some (s ++ lit "-01-01"))
      else if re_match MONTH_RE s then
        match re_split dash s with
        | [y; m] => Returns (Some (y ++ lit "-" ++ zfill 2 m ++ lit "-01"))
        | _ => Raises
        end
      else if re_match QUARTER_RE s then
        let y := take 4 s in
        match last s with
        | Some c =>
            if is_digit c then
              let q := digit_val c in
              Returns (Some (y ++ lit "-" ++ zfill 2 (str_of_int (q * 3)) ++ lit "-01"))
            else Raises
        | None => Raises
        end
      else Returns (to_datetime s)
  end.
End Normalize.

(** The shapes of a time, in words: four digits; four digits, a dash or a
    slash, one or two digits; the same with a second separator and one or two
    digits more; four digits, the letter Q and a digit from 1 to 4. *)
Definition year (y : str) : Prop := length y = 4 /\ forallb is_digit y = true.

Definition one_or_two (m : str) : Prop :=
  (length m = 1 \/ length m = 2) /\ forallb is_digit m = true.

Definition month_text (s : str) : Prop :=
  exists y c m, s = y ++ c :: m /\ year y /\ dash c = true /\ one_or_two m.

Definition day_text (s : str) : Prop :=
  exists y c m c' d,
    s = y ++ c :: m ++ c' :: d /\ year y /\ dash c = true /\ one_or_two m /\
    dash c' = true /\ one_or_two d.

Definition quarter_text (s : str) : Prop :=
  exists y q, s = y ++ ["Q"%char; q] /\ year y /\ quarter_digit q = true.

Definition time_text (s : str) : Prop :=
  year s \/ month_text s \/ day_text s \/ quarter_text s.

(** A text that does not end in a newline: on such a text [$] is the end. *)
Definition no_final_newline (s : str) : Prop := forall y, s <> y ++ ["010"%char].

End Cleaner.

(* ===================================================================== *)
(** ** Facts about strings *)
(* ===================================================================== *)

Module StrFacts.
Import Py.

Lemma ascii_eqb_true a b : ascii_eqb a b = true <-> a = b.
Proof. unfold ascii_eqb. apply Ascii.eqb_eq. Qed.

Lemma ascii_eqb_refl a : ascii_eqb a a = true.
Proof. by apply ascii_eqb_true. Qed.

Lemma strip_prefix_exact p s r :
  strip_prefix false p s = Some r <-> s = p ++ r.
Proof.
  revert s. induction p as [|a p IH]; intros s; simpl.
  - split; [intros [= ->]|intros ->]; reflexivity.
  - destruct s as [|b s]; [split; discriminate|].
    unfold char_eq. destruct (ascii_eqb a b) eqn:Hab.
    + apply ascii_eqb_true in Hab as ->. rewrite IH.
      split; [intros ->|intros [= ->]]; reflexivity.
    + split; [discriminate|]. intros [= -> ->].
      rewrite ascii_eqb_refl in Hab. discriminate.
Qed.

Lemma startswith_spec p s : startswith p s = true <-> exists r, s = p ++ r.
Proof.
  unfold startswith. destruct (strip_prefix false p s) as [r|] eqn:H.
  - apply strip_prefix_exact in H. split; eauto.
  - split; [discriminate|]. intros [r Hr]. apply strip_prefix_exact in Hr. congruence.
Qed.

Lemma endswith_spec p s : endswith p s = true <-> exists q, s = q ++ p.
Proof.
  unfold endswith. rewrite startswith_spec. split.
  - intros [r Hr]. exists (rev r).
    rewrite <- (rev_involutive s), Hr, rev_app_distr, rev_involutive. reflexivity.
  - intros [q ->]. exists (rev q). apply rev_app_distr.
Qed.

Lemma contains_spec p s :
  contains p s = true <-> exists pre post, s = pre ++ p ++ post.
Proof.
  induction s as [|c s IH].
  - simpl. rewrite orb_false_r, startswith_spec. split.
    + intros [r Hr]. exists [], r. exact Hr.
    + intros (pre & post & H). destruct pre; [eauto|discriminate].
  - cbn [contains]. rewrite orb_true_iff, startswith_spec, IH. split.
    + intros [[r Hr]|(pre & post & ->)].
      * exists [], r. exact Hr.
      * exists (c :: pre), post. reflexivity.
    + intros (pre & post & H). destruct pre as [|c' pre].
      * left. eauto.
      * right. injection H as -> ->. eauto.
Qed.

Lemma existsb_elem_of {A} (f : A -> bool) (l : list A) :
  existsb f l = true <-> exists x, x ∈ l /\ f x = true.
Proof.
  rewrite existsb_exists. split; intros (x & Hx & Hf); exists x; split; auto;
    by apply list_elem_of_In.
Qed.

End StrFacts.

(* ===================================================================== *)
(** ** Facts about the monad and the requests *)
(* ===================================================================== *)

Module MFacts.
Import Py Crawler.

Ltac munfold :=
  unfold mbind, M_bind, mret, M_ret, bind, ret, raise, try_except, log, sleep, emit, tick,
    get_downloaded, set_downloaded, get_disk, set_disk in *.

Lemma send_eq (E : Env) m url stream timeout st :
  send E m url stream timeout st =
  match request E (clock st) m url with
  | Some r => (Ok r, after st 1 [Request m url stream timeout])
  | None => (Raise RequestException, after st 1 [Request m url stream timeout])
  end.
Proof.
  unfold send, after. munfold. cbn. destruct (request E (clock st) m url); reflexivity.
Qed.

Lemma returned_Some {A} (a : A) st : returned (Some a) st = (Ok a, st).
Proof. reflexivity. Qed.

Lemma returned_None {A} st : returned (@None A) st = (Raise ValueError, st).
Proof. reflexivity. Qed.

Lemma returned_bind {A B} (a : A) (f : A -> M B) : returned (Some a) ≫= f = f a.
Proof. reflexivity. Qed.

Lemma returned_eq {A} (o : option A) st :
  returned o st = (match o with Some a => Ok a | None => Raise ValueError end, st).
Proof. by destruct o. Qed.

Lemma bind_inv {A B} (m : M A) (f : A -> M B) st res st' :
  (m ≫= f) st = (res, st') ->
  (exists a st1, m st = (Ok a, st1) /\ f a st1 = (res, st')) \/
  (exists e, m st = (Raise e, st') /\ res = Raise e).
Proof.
  unfold mbind, M_bind, bind. destruct (m st) as [[a|e] st1]; intros H.
  - left. eauto.
  - right. injection H as <- <-. eauto.
Qed.

End MFacts.


(* ===================================================================== *)
(** ** Facts about the matcher *)
(* ===================================================================== *)

Module ReFacts.
Import Py Re StrFacts.

Lemma strip_prefix_ci p s r :
  strip_prefix true p s = Some r <-> exists m, s = m ++ r /\ lower m = lower p.
Proof.
  revert s. induction p as [|a p IH]; intros s; simpl.
  - split.
    + intros [= ->]. by exists [].
    + intros (m & -> & Hm). destruct m; [done|discriminate].
  - destruct s as [|b s].
    + split; [discriminate|]. intros (m & Hs & Hm). destruct m; discriminate.
    + unfold char_eq. destruct (ascii_eqb (lower_char a) (lower_char b)) eqn:Hab.
      * apply ascii_eqb_true in Hab. rewrite IH. split.
        -- intros (m & -> & Hm). exists (b :: m). simpl. by rewrite Hm, Hab.
        -- intros (m & Hs & Hm). destruct m as [|b' m]; [discriminate|].
           simpl in *. simplify_eq. eauto.
      * split; [discriminate|]. intros (m & Hs & Hm).
        destruct m as [|b' m]; [discriminate|]. simpl in *.
        injection Hm as Hc Hm. injection Hs as -> ->.
        rewrite <- Hc, ascii_eqb_refl in Hab. discriminate.
Qed.

Lemma strip_prefix_lang ic p s r :
  strip_prefix ic p s = Some r <-> exists m, s = m ++ r /\ lang ic (Chars p) m r.
Proof.
  destruct ic; cbn [lang].
  - apply strip_prefix_ci.
  - rewrite strip_prefix_exact. split; [intros ->; eauto|intros (m & -> & ->); done].
Qed.

Section Sound.
Context {R : Type}.

Lemma star_k_inv p s (k : str -> option R) x :
  star_k p s k = Some x ->
  exists run rest, s = run ++ rest /\ forallb p run = true /\ k rest = Some x.
Proof.
  revert k x. induction s as [|c s IH]; intros k x; simpl.
  - intros H. by exists [], [].
  - destruct (p c) eqn:Hp.
    + destruct (star_k p s k) as [y|] eqn:Hs.
      * intros [= ->]. apply IH in Hs as (run & rest & -> & Hrun & Hk).
        exists (c :: run), rest. simpl. by rewrite Hp, Hrun.
      * intros H. by exists [], (c :: s).
    + intros H. by exists [], (c :: s).
Qed.

Lemma star_k_complete p run rest (k : str -> option R) :
  forallb p run = true -> is_Some (k rest) -> is_Some (star_k p (run ++ rest) k).
Proof.
  induction run as [|c run IH]; simpl.
  - intros _ Hk. destruct rest as [|c rest]; simpl; [done|].
    destruct (p c); [|done]. destruct (star_k p rest k); [eauto|done].
  - intros Hp Hk. apply andb_true_iff in Hp as [-> Hp].
    destruct (IH Hp Hk) as [x ->]. eauto.
Qed.

(** Soundness: what the matcher hands to its continuation is the rest after
    a text of the language. *)
Lemma rmatch_sound ic r s g (k : str -> groups -> option R) x :
  rmatch ic r s g k = Some x ->
  exists m rest g', s = m ++ rest /\ lang ic r m rest /\ k rest g' = Some x.
Proof.
  revert s g k x. induction r as [l|p|p|p|r1 IH1 r2 IH2|r1 IH1 r2 IH2|r1 IH1|i r1 IH1|];
    intros s g k x; cbn [rmatch].
  - destruct (strip_prefix ic l s) as [rest|] eqn:Hs; [|discriminate].
    apply strip_prefix_lang in Hs as (m & -> & Hm). eauto 6.
  - destruct s as [|c rest]; [discriminate|]. destruct (p c) eqn:Hp; [|discriminate].
    intros H. exists [c], rest, g. cbn. eauto.
  - intros H. apply star_k_inv in H as (run & rest & -> & Hrun & Hk). cbn. eauto 6.
  - destruct s as [|c s]; [discriminate|]. destruct (p c) eqn:Hp; [|discriminate].
    intros H. apply star_k_inv in H as (run & rest & -> & Hrun & Hk).
    exists (c :: run), rest, g. cbn. rewrite Hp, Hrun. auto.
  - intros H. apply IH1 in H as (m1 & s1 & g1 & -> & Hl1 & H).
    apply IH2 in H as (m2 & rest & g2 & -> & Hl2 & H).
    exists (m1 ++ m2), rest, g2. rewrite <- app_assoc. cbn. eauto 8.
  - destruct (rmatch ic r1 s g k) as [y|] eqn:H1.
    + intros [= ->]. apply IH1 in H1 as (m & rest & g' & ? & ? & ?). cbn. eauto 8.
    + intros H. apply IH2 in H as (m & rest & g' & ? & ? & ?). cbn. eauto 8.
  - destruct (rmatch ic r1 s g k) as [y|] eqn:H1.
    + intros [= ->]. apply IH1 in H1 as (m & rest & g' & ? & ? & ?). cbn. eauto 8.
    + intros H. exists [], s, g. cbn. auto.
  - intros H. apply IH1 in H as (m & rest & g' & -> & Hl & H). cbn. eauto 6.
  - destruct s as [|c [|c' s]].
    + intros H. exists [], [], g. cbn. auto.
    + destruct (ascii_eqb c "010") eqn:Hc; [|discriminate].
      apply ascii_eqb_true in Hc as ->. intros H. exists [], ["010"%char], g. cbn. auto.
    + discriminate.
Qed.

(** Completeness: when some text of the language is followed by a rest the
    continuation accepts, the matcher finds a match (backtracking reaches it
    unless an earlier alternative succeeds). *)
Lemma rmatch_complete ic r m rest g (k : str -> groups -> option R) :
  lang ic r m rest ->
  (forall g', is_Some (k rest g')) ->
  is_Some (rmatch ic r (m ++ rest) g k).
Proof.
  revert m rest g k. induction r as [l|p|p|p|r1 IH1 r2 IH2|r1 IH1 r2 IH2|r1 IH1|i r1 IH1|];
    intros m rest g k Hl Hk; cbn [rmatch lang] in *.
  - assert (strip_prefix ic l (m ++ rest) = Some rest) as ->; [|done].
    apply strip_prefix_lang. eauto.
  - destruct Hl as (c & -> & Hp). cbn. by rewrite Hp.
  - by apply star_k_complete.
  - destruct Hl as [Hne Hp]. destruct m as [|c m]; [done|]. cbn in *.
    apply andb_true_iff in Hp as [-> Hp]. by apply star_k_complete.
  - destruct Hl as (m1 & m2 & -> & H1 & H2). rewrite <- app_assoc.
    apply IH1; [done|]. intros g'. by apply IH2.
  - destruct Hl as [H1|H2].
    + destruct (IH1 _ _ g k H1 Hk) as [x ->]. eauto.
    + destruct (rmatch ic r1 (m ++ rest) g k); [eauto|]. by apply IH2.
  - destruct Hl as [->|H1].
    + cbn. destruct (rmatch ic r1 rest g k); [eauto|done].
    + destruct (IH1 _ _ g k H1 Hk) as [x ->]. eauto.
  - apply IH1; [done|]. intros g'. apply Hk.
  - destruct Hl as [-> [->| ->]]; cbn; done.
Qed.
End Sound.

Lemma match_here_lang ic r s :
  is_Some (match_here ic r s) <-> exists m rest, s = m ++ rest /\ lang ic r m rest.
Proof.
  unfold match_here. split.
  - intros [x H]. apply rmatch_sound in H as (m & rest & g' & ? & ? & _). eauto.
  - intros (m & rest & -> & Hl). apply rmatch_complete; [done|]. eauto.
Qed.

Lemma consumed_app m rest : consumed (m ++ rest) rest = m.
Proof.
  unfold consumed. rewrite length_app.
  replace (length m + length rest - length rest) with (length m) by lia.
  by rewrite take_app_length.
Qed.

Lemma match_here_sound ic r s rest g :
  match_here ic r s = Some (rest, g) ->
  s = consumed s rest ++ rest /\ lang ic r (consumed s rest) rest.
Proof.
  unfold match_here. intros H.
  apply rmatch_sound in H as (m & rest' & g' & -> & Hl & [= -> _]).
  by rewrite consumed_app.
Qed.

(** [re.search] returns the leftmost position at which the pattern matches. *)
Lemma search_from_spec ic r pre s mt :
  search_from ic r pre s = Some mt ->
  exists skipped,
    m_pre mt = rev pre ++ skipped /\
    s = skipped ++ m_text mt ++ m_post mt /\
    match_here ic r (m_text mt ++ m_post mt) = Some (m_post mt, m_groups mt) /\
    forall i, i < length skipped -> match_here ic r (drop i s) = None.
Proof.
  revert pre. induction s as [|c s IH]; intros pre; cbn [search_from].
  - destruct (match_here ic r []) as [[rest g]|] eqn:Hm; [|discriminate].
    intros [= <-]. cbn [m_pre m_text m_post m_groups]. exists []. rewrite app_nil_r.
    pose proof (proj1 (match_here_sound _ _ _ _ _ Hm)) as Heq.
    repeat split; auto.
    + by rewrite <- Heq.
    + intros i Hi. cbn in Hi. lia.
  - destruct (match_here ic r (c :: s)) as [[rest g]|] eqn:Hm.
    + intros [= <-]. cbn [m_pre m_text m_post m_groups]. exists []. rewrite app_nil_r.
      pose proof (proj1 (match_here_sound _ _ _ _ _ Hm)) as Heq.
      repeat split; auto.
      * by rewrite <- Heq.
      * intros i Hi. cbn in Hi. lia.
    + intros H. apply IH in H as (sk & Hpre & Hs & Hmatch & Hleft).
      exists (c :: sk). cbn in Hpre. rewrite <- app_assoc in Hpre. cbn in Hpre.
      repeat split; auto.
      * cbn. by rewrite <- Hs.
      * intros [|i] Hi; [done|]. cbn. apply Hleft. cbn in Hi. lia.
Qed.

Lemma search_spec ic r s mt :
  search ic r s = Some mt ->
  s = m_pre mt ++ m_text mt ++ m_post mt /\
  match_here ic r (m_text mt ++ m_post mt) = Some (m_post mt, m_groups mt) /\
  forall i, i < length (m_pre mt) -> match_here ic r (drop i s) = None.
Proof.
  intros H. apply search_from_spec in H as (sk & Hpre & Hs & Hm & Hl).
  cbn in Hpre. subst sk. auto.
Qed.

Lemma search_from_none ic r pre s :
  search_from ic r pre s = None <-> forall i, i <= length s -> match_here ic r (drop i s) = None.
Proof.
  revert pre. induction s as [|c s IH]; intros pre; cbn [search_from].
  - destruct (match_here ic r []) as [[rest g]|] eqn:Hm.
    + split; [discriminate|]. intros H. specialize (H 0 (le_n _)). cbn in H. congruence.
    + split; [|done]. intros _ i Hi. by rewrite drop_nil.
  - destruct (match_here ic r (c :: s)) as [[rest g]|] eqn:Hm.
    + split; [discriminate|]. intros H. specialize (H 0 (Nat.le_0_l _)). cbn in H. congruence.
    + rewrite IH. split.
      * intros H [|i] Hi; [done|]. cbn. apply H. cbn in Hi. lia.
      * intros H i Hi. apply (H (S i)). cbn. lia.
Qed.

(** [re.search] finds a match iff a text of the language occurs in [s]. *)
Lemma found_iff ic r s :
  found ic r s = true <->
  exists pre m rest, s = pre ++ m ++ rest /\ lang ic r m rest.
Proof.
  unfold found, search. destruct (search_from ic r [] s) as [mt|] eqn:Hs.
  - split; [|done]. intros _. apply search_from_spec in Hs as (sk & _ & Heq & Hm & _).
    apply match_here_sound in Hm as [_ Hl]. rewrite consumed_app in Hl. eauto.
  - split; [discriminate|]. intros (pre & m & rest & -> & Hl).
    rewrite search_from_none in Hs. specialize (Hs (length pre)).
    rewrite drop_app_length in Hs.
    assert (is_Some (match_here ic r (m ++ rest))) as [x Hx]
      by (apply match_here_lang; eauto).
    rewrite Hs in Hx; [discriminate|]. rewrite length_app. lia.
Qed.

Section Greedy.
Context {R : Type}.

(** A greedy run stops where the class stops, when the continuation accepts
    that point. *)
Lemma star_k_greedy p run rest (k : str -> option R) x :
  forallb p run = true -> starts_with_class p rest = false -> k rest = Some x ->
  star_k p (run ++ rest) k = Some x.
Proof.
  intros Hrun Hrest Hk. induction run as [|c run IH]; cbn [app star_k].
  - destruct rest as [|c rest]; cbn [star_k]; [done|]. cbn in Hrest. by rewrite Hrest.
  - cbn in Hrun. apply andb_true_iff in Hrun as [-> Hrun]. by rewrite (IH Hrun).
Qed.
End Greedy.

Lemma no_match_before_spec ic r s n :
  no_match_before ic r s n = true <->
  forall i, i < n -> match_here ic r (drop i s) = None.
Proof.
  unfold no_match_before. rewrite negb_true_iff. split.
  - intros H i Hi. destruct (match_here ic r (drop i s)) eqn:Hm; [|done].
    assert (existsb (matches_at ic r s) (seq 0 n) = true); [|congruence].
    apply existsb_exists. exists i. split; [apply in_seq; lia|].
    unfold matches_at. by rewrite Hm.
  - intros H. destruct (existsb _ _) eqn:He; [|done].
    apply existsb_exists in He as (i & Hi & Hm). apply in_seq in Hi.
    unfold matches_at in Hm. rewrite H in Hm by lia. done.
Qed.

Lemma no_match_before_cons ic r c s n :
  no_match_before ic r (c :: s) (S n) = true ->
  match_here ic r (c :: s) = None /\ no_match_before ic r s n = true.
Proof.
  rewrite !no_match_before_spec. intros H. split.
  - apply (H 0). lia.
  - intros i Hi. apply (H (S i)). lia.
Qed.

(** [re.search] returns the first position at which the pattern matches. *)
Lemma search_from_first ic r acc pre s rest g :
  no_match_before ic r (pre ++ s) (length pre) = true ->
  match_here ic r s = Some (rest, g) ->
  search_from ic r acc (pre ++ s) = Some (mkMatch (rev acc ++ pre) (consumed s rest) g rest).
Proof.
  revert acc. induction pre as [|c pre IH]; intros acc Hno Hm.
  - cbn [app]. rewrite app_nil_r.
    destruct s; cbn [search_from]; by rewrite Hm.
  - cbn [app length] in *. apply no_match_before_cons in Hno as [Hnone Hno].
    cbn [search_from]. rewrite Hnone. rewrite (IH (c :: acc) Hno Hm).
    cbn [rev]. by rewrite <- app_assoc.
Qed.

Lemma search_first ic r pre s rest g :
  no_match_before ic r (pre ++ s) (length pre) = true ->
  match_here ic r s = Some (rest, g) ->
  search ic r (pre ++ s) = Some (mkMatch pre (consumed s rest) g rest).
Proof. intros. unfold search. by rewrite (search_from_first _ _ [] pre s rest g). Qed.

(** [str.replace]: up to and including the first occurrence. *)
Lemma replace_from_skip old new m s :
  replace_from old new (length m) (m ++ s) = replace_from old new 0 s.
Proof.
  induction m as [|c m IH]; [done|]. cbn [length app replace_from]. exact IH.
Qed.

Lemma replace_first old new pre post :
  old ≠ [] ->
  (forall i, i < length pre -> startswith old (drop i (pre ++ old ++ post)) = false) ->
  replace old new (pre ++ old ++ post) = pre ++ new ++ replace old new post.
Proof.
  intros Hold. unfold replace. induction pre as [|c pre IH]; intros Hno.
  - cbn [app]. destruct old as [|o old]; [done|]. cbn [app replace_from].
    assert (startswith (o :: old) (o :: old ++ post) = true) as ->
      by (apply startswith_spec; by exists post).
    cbn [length]. replace (S (length old) - 1) with (length old) by lia.
    by rewrite replace_from_skip.
  - cbn [app replace_from]. pose proof (Hno 0 ltac:(cbn; lia)) as H0.
    cbn [drop app] in H0. rewrite H0.
    rewrite IH; [done|]. intros i Hi. apply (Hno (S i)). cbn. lia.
Qed.

(** [re.sub]: up to and including the first match. *)
Lemma sub_from_skip ic r repl m s :
  sub_from ic r repl (length m) (m ++ s) = sub_from ic r repl 0 s.
Proof.
  induction m as [|c m IH]; [done|]. cbn [length app sub_from]. exact IH.
Qed.

Lemma sub_first ic r repl pre m post g :
  m ≠ [] ->
  no_match_before ic r (pre ++ m ++ post) (length pre) = true ->
  match_here ic r (m ++ post) = Some (post, g) ->
  sub ic r repl (pre ++ m ++ post) = pre ++ repl ++ sub ic r repl post.
Proof.
  intros Hm. unfold sub. induction pre as [|c pre IH]; intros Hno Hmatch.
  - cbn [app]. destruct m as [|c m]; [done|]. cbn [app sub_from]. cbn [app] in Hmatch.
    rewrite Hmatch. cbn [length]. rewrite length_app.
    replace (S (length m + length post) - length post) with (S (length m)) by lia.
    by rewrite sub_from_skip.
  - cbn [app length] in *. apply no_match_before_cons in Hno as [Hnone Hno].
    cbn [sub_from]. rewrite Hnone. by rewrite IH.
Qed.

Lemma sub_none ic r repl s :
  no_match_before ic r s (length s) = true -> sub ic r repl s = s.
Proof.
  unfold sub. induction s as [|c s IH]; [done|]. cbn [length]. intros Hno.
  apply no_match_before_cons in Hno as [Hnone Hno]. cbn [sub_from].
  by rewrite Hnone, IH.
Qed.

Lemma replace_none old new s :
  (forall i, i < length s -> startswith old (drop i s) = false) ->
  replace old new s = s.
Proof.
  unfold replace. induction s as [|c s IH]; [done|]. intros Hno. cbn [replace_from].
  pose proof (Hno 0 ltac:(cbn; lia)) as H0. cbn [drop] in H0. rewrite H0.
  rewrite IH; [done|].
  intros i Hi. apply (Hno (S i)). cbn. lia.
Qed.

End ReFacts.
(* ===================================================================== *)
(** ** The link classifier *)
(* ===================================================================== *)

Module Classifier.
Import Py Re Bs4 Crawler Fixture StrFacts MFacts ReFacts.

Lemma lower_app a b : lower (a ++ b) = lower a ++ lower b.
Proof. apply map_app. Qed.

Lemma found_FILE_RE h : found true FILE_RE h = true <-> file_href h.
Proof.
  rewrite found_iff. unfold file_href, FILE_RE. cbn [lang]. split.
  - intros (pre & m & rest & -> & m1 & m2 & -> & H1 & m3 & m4 & -> & H3 & -> & Hrest).
    exists pre, (m1 ++ m3), rest. rewrite app_nil_r. split; [done|]. split; [|done].
    rewrite lower_app, H1. apply list_elem_of_In.
    destruct H3 as [->|[->| ->]]; cbn; auto.
  - intros (stem & ext & tail & -> & Hext & Htail).
    assert (exists m1 m3, ext = m1 ++ m3 /\ lower m1 = lower (lit ".") /\
              (lower m3 = lower (lit "csv") \/ lower m3 = lower (lit "xls") \/
               lower m3 = lower (lit "xlsx"))) as (m1 & m3 & -> & H1 & H3).
    { destruct ext as [|c ext].
      { apply list_elem_of_In in Hext. cbn in Hext. intuition discriminate. }
      exists [c], ext. split; [done|].
      apply list_elem_of_In in Hext. cbn in Hext.
      destruct Hext as [He|[He|[He|[]]]]; injection He as Hc He;
        (split; [cbn; by rewrite <- Hc|]); unfold lower; rewrite <- He; cbn; auto. }
    exists stem, (m1 ++ m3), tail. split; [done|].
    exists m1, m3. split; [done|]. split; [done|].
    exists m3, []. rewrite app_nil_r. auto.
Qed.

Lemma sanitize_eq s :
  sub false (Class illegal_char) (lit "_") s =
  map (fun c => if illegal_char c then "_"%char else c) s.
Proof.
  unfold sub. induction s as [|c s IH]; [done|].
  cbn [sub_from match_here rmatch map].
  destruct (illegal_char c).
  - cbn [length]. replace (S (length s) - length s) with 1 by lia.
    by rewrite IH.
  - by rewrite IH.
Qed.

Lemma Forall2_lookup_r_elem {A B} (R : A -> B -> Prop) l k y :
  Forall2 R l k -> y ∈ k -> exists x, x ∈ l /\ R x y.
Proof.
  intros H. induction H as [|x y' l k Hxy H IH]; [by intros ?%elem_of_nil|].
  intros [->|Hy]%elem_of_cons; [exists x; split; [by left|done]|].
  destruct (IH Hy) as (x' & Hx' & Hr). exists x'. split; [by right|done].
Qed.

Lemma Forall2_elem_of_r {A B} (R : A -> B -> Prop) l k y :
  (forall x y1 y2, R x y1 -> R x y2 -> y1 = y2) ->
  Forall2 R l k -> y ∈ k <-> exists x, x ∈ l /\ R x y.
Proof.
  intros Hfun H. induction H as [|x y' l k Hxy H IH].
  - split; [by intros ?%elem_of_nil|]. by intros (x & ?%elem_of_nil & _).
  - rewrite elem_of_cons, IH. split.
    + intros [->|(x' & Hx' & Hr)]; [exists x; split; [by left|done]|].
      exists x'. split; [by right|done].
    + intros (x' & [->|Hx']%elem_of_cons & Hr); [left; by eapply Hfun|eauto].
Qed.

Section Classifier.
Variable E : Env.

Lemma classify_none page l :
  classify E page l = None <-> exists a, a ∈ l /\ urljoin E page (href a) = None.
Proof.
  induction l as [|a l IH]; cbn [classify].
  - split; [done|]. intros (a & Ha & _). by apply elem_of_nil in Ha.
  - destruct (urljoin E page (href a)) as [full|] eqn:Hj.
    + destruct (classify E page l) as [[files contents]|].
      * split.
        -- destruct (found true FILE_RE (href a)); [done|]. by destruct (_ || _).
        -- intros (b & [->|Hb]%elem_of_cons & Hn); [congruence|].
           destruct IH as [_ IH]. by discriminate IH; eauto.
      * split; [|done]. intros _. destruct IH as [IH _].
        destruct (IH eq_refl) as (b & Hb & Hn). exists b. split; [by right|done].
    + split; [|done]. intros _. exists a. split; [by left|done].
Qed.

Lemma classify_some page l files contents :
  classify E page l = Some (files, contents) ->
  Forall2 (fun a f => exists full, urljoin E page (href a) = Some full /\ f = link_of a full)
          (List.filter (fun a => found true FILE_RE (href a)) l) files /\
  Forall2 (fun a c => urljoin E page (href a) = Some c) (List.filter is_content l) contents.
Proof.
  revert files contents. induction l as [|a l IH]; intros files contents; cbn [classify].
  - intros [= <- <-]. split; constructor.
  - destruct (urljoin E page (href a)) as [full|] eqn:Hj; [|done].
    destruct (classify E page l) as [[files' contents']|]; [|done].
    destruct (IH files' contents' eq_refl) as [Hf Hc].
    cbn [List.filter]. unfold is_content at 1.
    destruct (found true FILE_RE (href a)); cbn [negb andb].
    + intros [= <- <-]. split; [|done]. constructor; [|done]. by exists full.
    + destruct (contains _ _ || endswith _ _); intros [= <- <-]; [|done].
      split; [done|]. by constructor.
Qed.

Lemma is_content_spec a :
  is_content a = true <-> ~ file_href (href a) /\ content_href (href a).
Proof.
  unfold is_content, content_href.
  rewrite andb_true_iff, negb_true_iff, orb_true_iff, contains_spec, endswith_spec.
  rewrite <- found_FILE_RE. destruct (found true FILE_RE (href a)); intuition congruence.
Qed.

(** C4, as amended.  The test of a file link is made on the href attribute as
    it is written, query and fragment included, and lets one newline follow
    the extension: an anchor is a file link iff its href is a stem, then
    [.csv], [.xls] or [.xlsx] in any case, then at most one newline.  The
    file links come in document order, each with the resolved URL and, as
    name, the anchor text (the part of the resolved URL after its last slash
    when the text is empty) with every illegal character replaced by an
    underscore.  The content links have no duplicates and are the resolved
    URLs of the anchors that are no file links and whose href contains
    [common_detail] or ends in [.shtml].  An anchor matching neither rule
    contributes to neither output. *)
Theorem extract_links_partition soup page :
  set_order_ok E ->
  (forall h, found true FILE_RE h = true <-> file_href h) /\
  (extract_links E soup page = None <->
   exists a, a ∈ find_all_a soup /\ urljoin E page (href a) = None) /\
  (forall files contents,
     extract_links E soup page = Some (files, contents) ->
     Forall2 (fun a f =>
                exists full,
                  urljoin E page (href a) = Some full /\
                  f = (full,
                       map (fun c => if illegal_char c then "_"%char else c)
                           (match text a with
                            | [] => last_segment "/" full
                            | t => t
                            end)))
             (List.filter (fun a => found true FILE_RE (href a)) (find_all_a soup)) files /\
     NoDup contents /\
     (forall c, c ∈ contents <->
                exists a, a ∈ find_all_a soup /\ ~ file_href (href a) /\
                          content_href (href a) /\ urljoin E page (href a) = Some c)).
Proof.
  intros Hset. split; [apply found_FILE_RE|]. split.
  { unfold extract_links. rewrite <- classify_none.
    by destruct (classify E page (find_all_a soup)) as [[files contents]|]. }
  intros files contents. unfold extract_links.
  destruct (classify E page (find_all_a soup)) as [[files' contents']|] eqn:Hc; [|done].
  intros [= <- <-]. apply classify_some in Hc as [Hfiles Hcontents].
  split; [|split].
  - eapply Forall2_impl; [exact Hfiles|]. intros a f (full & Hj & ->).
    exists full. split; [done|]. unfold link_of, file_name. by rewrite sanitize_eq.
  - apply Hset.
  - intros c. destruct (Hset contents') as [_ Hmem]. rewrite Hmem.
    rewrite (Forall2_elem_of_r _ _ _ c (fun _ _ _ H1 H2 => Some_inj _ _ (eq_trans (eq_sym H1) H2))
               Hcontents). split.
    + intros (a & Ha & Hj). apply list_elem_of_In, filter_In in Ha as [Ha Hc].
      apply is_content_spec in Hc as [? ?]. exists a. split; [by apply list_elem_of_In|done].
    + intros (a & Ha & Hnf & Hc & Hj). exists a. split; [|done].
      apply list_elem_of_In, filter_In. split; [by apply list_elem_of_In|].
      by apply is_content_spec.
Qed.

End Classifier.

Lemma fx_set_order_ok site fs : set_order_ok (fx_env site fs).
Proof.
  intros l. cbn. split.
  - rewrite reverse_Permutation. apply NoDup_remove_dups.
  - intros x. by rewrite elem_of_reverse, elem_of_remove_dups, elem_of_reverse.
Qed.

Lemma extract_links_partition_witness :
  let E := fx_env [] (fun _ => true) in
  extract_links E doc_classify list_url =
    Some ([(lit "http://x/a.csv", lit "Report_ 2020_21");
           (lit "http://x/files/c.XLSX", lit "c.XLSX")],
          [lit "http://x/common_detail_b.shtml"]) /\
  NoDup [lit "http://x/common_detail_b.shtml"].
Proof.
  intros E.
  assert (extract_links E doc_classify list_url =
            Some ([(lit "http://x/a.csv", lit "Report_ 2020_21");
                   (lit "http://x/files/c.XLSX", lit "c.XLSX")],
                  [lit "http://x/common_detail_b.shtml"])) as Hex by reflexivity.
  destruct (extract_links_partition E doc_classify list_url (fx_set_order_ok _ _))
    as (_ & _ & Hsome).
  destruct (Hsome _ _ Hex) as (_ & Hnodup & _).
  split; [exact Hex|exact Hnodup].
Defined.

(** C4 fails as stated.  The target of the first anchor has the path
    [/a.csv], which ends in [.csv], and the anchor is in neither output,
    because its href goes on with a query.  The href of the second anchor
    ends in a newline, not in an extension, and the anchor is a file link. *)
Lemma extract_links_tests_whole_href :
  let E := fx_env [] (fun _ => true) in
  (urljoin E list_url (lit "a.csv?v=2") = Some (lit "http://x/a.csv?v=2") /\
   endswith (lit ".csv") (url_path E (lit "http://x/a.csv?v=2")) = true /\
   extract_links E doc_query list_url = Some ([], [])) /\
  (existsb (fun ext => endswith ext (lower (lit "b.xls" ++ lit (String "010" EmptyString))))
           [lit ".csv"; lit ".xls"; lit ".xlsx"] = false /\
   (fun links => links.1.*2) <$> extract_links E doc_newline list_url = Some [lit "B"]).
Proof. repeat split. Qed.


End Classifier.

(* ===================================================================== *)
(** ** The pagination oracle *)
(* ===================================================================== *)

Module Oracle.
Import Py Re Bs4 Crawler Fixture StrFacts MFacts ReFacts.

Lemma any_in_spec vocabulary t :
  any_in vocabulary t = true <->
  exists v pre post, v ∈ vocabulary /\ t = pre ++ v ++ post.
Proof.
  unfold any_in. rewrite existsb_elem_of. split.
  - intros (v & Hv & Hc). apply contains_spec in Hc as (pre & post & ->). eauto 6.
  - intros (v & pre & post & Hv & ->). exists v. split; [done|]. apply contains_spec. eauto.
Qed.

Lemma truthy_Some h : truthy (Some h) = true <-> h ≠ [].
Proof. destruct h; simpl; split; congruence. Qed.

Lemma existsb_false_elem_of {A} (f : A -> bool) (l : list A) :
  existsb f l = false <-> forall x, x ∈ l -> f x = false.
Proof.
  split.
  - intros H x Hx. destruct (f x) eqn:Hf; [|done].
    assert (existsb f l = true) by (apply existsb_elem_of; eauto). congruence.
  - intros H. destruct (existsb f l) eqn:He; [|done].
    apply existsb_elem_of in He as (x & Hx & Hf). rewrite (H x Hx) in Hf. done.
Qed.

(* --------------------------------------------------------------------- *)
(** *** The existence probe *)

Lemma url_exists_eq (E : Env) url st :
  url_exists E url st =
  match request E (clock st) HEAD url with
  | Some r => (Ok (status_code r =? 200)%nat, after st 1 [Request HEAD url false 10])
  | None =>
      (Ok match request E (S (clock st)) GET url with
          | Some r => (status_code r =? 200)%nat
          | None => false
          end,
       after st 2 [Request HEAD url false 10; Request GET url true 10])
  end.
Proof.
  unfold url_exists, try_except at 1, mbind at 1, M_bind, bind.
  rewrite send_eq.
  destruct (request E (clock st) HEAD url) as [r|].
  - reflexivity.
  - unfold try_except, mbind, M_bind, bind. rewrite send_eq. cbn.
    destruct (request E (S (clock st)) GET url) as [r|]; cbn; unfold after; cbn;
      rewrite <- app_assoc; reflexivity.
Qed.

Lemma url_exists_total (E : Env) url st : exists ok st', url_exists E url st = (Ok ok, st').
Proof. rewrite url_exists_eq. destruct (request E (clock st) HEAD url); eauto. Qed.

(** The existence probe, case by case.  It never raises; it sends one HEAD
    request; when that request comes back with a response, of whatever
    status, the answer is whether the status is 200 and no GET is sent; only
    when the HEAD request itself raises is a streamed GET sent, and the
    answer is whether that one comes back with status 200 (false when it
    raises too). *)
Theorem url_exists_head_then_get (E : Env) url st :
  (exists ok st', url_exists E url st = (Ok ok, st')) /\
  (forall r, request E (clock st) HEAD url = Some r ->
     url_exists E url st =
       (Ok (status_code r =? 200)%nat, after st 1 [Request HEAD url false 10])) /\
  (request E (clock st) HEAD url = None ->
     (forall r, request E (S (clock st)) GET url = Some r ->
        url_exists E url st =
          (Ok (status_code r =? 200)%nat,
           after st 2 [Request HEAD url false 10; Request GET url true 10])) /\
     (request E (S (clock st)) GET url = None ->
        url_exists E url st =
          (Ok false, after st 2 [Request HEAD url false 10; Request GET url true 10]))).
Proof.
  split; [apply url_exists_total|].
  rewrite url_exists_eq. split.
  - intros r ->. reflexivity.
  - intros ->. split.
    + intros r ->. reflexivity.
    + intros ->. reflexivity.
Qed.

Lemma url_exists_head_then_get_witness :
  let E := fx_env site_head_rejected (fun _ => true) in
  url_exists E probe_url (init ∅) =
    (Ok false, after (init ∅) 1 [Request HEAD probe_url false 10]).
Proof.
  intros E.
  destruct (url_exists_head_then_get E probe_url (init ∅)) as (_ & Hhead & _).
  exact (Hhead (mkResponse 405 [] [] true) eq_refl).
Defined.

(** C9.  The source announces the fallback with the words "Sometimes HEAD is
    not allowed, try GET with stream", but places it in the [except] clause
    of the HEAD request, and a rejected method is an ordinary response of
    status 405, not an exception.  Here a server rejects HEAD with status 405
    and would serve the same URL to a GET with status 200: the probe answers
    false, and the only request it sends is the HEAD. *)
Lemma url_exists_no_fallback_on_405 :
  let E := fx_env site_head_rejected (fun _ => true) in
  (status_code <$> request E 0 HEAD probe_url) = Some 405 /\
  (status_code <$> request E 1 GET probe_url) = Some 200 /\
  url_exists E probe_url (init ∅) =
    (Ok false, mkState ∅ ∅ 1 [Request HEAD probe_url false 10]).
Proof. repeat split. Qed.

(* --------------------------------------------------------------------- *)
(** *** The button tests *)

Lemma points_here_spec (E : Env) url full :
  points_here E url full = true <-> url_path E full = url_path E url.
Proof.
  unfold points_here, _urls_match. rewrite orb_true_iff, !bool_decide_eq_true.
  split; [intros [->|H]; done|auto].
Qed.

(** The scan for a last-page anchor that points at the page: what each of
    its three outcomes means. *)
Lemma last_link_here_true (E : Env) url l :
  last_link_here E url l = Some true ->
  exists a, a ∈ l /\ any_in last_page_texts (text a) = true /\ href a ≠ [] /\
            exists full, urljoin E url (href a) = Some full /\
                         url_path E full = url_path E url.
Proof.
  induction l as [|a l IH]; cbn [last_link_here]; [done|].
  destruct (any_in last_page_texts (text a) && truthy (Some (href a))) eqn:Ht.
  - apply andb_true_iff in Ht as [Ht Hh]. apply truthy_Some in Hh.
    destruct (urljoin E url (href a)) as [full|] eqn:Hj; [|done].
    destruct (points_here E url full) eqn:Hp.
    + intros _. exists a. split; [by left|]. split; [done|]. split; [done|].
      exists full. split; [done|]. by apply points_here_spec.
    + intros (b & Hb & Hrest)%IH. exists b. split; [by right|done].
  - intros (b & Hb & Hrest)%IH. exists b. split; [by right|done].
Qed.

Lemma last_link_here_false (E : Env) url l :
  last_link_here E url l = Some false ->
  forall a, a ∈ l -> any_in last_page_texts (text a) = true -> href a ≠ [] ->
            exists full, urljoin E url (href a) = Some full /\
                         url_path E full ≠ url_path E url.
Proof.
  induction l as [|a l IH]; cbn [last_link_here].
  { intros _ a Ha. by apply elem_of_nil in Ha. }
  destruct (any_in last_page_texts (text a) && truthy (Some (href a))) eqn:Ht.
  - apply andb_true_iff in Ht as [Ht Hh].
    destruct (urljoin E url (href a)) as [full|] eqn:Hj; [|done].
    destruct (points_here E url full) eqn:Hp; [done|].
    intros Hl b [->|Hb]%elem_of_cons; [|by apply IH].
    intros _ _. exists full. split; [done|]. intros Heq.
    apply points_here_spec in Heq. congruence.
  - intros Hl b [->|Hb]%elem_of_cons; [|by apply IH].
    intros Hlast Hne. apply truthy_Some in Hne. by rewrite Hlast, Hne in Ht.
Qed.

Lemma last_link_here_none (E : Env) url l :
  last_link_here E url l = None ->
  exists a, a ∈ l /\ any_in last_page_texts (text a) = true /\ href a ≠ [] /\
            urljoin E url (href a) = None.
Proof.
  induction l as [|a l IH]; cbn [last_link_here]; [done|].
  destruct (any_in last_page_texts (text a) && truthy (Some (href a))) eqn:Ht.
  - apply andb_true_iff in Ht as [Ht Hh]. apply truthy_Some in Hh.
    destruct (urljoin E url (href a)) as [full|] eqn:Hj.
    + destruct (points_here E url full); [done|].
      intros (b & Hb & Hrest)%IH. exists b. split; [by right|done].
    + intros _. exists a. split; [by left|done].
  - intros (b & Hb & Hrest)%IH. exists b. split; [by right|done].
Qed.

Lemma find_next_button_spec (E : Env) soup url :
  (exists a, a ∈ find_all_a soup /\ enabled_next a = true /\ href a ≠ [] /\
             find_next_button E soup url = Some <$> urljoin E url (href a)) \/
  ((forall a, a ∈ find_all_a soup -> enabled_next a = true -> href a = []) /\
   find_next_button E soup url = Some None).
Proof.
  unfold find_next_button.
  destruct (List.find _ (find_all_a soup)) as [a|] eqn:Hf.
  - apply find_some in Hf as [Hin Hp]. apply andb_true_iff in Hp as [Hn Hh].
    left. exists a. repeat split; auto. by apply list_elem_of_In. by apply truthy_Some.
  - right. split; [|done]. intros a Ha Hn. eapply find_none in Hf; [|by apply list_elem_of_In].
    rewrite Hn in Hf. simpl in Hf. destruct (href a); [done|discriminate].
Qed.

(** C6, as amended.  A document with an anchor whose text contains a
    next-page word and which the code does not take for disabled - no class
    token contains the word disabled, in any letter case, and neither does
    the onclick attribute - is detected as Button mode, whatever the current
    URL is (a URL of a recognised pagination shape included) and without any
    request. *)
Theorem detect_button_priority (E : Env) soup url st a :
  a ∈ find_all_a soup ->
  any_in next_texts (text a) = true ->
  disabled_class a = false ->
  disabled_onclick a = false ->
  detect_pagination_mode E soup url st = (Ok (Some Button), st).
Proof.
  intros Ha Ht Hc Ho. unfold detect_pagination_mode.
  assert (existsb enabled_next (find_all_a soup) = true) as ->; [|done].
  apply existsb_elem_of. exists a. split; [done|].
  unfold enabled_next. by rewrite Ht, Hc, Ho.
Qed.

Lemma detect_button_priority_witness :
  _has_url_pagination_pattern probe_url = true /\
  forall st, detect_pagination_mode (fx_env [] (fun _ => true)) doc_next probe_url st
             = (Ok (Some Button), st).
Proof.
  split; [reflexivity|]. intros st.
  apply (detect_button_priority _ doc_next _ st next_anchor).
  - vm_compute. apply list_elem_of_In. right. left. reflexivity.
  - reflexivity.
  - reflexivity.
  - reflexivity.
Defined.

(** C6 fails as stated: the only class token of the next-page anchor is
    [btn-disabled], which is not the token [disabled], and the anchor has no
    onclick attribute.  The code looks for the word inside every token,
    takes the anchor for disabled and, the URL showing no pagination either,
    detects no mode at all. *)
Lemma detect_reads_disabled_inside_token :
  let E := fx_env [] (fun _ => true) in
  token_anchor ∈ find_all_a doc_token /\
  any_in next_texts (text token_anchor) = true /\
  Notions.spec_flagged_disabled token_anchor = false /\
  detect_pagination_mode E doc_token list_url (init ∅) = (Ok None, init ∅) /\
  detect_pagination_mode E doc_token list_url (init ∅) <> (Ok (Some Button), init ∅).
Proof.
  split; [vm_compute; apply list_elem_of_In; left; reflexivity|].
  split; [reflexivity|]. split; [reflexivity|].
  assert (detect_pagination_mode (fx_env [] (fun _ => true)) doc_token list_url (init ∅)
          = (Ok None, init ∅)) as H by reflexivity.
  split; [exact H|]. rewrite H. discriminate.
Qed.

(** C10.  The vocabulary tests are tests of containment.  An anchor whose
    text contains a next-page word anywhere and which is not flagged disabled
    makes [detect_pagination_mode] answer Button, keeps [is_last_page] from
    calling the page terminal (unless a last-page anchor points at the page
    itself) and, when its href is not empty, makes [find_next_button] return
    the target of an enabled next-page anchor.  An anchor whose text contains
    a last-page word anywhere and whose non-empty href resolves to the path of
    the current page makes [is_last_page] call the page terminal. *)
Theorem vocabulary_by_containment (E : Env) soup url st a v pre post :
  a ∈ find_all_a soup ->
  text a = pre ++ v ++ post ->
  (v ∈ next_texts -> disabled_class a = false -> disabled_onclick a = false ->
     detect_pagination_mode E soup url st = (Ok (Some Button), st) /\
     (last_link_here E url (find_all_a soup) = Some false ->
      is_last_page E soup url (Some Button) st = (Ok false, st)) /\
     (href a ≠ [] ->
      exists a', a' ∈ find_all_a soup /\ enabled_next a' = true /\
                 find_next_button E soup url = Some <$> urljoin E url (href a'))) /\
  (v ∈ last_page_texts -> href a ≠ [] ->
     (forall a', a' ∈ find_all_a soup -> any_in last_page_texts (text a') = true ->
                 href a' ≠ [] -> is_Some (urljoin E url (href a'))) ->
     forall full, urljoin E url (href a) = Some full ->
                  url_path E full = url_path E url ->
     is_last_page E soup url (Some Button) st = (Ok true, st)).
Proof.
  intros Ha Ht. split.
  - intros Hv Hc Ho.
    assert (any_in next_texts (text a) = true) as Hany
      by (apply any_in_spec; eauto 6).
    assert (enabled_next a = true) as Hen
      by (unfold enabled_next; by rewrite Hany, Hc, Ho).
    assert (existsb enabled_next (find_all_a soup) = true) as Hex
      by (apply existsb_elem_of; eauto).
    repeat split.
    + unfold detect_pagination_mode. by rewrite Hex.
    + intros Hl. unfold is_last_page. unfold mbind, M_bind, bind.
      by rewrite Hl, returned_Some, Hex.
    + intros Hh. destruct (find_next_button_spec E soup url)
        as [(a' & ? & ? & ? & ?)|[Hnone _]]; [eauto|].
      by specialize (Hnone a Ha Hen).
  - intros Hv Hh Hjoin full Hj Hp. unfold is_last_page. unfold mbind, M_bind, bind.
    assert (any_in last_page_texts (text a) = true) as Hany
      by (apply any_in_spec; eauto 6).
    destruct (last_link_here E url (find_all_a soup)) as [[]|] eqn:Hl.
    + by rewrite returned_Some.
    + destruct (last_link_here_false E url _ Hl a Ha Hany Hh) as (full' & Hj' & Hne).
      congruence.
    + apply last_link_here_none in Hl as (b & Hb & Hlast & Hne & Hnone).
      destruct (Hjoin b Hb Hlast Hne) as [x Hx]. congruence.
Qed.

Lemma vocabulary_by_containment_witness :
  let E := fx_env [] (fun _ => true) in
  (phrase_anchor ∈ find_all_a doc_phrase /\
   text phrase_anchor = lit "go to the " ++ lit "next" ++ lit " page" /\
   detect_pagination_mode E doc_phrase list_url (init ∅) = (Ok (Some Button), init ∅) /\
   is_last_page E doc_phrase list_url (Some Button) (init ∅) = (Ok false, init ∅) /\
   find_next_button E doc_phrase list_url = Some (Some (lit "http://x/list_2.html"))) /\
  (last_here_anchor ∈ find_all_a doc_last_here /\
   text last_here_anchor = lit "to the " ++ lit "Last" ++ lit " one" /\
   is_last_page E doc_last_here list_url (Some Button) (init ∅) = (Ok true, init ∅)).
Proof.
  intros E. split.
  - assert (phrase_anchor ∈ find_all_a doc_phrase) as Hin
      by (vm_compute; apply list_elem_of_In; left; reflexivity).
    assert (text phrase_anchor = lit "go to the " ++ lit "next" ++ lit " page") as Ht
      by reflexivity.
    destruct (vocabulary_by_containment E doc_phrase list_url (init ∅)
                phrase_anchor (lit "next") (lit "go to the ") (lit " page") Hin Ht)
      as [Hnext _].
    assert (lit "next" ∈ next_texts) as Hv
      by (vm_compute; apply list_elem_of_In; right; right; left; reflexivity).
    destruct (Hnext Hv eq_refl eq_refl) as (Hd & Hl & Hf).
    split; [exact Hin|]. split; [exact Ht|]. split; [exact Hd|].
    split; [exact (Hl eq_refl)|reflexivity].
  - assert (last_here_anchor ∈ find_all_a doc_last_here) as Hin
      by (vm_compute; apply list_elem_of_In; left; reflexivity).
    assert (text last_here_anchor = lit "to the " ++ lit "Last" ++ lit " one") as Ht
      by reflexivity.
    destruct (vocabulary_by_containment E doc_last_here list_url (init ∅)
                last_here_anchor (lit "Last") (lit "to the ") (lit " one") Hin Ht)
      as [_ Hlast].
    assert (lit "Last" ∈ last_page_texts) as Hv
      by (vm_compute; apply list_elem_of_In; right; right; right; left; reflexivity).
    split; [exact Hin|]. split; [exact Ht|].
    apply (Hlast Hv) with (full := lit "http://x/list.html?p=9");
      [discriminate| |reflexivity|reflexivity].
    intros a' Ha' _ _. apply list_elem_of_In in Ha'. vm_compute in Ha'.
    destruct Ha' as [<-|[]]. by eexists.
Defined.

(* --------------------------------------------------------------------- *)
(** *** Successor synthesis *)

Ltac each_ascii c := destruct c as [[] [] [] [] [] [] [] []].

(** A check made on all 256 characters holds of every character. *)
Lemma ascii_forallb (P : ascii -> bool) :
  forallb P (map ascii_of_nat (seq 0 256)) = true -> forall c, P c = true.
Proof.
  intros H c. rewrite forallb_forall in H. apply H.
  rewrite <- (ascii_nat_embedding c). apply in_map, in_seq.
  pose proof (nat_ascii_bounded c). lia.
Qed.

Lemma sep_not_letter x y :
  sep_class x = true -> lower_char y = lower_char x -> y = x.
Proof.
  intros Hx Hy.
  assert (implb (sep_class x && ascii_eqb (lower_char y) (lower_char x)) (ascii_eqb y x)
          = true) as H.
  { assert (forall x, forallb (fun y => implb (sep_class x &&
                        ascii_eqb (lower_char y) (lower_char x)) (ascii_eqb y x))
                        (map ascii_of_nat (seq 0 256)) = true) as Hall.
    { apply (ascii_forallb (fun x => forallb _ _)). vm_compute. reflexivity. }
    apply (ascii_forallb _ (Hall x)). }
  rewrite Hx, Hy, ascii_eqb_refl in H. cbn in H. by apply ascii_eqb_true.
Qed.

Lemma sep_not_a x : sep_class x = true -> char_eq true "a" x = false.
Proof. each_ascii x; (discriminate || reflexivity). Qed.

Lemma digit_not_a x : is_digit x = true -> char_eq true "a" x = false.
Proof. each_ascii x; (discriminate || reflexivity). Qed.

Lemma digit_not_sep x : is_digit x = true -> sep_class x = false.
Proof. each_ascii x; (discriminate || reflexivity). Qed.

Lemma lower_seps b seps :
  forallb sep_class seps = true -> lower b = lower seps -> b = seps.
Proof.
  revert b. induction seps as [|x seps IH]; intros [|y b]; cbn; try done.
  intros Hs [= Hc Hl]. apply andb_true_iff in Hs as [Hx Hs].
  f_equal; [by apply sep_not_letter|by apply IH].
Qed.

Section Eval.
Context {R : Type}.

Lemma rmatch_Cat ic r1 r2 s g (k : str -> groups -> option R) :
  rmatch ic (Cat r1 r2) s g k = rmatch ic r1 s g (fun s1 g1 => rmatch ic r2 s1 g1 k).
Proof. reflexivity. Qed.

Lemma rmatch_Group ic i r s g (k : str -> groups -> option R) :
  rmatch ic (Group i r) s g k =
  rmatch ic r s g (fun rest g' => k rest ((i, consumed s rest) :: g')).
Proof. reflexivity. Qed.

Lemma rmatch_Alt ic r1 r2 s g (k : str -> groups -> option R) :
  rmatch ic (Alt r1 r2) s g k =
  match rmatch ic r1 s g k with Some x => Some x | None => rmatch ic r2 s g k end.
Proof. reflexivity. Qed.

Lemma rmatch_Chars ic l m rest g (k : str -> groups -> option R) :
  lang ic (Chars l) m rest -> rmatch ic (Chars l) (m ++ rest) g k = k rest g.
Proof.
  intros Hl. cbn [rmatch].
  assert (strip_prefix ic l (m ++ rest) = Some rest) as ->; [|done].
  apply strip_prefix_lang. eauto.
Qed.

Lemma rmatch_Star ic p m rest g (k : str -> groups -> option R) x :
  forallb p m = true -> starts_with_class p rest = false -> k rest g = Some x ->
  rmatch ic (Star p) (m ++ rest) g k = Some x.
Proof. intros. cbn [rmatch]. by apply star_k_greedy. Qed.

Lemma rmatch_Plus ic p m rest g (k : str -> groups -> option R) x :
  m ≠ [] -> forallb p m = true -> starts_with_class p rest = false -> k rest g = Some x ->
  rmatch ic (Plus p) (m ++ rest) g k = Some x.
Proof.
  intros Hne Hm Hr Hk. destruct m as [|c m]; [done|]. cbn [rmatch app].
  cbn in Hm. apply andb_true_iff in Hm as [-> Hm]. by apply star_k_greedy.
Qed.
End Eval.

Lemma starts_digit_sep s :
  starts_with_class is_digit s = true -> starts_with_class sep_class s = false.
Proof. destruct s; cbn; [done|]. apply digit_not_sep. Qed.

Lemma digits_start ds post : digits ds -> starts_with_class is_digit (ds ++ post) = true.
Proof. intros [Hne Hd]. destruct ds; [done|]. cbn in *. by apply andb_true_iff in Hd as [-> _]. Qed.

Lemma consumed_app3 a b c : consumed (a ++ b ++ c) c = a ++ b.
Proof. by rewrite app_assoc, consumed_app. Qed.

(** The match of [common_list_(\d+)\.shtml] at the start of a text. *)
Lemma match_COMMON_LIST_N ds post :
  digits ds ->
  match_here false COMMON_LIST_N_RE (lit "common_list_" ++ ds ++ lit ".shtml" ++ post)
  = Some (post, [(1, ds)]).
Proof.
  intros [Hne Hd]. unfold match_here, COMMON_LIST_N_RE.
  rewrite rmatch_Cat, rmatch_Chars by reflexivity.
  rewrite rmatch_Cat, rmatch_Group.
  erewrite rmatch_Plus; [reflexivity|done|done|reflexivity|].
  rewrite rmatch_Chars by reflexivity. by rewrite consumed_app.
Qed.

Lemma lang_Chars_self ic l rest : lang ic (Chars l) l rest.
Proof. by destruct ic. Qed.

(** The match of the page pattern at the start of a text: the word in any
    case, all the separators, all the digits. *)
Lemma match_PAGE w seps ds post :
  lower w = lit "page" \/ lower w = lit "p" ->
  forallb sep_class seps = true ->
  digits ds ->
  starts_with_class is_digit post = false ->
  match_here true PAGE_RE (w ++ seps ++ ds ++ post) = Some (post, [(2, ds); (1, w ++ seps)]).
Proof.
  intros Hw Hseps Hds Hpost. pose proof Hds as [Hne Hd].
  unfold match_here, PAGE_RE.
  rewrite rmatch_Cat, rmatch_Group, rmatch_Alt.
  assert (forall word,
            lower w = lower (lit word) ->
            rmatch true (Cat (Chars (lit word)) (Star sep_class)) (w ++ seps ++ ds ++ post) []
              (fun rest g' =>
                 rmatch true (Group 2 (Plus is_digit)) rest
                   ((1, consumed (w ++ seps ++ ds ++ post) rest) :: g')
                   (fun rest0 g0 => Some (rest0, g0)))
            = Some (post, [(2, ds); (1, w ++ seps)])) as Hbranch.
  { intros word Hword. rewrite rmatch_Cat, rmatch_Chars by exact Hword.
    erewrite rmatch_Star; [reflexivity|done| |].
    - apply starts_digit_sep. by apply digits_start.
    - rewrite rmatch_Group. erewrite rmatch_Plus; [reflexivity|done|done|done|].
      cbn beta. by rewrite consumed_app, consumed_app3. }
  destruct Hw as [Hw|Hw].
  - by rewrite (Hbranch "page" Hw).
  - assert (rmatch true (Cat (Chars (lit "page")) (Star sep_class)) (w ++ seps ++ ds ++ post) []
              (fun rest g' =>
                 rmatch true (Group 2 (Plus is_digit)) rest
                   ((1, consumed (w ++ seps ++ ds ++ post) rest) :: g')
                   (fun rest0 g0 => Some (rest0, g0))) = None) as ->.
    { rewrite rmatch_Cat. cbn [rmatch].
      destruct w as [|c [|c' w]]; try discriminate Hw.
      assert (exists x rest, seps ++ ds ++ post = x :: rest /\
                char_eq true "a" x = false) as (x & rest & -> & Hx).
      { destruct seps as [|x seps].
        - destruct ds as [|x ds]; [done|]. cbn in Hd.
          apply andb_true_iff in Hd as [Hx _]. exists x, (ds ++ post).
          split; [done|]. by apply digit_not_a.
        - cbn in Hseps. apply andb_true_iff in Hseps as [Hx _].
          exists x, (seps ++ ds ++ post). split; [done|]. by apply sep_not_a. }
      cbn [app strip_prefix lit list_ascii_of_string]. rewrite Hx.
      by destruct (char_eq true "p" c). }
    by rewrite (Hbranch "p" Hw).
Qed.

(** The match of the index pattern at the start of a text. *)
Lemma match_INDEX w seps ds post :
  lower w = lit "index" ->
  forallb sep_class seps = true ->
  digits ds ->
  starts_with_class is_digit post = false ->
  match_here true (numbered_re "index") (w ++ seps ++ ds ++ post) = Some (post, [(1, ds)]).
Proof.
  intros Hw Hseps Hds Hpost. pose proof Hds as [Hne Hd].
  unfold match_here, numbered_re.
  rewrite rmatch_Cat, rmatch_Chars by exact Hw.
  rewrite rmatch_Cat. erewrite rmatch_Star; [reflexivity|done| |].
  - apply starts_digit_sep. by apply digits_start.
  - rewrite rmatch_Group. erewrite rmatch_Plus; [reflexivity|done|done|done|].
    cbn beta. by rewrite consumed_app.
Qed.

Lemma match_INDEX_SUB w seps ds post :
  lower w = lit "index" ->
  forallb sep_class seps = true ->
  digits ds ->
  starts_with_class is_digit post = false ->
  match_here true INDEX_SUB_RE (w ++ seps ++ ds ++ post) = Some (post, []).
Proof.
  intros Hw Hseps Hds Hpost. pose proof Hds as [Hne Hd].
  unfold match_here, INDEX_SUB_RE.
  rewrite rmatch_Cat, rmatch_Chars by exact Hw.
  rewrite rmatch_Cat. erewrite rmatch_Star; [reflexivity|done| |].
  - apply starts_digit_sep. by apply digits_start.
  - erewrite rmatch_Plus; [reflexivity|done|done|done|]. done.
Qed.

(** The match of an escaped prefix followed by [\d+] on the prefix itself. *)
Lemma match_prefix_digits prefix ds post :
  digits ds ->
  starts_with_class is_digit post = false ->
  match_here true (Cat (escape prefix) (Plus is_digit)) (prefix ++ ds ++ post)
  = Some (post, []).
Proof.
  intros [Hne Hd] Hpost. unfold match_here, escape.
  rewrite rmatch_Cat, rmatch_Chars by reflexivity.
  erewrite rmatch_Plus; [reflexivity|done|done|done|]. done.
Qed.

(** A pattern whose language lies in that of another matches nowhere the
    other does not. *)
Lemma no_match_before_mono ic r r' s n :
  (forall m rest, lang ic r' m rest -> lang ic r m rest) ->
  no_match_before ic r s n = true -> no_match_before ic r' s n = true.
Proof.
  intros Hsub. rewrite !no_match_before_spec. intros H i Hi.
  destruct (match_here ic r' (drop i s)) as [x|] eqn:Hm; [|done].
  assert (is_Some (match_here ic r (drop i s))) as [y Hy].
  { apply match_here_lang.
    destruct (proj1 (match_here_lang ic r' (drop i s)) (mk_is_Some _ _ Hm))
      as (m & rest & Heq & Hl). eauto. }
  rewrite H in Hy by done. discriminate.
Qed.

Lemma found_false_no_match ic r s :
  found ic r s = false -> search ic r s = None.
Proof. unfold found. by destruct (search ic r s). Qed.

Lemma lang_literal_COMMON_LIST_N ds m rest :
  digits ds ->
  lang false (Chars (lit "common_list_" ++ ds ++ lit ".shtml")) m rest ->
  lang false COMMON_LIST_N_RE m rest.
Proof.
  intros [Hne Hd]. cbn [lang]. intros ->. unfold COMMON_LIST_N_RE. cbn [lang].
  exists (lit "common_list_"), (ds ++ lit ".shtml"). split; [done|]. split; [done|].
  exists ds, (lit ".shtml"). auto.
Qed.

Lemma lang_prefix_PAGE w seps m rest :
  lower w = lit "page" \/ lower w = lit "p" ->
  forallb sep_class seps = true ->
  lang true (Cat (escape (w ++ seps)) (Plus is_digit)) m rest ->
  lang true PAGE_RE m rest.
Proof.
  intros Hw Hseps. unfold escape, PAGE_RE. cbn [lang].
  intros (m1 & m2 & -> & Hm1 & Hm2). exists m1, m2. split; [done|]. split; [|done].
  assert (length m1 = length w + length seps) as Hlen.
  { apply (f_equal length) in Hm1. unfold lower in Hm1.
    by rewrite !length_map, length_app in Hm1. }
  assert (lower (take (length w) m1) = lower w /\
          lower (drop (length w) m1) = lower seps) as [H1 H2].
  { rewrite <- (take_drop (length w) m1) in Hm1 at 1.
    unfold lower in *. rewrite !map_app in Hm1.
    apply app_inj_1 in Hm1; [done|]. rewrite !length_map, length_take. lia. }
  apply lower_seps in H2; [|done].
  rewrite <- (take_drop (length w) m1).
  destruct Hw as [Hw|Hw]; [left|right];
    exists (take (length w) m1), (drop (length w) m1);
    (split; [done|]); (split; [by rewrite H1|by rewrite H2]).
Qed.

Lemma lang_INDEX_SUB m rest :
  lang true INDEX_SUB_RE m rest -> lang true (numbered_re "index") m rest.
Proof.
  unfold INDEX_SUB_RE, numbered_re. cbn [lang].
  intros (m1 & m2 & -> & H1 & m3 & m4 & -> & H3 & H4). eauto 10.
Qed.

Lemma startswith_match old s :
  match_here false (Chars old) s = None -> startswith old s = false.
Proof.
  unfold match_here, startswith. cbn [rmatch].
  by destruct (strip_prefix false old s).
Qed.

Lemma no_literal_before old s n :
  no_match_before false (Chars old) s n = true ->
  forall i, i < n -> startswith old (drop i s) = false.
Proof.
  rewrite no_match_before_spec. intros H i Hi. apply startswith_match. by apply H.
Qed.

Lemma consumed_app4 a b c d : consumed (a ++ b ++ c ++ d) d = a ++ b ++ c.
Proof. by rewrite !app_assoc, consumed_app. Qed.

(** What each rule makes of the URL, up to and including its first match:
    the text after the match goes through the same replacement. *)
Lemma generate_next_url_first_match :
  (forall pre,
     let url := pre ++ lit "common_list.shtml" in
     generate_next_url url
       = Some (replace (lit "common_list.shtml") (lit "common_list_2.shtml") url) /\
     (no_match_before false (Chars (lit "common_list.shtml")) url (length pre) = true ->
      generate_next_url url = Some (pre ++ lit "common_list_2.shtml"))) /\
  (forall pre ds post,
     let url := pre ++ lit "common_list_" ++ ds ++ lit ".shtml" ++ post in
     endswith (lit "common_list.shtml") url = false ->
     digits ds ->
     no_match_before false COMMON_LIST_N_RE url (length pre) = true ->
     generate_next_url url
       = Some (pre ++ lit "common_list_" ++ succ_digits ds ++ lit ".shtml"
                 ++ replace (lit "common_list_" ++ ds ++ lit ".shtml")
                            (lit "common_list_" ++ succ_digits ds ++ lit ".shtml") post)) /\
  (forall pre w seps ds post,
     let url := pre ++ w ++ seps ++ ds ++ post in
     endswith (lit "common_list.shtml") url = false ->
     found false COMMON_LIST_N_RE url = false ->
     lower w = lit "page" \/ lower w = lit "p" ->
     forallb sep_class seps = true ->
     digits ds ->
     starts_with_class is_digit post = false ->
     no_match_before true PAGE_RE url (length pre) = true ->
     generate_next_url url
       = Some (pre ++ (w ++ seps) ++ succ_digits ds
                 ++ sub true (Cat (escape (w ++ seps)) (Plus is_digit))
                        ((w ++ seps) ++ succ_digits ds) post)) /\
  (forall pre w seps ds post,
     let url := pre ++ w ++ seps ++ ds ++ post in
     endswith (lit "common_list.shtml") url = false ->
     found false COMMON_LIST_N_RE url = false ->
     found true PAGE_RE url = false ->
     lower w = lit "index" ->
     forallb sep_class seps = true ->
     digits ds ->
     starts_with_class is_digit post = false ->
     no_match_before true (numbered_re "index") url (length pre) = true ->
     generate_next_url url
       = Some (pre ++ lit "index_" ++ succ_digits ds
                 ++ sub true INDEX_SUB_RE (lit "index_" ++ succ_digits ds) post)) /\
  (forall url,
     endswith (lit "common_list.shtml") url = false ->
     found false COMMON_LIST_N_RE url = false ->
     found true PAGE_RE url = false ->
     found true (numbered_re "index") url = false ->
     generate_next_url url = None).
Proof.
  repeat apply conj.
  - intros pre url.
    assert (generate_next_url url
            = Some (replace (lit "common_list.shtml") (lit "common_list_2.shtml") url)) as Hg.
    { unfold generate_next_url.
      assert (endswith (lit "common_list.shtml") url = true) as ->; [|done].
      apply endswith_spec. by exists pre. }
    split; [exact Hg|]. intros Hno. rewrite Hg. f_equal. subst url.
    rewrite <- (app_nil_r (lit "common_list.shtml")) at 2.
    rewrite replace_first.
    + by rewrite app_nil_r.
    + discriminate.
    + rewrite app_nil_r. by apply no_literal_before.
  - intros pre ds post url Hend Hds Hno. unfold generate_next_url. rewrite Hend.
    subst url. erewrite search_first; [|exact Hno|by apply match_COMMON_LIST_N].
    cbn [m_text m_groups]. rewrite consumed_app4.
    change (group [(1, ds)] 1) with ds. fold (succ_digits ds). f_equal.
    assert (pre ++ lit "common_list_" ++ ds ++ lit ".shtml" ++ post
            = pre ++ (lit "common_list_" ++ ds ++ lit ".shtml") ++ post) as Heq
      by (by rewrite <- !app_assoc).
    rewrite Heq in Hno |- *. rewrite replace_first.
    + by rewrite <- !app_assoc.
    + discriminate.
    + apply no_literal_before.
      eapply no_match_before_mono; [|exact Hno].
      intros m rest Hl. by eapply lang_literal_COMMON_LIST_N.
  - intros pre w seps ds post url Hend Hcl Hw Hseps Hds Hpost Hno.
    unfold generate_next_url. rewrite Hend, (found_false_no_match _ _ _ Hcl).
    subst url. erewrite search_first; [|exact Hno|by apply match_PAGE].
    cbn [m_groups]. change (group [(2, ds); (1, w ++ seps)] 1) with (w ++ seps).
    change (group [(2, ds); (1, w ++ seps)] 2) with ds. fold (succ_digits ds). f_equal.
    assert (pre ++ w ++ seps ++ ds ++ post = pre ++ ((w ++ seps) ++ ds) ++ post) as Heq
      by (by rewrite <- !app_assoc).
    rewrite Heq in Hno |- *. erewrite sub_first.
    + by rewrite <- !app_assoc.
    + destruct Hds as [Hne _]. destruct ds; [done|]. by destruct (w ++ seps).
    + eapply no_match_before_mono; [|exact Hno].
      intros m rest. by apply lang_prefix_PAGE.
    + rewrite <- app_assoc. by apply match_prefix_digits.
  - intros pre w seps ds post url Hend Hcl Hpage Hw Hseps Hds Hpost Hno.
    unfold generate_next_url.
    rewrite Hend, (found_false_no_match _ _ _ Hcl), (found_false_no_match _ _ _ Hpage).
    subst url. erewrite search_first; [|exact Hno|by apply match_INDEX].
    cbn [m_groups]. change (group [(1, ds)] 1) with ds. fold (succ_digits ds). f_equal.
    assert (pre ++ w ++ seps ++ ds ++ post = pre ++ (w ++ seps ++ ds) ++ post) as Heq
      by (by rewrite <- !app_assoc).
    rewrite Heq in Hno |- *. erewrite sub_first.
    + reflexivity.
    + destruct w; [discriminate|done].
    + eapply no_match_before_mono; [|exact Hno].
      intros m rest. apply lang_INDEX_SUB.
    + rewrite <- !app_assoc. by apply match_INDEX_SUB.
  - intros url Hend Hcl Hpage Hidx. unfold generate_next_url.
    by rewrite Hend, (found_false_no_match _ _ _ Hcl), (found_false_no_match _ _ _ Hpage),
         (found_false_no_match _ _ _ Hidx).
Qed.

(** C5, as amended.  [generate_next_url] applies the first rule that
    matches.  (1) A URL ending in [common_list.shtml] maps to the URL with
    [common_list_2.shtml] in place of that text.  (2) Otherwise, a URL with
    [common_list_N.shtml] maps to the URL with [common_list_{N+1}.shtml] in
    place of that text.  (3) Otherwise, a URL in which [page] or [p] (any
    case, separators optional) is followed by a number N at one place only
    maps to the same URL with N+1 in place of N.  (4) Otherwise, a URL in
    which [index] is followed by a number N at one place only maps to the URL
    with [index_{N+1}] in its place.  (5) A URL that matches no rule has no
    successor. *)
Theorem generate_next_url_rules :
  (forall pre,
     let url := pre ++ lit "common_list.shtml" in
     generate_next_url url
       = Some (replace (lit "common_list.shtml") (lit "common_list_2.shtml") url) /\
     (no_match_before false (Chars (lit "common_list.shtml")) url (length pre) = true ->
      generate_next_url url = Some (pre ++ lit "common_list_2.shtml"))) /\
  (forall pre ds post,
     let url := pre ++ lit "common_list_" ++ ds ++ lit ".shtml" ++ post in
     endswith (lit "common_list.shtml") url = false ->
     digits ds ->
     no_match_before false COMMON_LIST_N_RE url (length pre) = true ->
     generate_next_url url
       = Some (pre ++ lit "common_list_" ++ succ_digits ds ++ lit ".shtml"
                 ++ replace (lit "common_list_" ++ ds ++ lit ".shtml")
                            (lit "common_list_" ++ succ_digits ds ++ lit ".shtml") post)) /\
  (forall pre w seps ds post,
     let url := pre ++ w ++ seps ++ ds ++ post in
     endswith (lit "common_list.shtml") url = false ->
     found false COMMON_LIST_N_RE url = false ->
     lower w = lit "page" \/ lower w = lit "p" ->
     forallb sep_class seps = true ->
     digits ds ->
     starts_with_class is_digit post = false ->
     no_match_before true PAGE_RE url (length pre) = true ->
     no_match_before true (Cat (escape (w ++ seps)) (Plus is_digit)) post (length post)
       = true ->
     generate_next_url url = Some (pre ++ w ++ seps ++ succ_digits ds ++ post)) /\
  (forall pre w seps ds post,
     let url := pre ++ w ++ seps ++ ds ++ post in
     endswith (lit "common_list.shtml") url = false ->
     found false COMMON_LIST_N_RE url = false ->
     found true PAGE_RE url = false ->
     lower w = lit "index" ->
     forallb sep_class seps = true ->
     digits ds ->
     starts_with_class is_digit post = false ->
     no_match_before true (numbered_re "index") url (length pre) = true ->
     no_match_before true INDEX_SUB_RE post (length post) = true ->
     generate_next_url url = Some (pre ++ lit "index_" ++ succ_digits ds ++ post)) /\
  (forall url,
     endswith (lit "common_list.shtml") url = false ->
     found false COMMON_LIST_N_RE url = false ->
     found true PAGE_RE url = false ->
     found true (numbered_re "index") url = false ->
     generate_next_url url = None).
Proof.
  destruct generate_next_url_first_match as (H1 & H2 & H3 & H4 & H5).
  repeat apply conj.
  - exact H1.
  - exact H2.
  - intros pre w seps ds post url Hend Hcl Hw Hseps Hds Hpost Hno Hrest.
    subst url. rewrite (H3 pre w seps ds post) by done.
    by rewrite (sub_none _ _ _ _ Hrest), <- !app_assoc.
  - intros pre w seps ds post url Hend Hcl Hpage Hw Hseps Hds Hpost Hno Hrest.
    subst url. rewrite (H4 pre w seps ds post) by done.
    by rewrite (sub_none _ _ _ _ Hrest).
  - exact H5.
Qed.

Lemma generate_next_url_rules_witness :
  generate_next_url (lit "http://x/common_list.shtml")
    = Some (lit "http://x/common_list_2.shtml") /\
  generate_next_url (lit "http://x/common_list_7.shtml")
    = Some (lit "http://x/common_list_8.shtml") /\
  generate_next_url (lit "http://x/page_3/list.shtml")
    = Some (lit "http://x/page_4/list.shtml") /\
  generate_next_url (lit "http://x/index_9.html") = Some (lit "http://x/index_10.html") /\
  generate_next_url (lit "http://x/list.html") = None.
Proof.
  destruct generate_next_url_rules as (H1 & H2 & H3 & H4 & H5).
  assert (digits (lit "7") /\ digits (lit "3") /\ digits (lit "9")) as (Hd7 & Hd3 & Hd9)
    by (repeat split; vm_compute; (discriminate || reflexivity)).
  split; [|split; [|split; [|split]]].
  - pose proof (H1 (lit "http://x/")) as H. cbv zeta in H. destruct H as [_ H].
    specialize (H ltac:(vm_compute; reflexivity)).
    vm_compute in H |- *. exact H.
  - pose proof (H2 (lit "http://x/") (lit "7") []) as H. cbv zeta in H.
    specialize (H ltac:(vm_compute; reflexivity) Hd7 ltac:(vm_compute; reflexivity)).
    vm_compute in H |- *. exact H.
  - pose proof (H3 (lit "http://x/") (lit "page") (lit "_") (lit "3") (lit "/list.shtml"))
      as H. cbv zeta in H.
    specialize (H ltac:(vm_compute; reflexivity) ltac:(vm_compute; reflexivity)
                  (or_introl eq_refl) ltac:(vm_compute; reflexivity) Hd3
                  ltac:(vm_compute; reflexivity) ltac:(vm_compute; reflexivity)
                  ltac:(vm_compute; reflexivity)).
    vm_compute in H |- *. exact H.
  - pose proof (H4 (lit "http://x/") (lit "index") (lit "_") (lit "9") (lit ".html"))
      as H. cbv zeta in H.
    specialize (H ltac:(vm_compute; reflexivity) ltac:(vm_compute; reflexivity)
                  ltac:(vm_compute; reflexivity) eq_refl ltac:(vm_compute; reflexivity) Hd9
                  ltac:(vm_compute; reflexivity) ltac:(vm_compute; reflexivity)
                  ltac:(vm_compute; reflexivity)).
    vm_compute in H |- *. exact H.
  - apply H5; vm_compute; reflexivity.
Defined.

(** C5 fails as stated: the first match of the page rule is the [p1] inside
    [app1], and the later [p3] is replaced by [p2] as well. *)
Lemma generate_next_url_rewrites_later_numbers :
  generate_next_url (lit "http://x/app1/list_p3.html")
    = Some (lit "http://x/app2/list_p2.html") /\
  generate_next_url (lit "http://x/app1/list_p3.html")
    <> Some (lit "http://x/app2/list_p3.html").
Proof. split; [vm_compute; reflexivity|vm_compute; discriminate]. Qed.

(* --------------------------------------------------------------------- *)
(** *** Terminal pages *)

Lemma str_of_int_nonempty n : str_of_int n ≠ [].
Proof.
  unfold str_of_int, NilZero.string_of_uint.
  destruct (N.to_uint n); simpl; discriminate.
Qed.

Lemma replace_nonempty old new s : new ≠ [] -> s ≠ [] -> replace old new s ≠ [].
Proof.
  intros Hn Hs. destruct s as [|c s]; [done|]. unfold replace. simpl.
  destruct (startswith old (c :: s)); [|discriminate].
  destruct new; [done|discriminate].
Qed.

Lemma sub_nonempty ic r repl s : repl ≠ [] -> s ≠ [] -> sub ic r repl s ≠ [].
Proof.
  intros Hn Hs. destruct s as [|c s]; [done|]. unfold sub. simpl.
  destruct (match_here ic r (c :: s)) as [[rest g]|]; [|discriminate].
  destruct (_ - _); [discriminate|]. destruct repl; [done|discriminate].
Qed.

Lemma generate_next_url_nonempty url r : generate_next_url url = Some r -> r ≠ [].
Proof.
  unfold generate_next_url.
  destruct (endswith _ url) eqn:He.
  - intros [= <-]. apply replace_nonempty; [discriminate|].
    apply endswith_spec in He as [q ->]. destruct q; discriminate.
  - assert (url = [] \/ url ≠ []) as [->|Hne] by (destruct url; auto).
    { vm_compute. discriminate. }
    destruct (search false COMMON_LIST_N_RE url) as [m|].
    { intros [= <-]. apply replace_nonempty; [discriminate|done]. }
    destruct (search true PAGE_RE url) as [m|].
    { intros [= <-]. apply sub_nonempty; [|done].
      intros H. apply app_eq_nil in H as [_ H]. by apply str_of_int_nonempty in H. }
    destruct (search true (numbered_re "index") url) as [m|]; [|discriminate].
    intros [= <-]. apply sub_nonempty; [discriminate|done].
Qed.

(** C7, as amended.  In Button mode a page is terminal iff no enabled
    next-page anchor is present or a last-page anchor with a non-empty href
    resolves to a URL whose path is the path of the current URL; no request is
    sent.  In UrlPattern mode a page is terminal iff no successor can be
    synthesized or the probe of the successor fails.  Without a mode every
    page is terminal. *)
Theorem is_last_page_by_mode (E : Env) soup url st :
  ((forall a, a ∈ find_all_a soup -> any_in last_page_texts (text a) = true ->
              href a ≠ [] -> is_Some (urljoin E url (href a))) ->
   exists b, is_last_page E soup url (Some Button) st = (Ok b, st) /\
     (b = true <->
      (forall a, a ∈ find_all_a soup -> enabled_next a = false) \/
      (exists a, a ∈ find_all_a soup /\ any_in last_page_texts (text a) = true /\
                 href a ≠ [] /\
                 exists full, urljoin E url (href a) = Some full /\
                              url_path E full = url_path E url))) /\
  (forall b st', is_last_page E soup url (Some Button) st = (Ok b, st') ->
     st' = st /\
     (b = true <->
      (forall a, a ∈ find_all_a soup -> enabled_next a = false) \/
      (exists a, a ∈ find_all_a soup /\ any_in last_page_texts (text a) = true /\
                 href a ≠ [] /\
                 exists full, urljoin E url (href a) = Some full /\
                              url_path E full = url_path E url))) /\
  (forall e st', is_last_page E soup url (Some Button) st = (Raise e, st') ->
     e = ValueError /\ st' = st /\
     exists a, a ∈ find_all_a soup /\ any_in last_page_texts (text a) = true /\
               href a ≠ [] /\ urljoin E url (href a) = None) /\
  match generate_next_url url with
  | None => is_last_page E soup url (Some Url) st = (Ok true, st)
  | Some next =>
      exists ok st', url_exists E next st = (Ok ok, st') /\
                     is_last_page E soup url (Some Url) st = (Ok (negb ok), st')
  end /\
  is_last_page E soup url None st = (Ok true, st).
Proof.
  assert (forall b st', is_last_page E soup url (Some Button) st = (Ok b, st') ->
     st' = st /\
     (b = true <->
      (forall a, a ∈ find_all_a soup -> enabled_next a = false) \/
      (exists a, a ∈ find_all_a soup /\ any_in last_page_texts (text a) = true /\
                 href a ≠ [] /\
                 exists full, urljoin E url (href a) = Some full /\
                              url_path E full = url_path E url))) as Hret.
  { intros b st'. unfold is_last_page. unfold mbind, M_bind, bind. rewrite returned_eq.
    destruct (last_link_here E url (find_all_a soup)) as [[]|] eqn:Hl; [| |done].
    - intros [= <- <-]. split; [done|]. split; [|done]. intros _. right.
      by apply last_link_here_true.
    - intros [= <- <-]. split; [done|].
      rewrite negb_true_iff, existsb_false_elem_of. split; [auto|].
      intros [H|(a & Ha & Hlast & Hne & full & Hj & Hp)]; [done|].
      destruct (last_link_here_false E url _ Hl a Ha Hlast Hne) as (full' & Hj' & Hp').
      congruence. }
  assert (forall e st', is_last_page E soup url (Some Button) st = (Raise e, st') ->
     e = ValueError /\ st' = st /\
     exists a, a ∈ find_all_a soup /\ any_in last_page_texts (text a) = true /\
               href a ≠ [] /\ urljoin E url (href a) = None) as Hraise.
  { intros e st'. unfold is_last_page. unfold mbind, M_bind, bind. rewrite returned_eq.
    destruct (last_link_here E url (find_all_a soup)) as [[]|] eqn:Hl; [done|done|].
    intros [= <- <-]. split; [done|]. split; [done|]. by apply last_link_here_none. }
  split; [|split; [exact Hret|split; [exact Hraise|split]]].
  - intros Hjoin.
    destruct (is_last_page E soup url (Some Button) st) as [[b|e] st'] eqn:Hrun.
    + destruct (Hret b st' eq_refl) as [-> Hb]. by exists b.
    + destruct (Hraise e st' eq_refl) as (_ & _ & a & Ha & Hlast & Hne & Hnone).
      destruct (Hjoin a Ha Hlast Hne) as [x Hx]. congruence.
  - destruct (generate_next_url url) as [next|] eqn:Hg.
    + pose proof (generate_next_url_nonempty _ _ Hg) as Hne.
      destruct (url_exists_total E next st) as (ok & st' & Hu).
      exists ok, st'. split; [done|].
      unfold is_last_page. rewrite Hg. destruct next as [|c u]; [done|].
      unfold mbind, M_bind, bind. rewrite Hu. reflexivity.
    + unfold is_last_page. rewrite Hg. reflexivity.
  - reflexivity.
Qed.

Lemma is_last_page_by_mode_witness :
  let E := fx_env [] (fun _ => true) in
  exists b, is_last_page E doc_last_here list_url (Some Button) (init ∅) = (Ok b, init ∅) /\
            b = true.
Proof.
  intros E.
  destruct (is_last_page_by_mode E doc_last_here list_url (init ∅)) as (Hbutton & _).
  destruct Hbutton as (b & Hrun & Hb).
  - intros a Ha _ _. apply list_elem_of_In in Ha. vm_compute in Ha.
    destruct Ha as [<-|[]]. by eexists.
  - exists b. split; [exact Hrun|]. apply Hb. right. exists last_here_anchor.
    split; [vm_compute; apply list_elem_of_In; left; reflexivity|].
    split; [reflexivity|]. split; [discriminate|].
    exists (lit "http://x/list.html?p=9"). split; reflexivity.
Defined.

(** C7 fails as stated: next to an enabled next-page button, a last-page
    anchor with an empty href resolves to the current URL itself, and the page
    is not called terminal. *)
Lemma is_last_page_skips_empty_href :
  let E := fx_env [] (fun _ => true) in
  last_empty_anchor ∈ find_all_a doc_last_empty /\
  any_in last_page_texts (text last_empty_anchor) = true /\
  urljoin E list_url (href last_empty_anchor) = Some list_url /\
  url_path E list_url = url_path E list_url /\
  is_last_page E doc_last_empty list_url (Some Button) (init ∅) = (Ok false, init ∅).
Proof.
  repeat split. vm_compute. apply list_elem_of_In. right. left. reflexivity.
Qed.

End Oracle.

(* ===================================================================== *)
(** ** The download store *)
(* ===================================================================== *)

Module Store.
Import Py Re Bs4 Crawler Fixture StrFacts MFacts.

Lemma load_downloaded_record d : load_downloaded d = list_to_set (splitlines (record_of d)).
Proof. unfold load_downloaded, record_of. destruct (d !! record_name); reflexivity. Qed.

Lemma valid_names_spec name :
  valid_names name = true <->
  exists q ext, ext ∈ [lit "csv"; lit "xls"; lit "xlsx"] /\ name = q ++ ext.
Proof.
  unfold valid_names. rewrite existsb_elem_of. split.
  - intros (ext & Hin & He). apply endswith_spec in He as [q ->]. eauto.
  - intros (q & ext & Hin & ->). exists ext. split; [done|]. apply endswith_spec. eauto.
Qed.

Section Steps.
Variable E : Env.

Lemma fs_op_eq st :
  fs_op E st =
  (if fs_ok E (clock st) then Ok tt else Raise OSError,
   mkState (downloaded st) (disk st) (S (clock st)) (trace st)).
Proof. unfold fs_op. munfold. cbn. destruct (fs_ok E (clock st)); reflexivity. Qed.

Lemma open_wb_eq name st :
  open_wb E name st =
  if fs_ok E (clock st)
  then (Ok tt, mkState (downloaded st) (<[name := []]> (disk st)) (S (clock st)) (trace st))
  else (Raise OSError, mkState (downloaded st) (disk st) (S (clock st)) (trace st)).
Proof.
  unfold open_wb, mbind at 1, M_bind, bind. rewrite fs_op_eq.
  destruct (fs_ok E (clock st)); reflexivity.
Qed.

Lemma write_eq name c st :
  write E name c st =
  if fs_ok E (clock st)
  then (Ok tt, mkState (downloaded st) (<[name := default [] (disk st !! name) ++ c]> (disk st))
                       (S (clock st)) (trace st))
  else (Raise OSError, mkState (downloaded st) (disk st) (S (clock st)) (trace st)).
Proof.
  unfold write, mbind at 1, M_bind, bind. rewrite fs_op_eq.
  destruct (fs_ok E (clock st)); reflexivity.
Qed.

Lemma open_a_eq name st :
  open_a E name st =
  if fs_ok E (clock st)
  then (Ok tt, mkState (downloaded st) (<[name := default [] (disk st !! name)]> (disk st))
                       (S (clock st)) (trace st))
  else (Raise OSError, mkState (downloaded st) (disk st) (S (clock st)) (trace st)).
Proof.
  unfold open_a, mbind at 1, M_bind, bind. rewrite fs_op_eq.
  destruct (fs_ok E (clock st)); reflexivity.
Qed.

Lemma raise_for_status_inv r st res st' :
  raise_for_status r st = (res, st') -> st' = st.
Proof.
  unfold raise_for_status. destruct (_ && _); munfold; by intros [= _ <-].
Qed.

(** What writing the chunks of a stream does: only the target file changes,
    and when every write goes through the chunks are at its end. *)
Lemma write_chunks_inv name cs st res st' :
  for_each cs (write E name) st = (res, st') ->
  downloaded st' = downloaded st /\ trace st' = trace st /\
  (forall k, k ≠ name -> disk st' !! k = disk st !! k) /\
  (is_Some (disk st !! name) -> is_Some (disk st' !! name)) /\
  (res = Ok tt ->
   default [] (disk st' !! name) = default [] (disk st !! name) ++ concat cs).
Proof.
  revert st. induction cs as [|c cs IH]; intros st; cbn [for_each].
  - intros [= <- <-]. rewrite app_nil_r. auto.
  - intros H. apply bind_inv in H as [(a & st1 & Hw & Hrest)|(e & Hw & ->)].
    + rewrite write_eq in Hw. destruct (fs_ok E (clock st)); [|discriminate].
      injection Hw as _ <-. apply IH in Hrest as (Hd & Ht & Hk & Hs & Hn). cbn in *.
      repeat split; auto.
      * intros k Hne. rewrite Hk by done. by rewrite lookup_insert_ne.
      * intros _. apply Hs. by rewrite lookup_insert_eq.
      * intros Hok. rewrite (Hn Hok), lookup_insert_eq. cbn. by rewrite <- app_assoc.
    + rewrite write_eq in Hw. destruct (fs_ok E (clock st)); [discriminate|].
      injection Hw as _ <-. cbn. repeat split; auto. discriminate.
Qed.

Lemma write_stream_inv name r st res st' :
  write_stream E name r st = (res, st') ->
  downloaded st' = downloaded st /\ trace st' = trace st /\
  (forall k, k ≠ name -> disk st' !! k = disk st !! k) /\
  (is_Some (disk st !! name) -> is_Some (disk st' !! name)) /\
  (res = Ok tt ->
   stream_ok r = true /\
   default [] (disk st' !! name) = default [] (disk st !! name) ++ concat (chunks r)).
Proof.
  unfold write_stream. intros H.
  apply bind_inv in H as [(a & st1 & Hw & Hrest)|(e & Hw & ->)].
  - apply write_chunks_inv in Hw as (Hd & Ht & Hk & Hs & Hn).
    destruct (stream_ok r); munfold.
    + injection Hrest as <- <-. destruct a. repeat split; auto.
    + injection Hrest as <- <-. repeat split; auto; discriminate.
  - apply write_chunks_inv in Hw as (Hd & Ht & Hk & Hs & Hn).
    repeat split; auto; discriminate.
Qed.

Lemma save_downloaded_inv url st res st' :
  _save_downloaded E url st = (res, st') ->
  trace st' = trace st /\
  (forall k, k ≠ record_name -> disk st' !! k = disk st !! k) /\
  match res with
  | Ok _ => downloaded st' = {[url]} ∪ downloaded st /\
            disk st' !! record_name =
              Some (record_of (disk st) ++ url ++ lit (String "010" EmptyString))
  | Raise _ => downloaded st' = downloaded st /\
               record_of (disk st') = record_of (disk st)
  end.
Proof.
  unfold _save_downloaded. intros H.
  apply bind_inv in H as [(a & st1 & Ho & H)|(e & Ho & ->)];
    rewrite open_a_eq in Ho; destruct (fs_ok E (clock st)); simplify_eq; [|by cbn].
  apply bind_inv in H as [(a' & st2 & Hw & H)|(e & Hw & ->)];
    rewrite write_eq in Hw; cbn [clock disk downloaded trace] in Hw;
    destruct (fs_ok E (S (clock st))); simplify_eq.
  - munfold. simplify_eq. cbn [clock disk downloaded trace].
    split; [done|]. split.
    + intros k Hk. by rewrite !lookup_insert_ne.
    + split; [done|]. by rewrite !lookup_insert_eq.
  - cbn [clock disk downloaded trace]. split; [done|]. split.
    + intros k Hk. by rewrite lookup_insert_ne.
    + split; [done|]. unfold record_of. by rewrite lookup_insert_eq.
Qed.

Lemma download_skip url name st :
  url ∈ downloaded st -> valid_names name = true -> download E url name st = (Ok tt, st).
Proof.
  intros Hin Hv. unfold download, mbind, M_bind, bind, get_downloaded.
  by rewrite bool_decide_eq_true_2, Hv.
Qed.

(** A call that is not skipped starts with the request for the file. *)
Lemma download_first_request url name st res st' :
  url ∉ downloaded st \/ valid_names name = false ->
  download E url name st = (res, st') ->
  exists evs, trace st' = trace st ++ Request GET url true 60 :: evs.
Proof.
  intros Hcond. unfold download.
  unfold mbind at 1, M_bind, bind, get_downloaded.
  assert (bool_decide (url ∈ downloaded st) && valid_names name = false) as ->.
  { destruct Hcond as [Hn| ->]; [|by rewrite andb_false_r].
    by rewrite bool_decide_eq_false_2. }
  intros H.
  apply bind_inv in H as [(r & st1 & Hs & H)|(e & Hs & ->)]; rewrite send_eq in Hs;
    destruct (request E (clock st) GET url) as [r'|] eqn:Hreq; simplify_eq; [|by exists []].
  apply bind_inv in H as [(? & st2 & Hr & H)|(e & Hr & ->)];
    apply raise_for_status_inv in Hr as ->; [|by exists []].
  apply bind_inv in H as [(? & st2 & Ho & H)|(e & Ho & ->)];
    rewrite open_wb_eq in Ho; cbn [clock disk downloaded trace after] in Ho;
    destruct (fs_ok E (1 + clock st)); simplify_eq; [|by exists []].
  apply bind_inv in H as [(? & st3 & Hw & H)|(e & Hw & ->)];
    apply write_stream_inv in Hw as (Hd3 & Ht3 & _);
    cbn [clock disk downloaded trace after] in *; [|by exists []].
  apply bind_inv in H as [(? & st4 & Hsv & H)|(e & Hsv & ->)];
    apply save_downloaded_inv in Hsv as (Ht4 & _).
  2:{ exists []. congruence. }
  unfold log, emit in H. simplify_eq. cbn [trace]. rewrite Ht4, Ht3, <- app_assoc.
  eauto.
Qed.

(** The outcomes of a call whose target is not the record itself. *)
Lemma download_outcomes url name st res st' :
  file_of E name ≠ record_name ->
  download E url name st = (res, st') ->
  match res with
  | Raise _ =>
      downloaded st' = downloaded st /\
      load_downloaded (disk st') = load_downloaded (disk st)
  | Ok _ =>
      (url ∈ downloaded st /\ valid_names name = true /\ st' = st) \/
      (exists r, request E (clock st) GET url = Some r /\
                 stream_ok r = true /\
                 disk st' !! file_of E name = Some (concat (chunks r)) /\
                 downloaded st' = {[url]} ∪ downloaded st /\
                 disk st' !! record_name =
                   Some (record_of (disk st) ++ url ++ lit (String "010" EmptyString)))
  end.
Proof.
  intros Hname. unfold download.
  unfold mbind at 1, M_bind, bind, get_downloaded.
  destruct (bool_decide (url ∈ downloaded st) && valid_names name) eqn:Hskip.
  { intros [= <- <-]. left. apply andb_true_iff in Hskip as [Hin Hv].
    apply bool_decide_eq_true in Hin. auto. }
  clear Hskip. intros H. rewrite !load_downloaded_record.
  apply bind_inv in H as [(r & st1 & Hs & H)|(e & Hs & ->)]; rewrite send_eq in Hs;
    destruct (request E (clock st) GET url) as [r'|] eqn:Hreq; simplify_eq; [|done].
  apply bind_inv in H as [(? & st2 & Hr & H)|(e & Hr & ->)];
    apply raise_for_status_inv in Hr as ->; [|done].
  apply bind_inv in H as [(? & st2 & Ho & H)|(e & Ho & ->)];
    rewrite open_wb_eq in Ho; cbn [clock disk downloaded trace after] in Ho;
    destruct (fs_ok E (1 + clock st)); simplify_eq; [|done].
  apply bind_inv in H as [(? & st3 & Hw & H)|(e & Hw & ->)];
    apply write_stream_inv in Hw as (Hd3 & Ht3 & Hk3 & Hs3 & Hn3);
    cbn [clock disk downloaded trace after] in *.
  2:{ split; [done|]. unfold record_of. rewrite Hk3 by done. by rewrite lookup_insert_ne. }
  destruct (Hn3 ltac:(by destruct x0)) as [Hok Hfile].
  rewrite lookup_insert_eq in Hfile, Hs3. cbn in Hfile.
  assert (record_of (disk st3) = record_of (disk st)) as Hrec.
  { unfold record_of. rewrite Hk3 by done. by rewrite lookup_insert_ne. }
  apply bind_inv in H as [(? & st4 & Hsv & H)|(e & Hsv & ->)];
    apply save_downloaded_inv in Hsv as (Ht4 & Hk4 & Hd4 & Hr4).
  2:{ split; congruence. }
  unfold log, emit in H. simplify_eq. cbn [clock disk downloaded trace].
  right. exists r. repeat split; auto.
  - rewrite Hk4 by done. destruct (Hs3 (mk_is_Some _ _ eq_refl)) as [c Hl].
    rewrite Hl in *. cbn in Hfile. by subst.
  - congruence.
  - by rewrite Hr4, Hrec.
Qed.

End Steps.

(** C8, as amended.  For every call of [download] whose target name does not
    denote the record file: when the call raises, whether the request,
    the stream or a write failed, neither the set in memory nor the set a
    rerun loads from the record has changed, and a rerun asked for a URL that
    was not recorded before sends the request for it again; when the call
    returns after a transfer, the stream ended well, the target file holds all
    of its chunks, and the URL is in the set and on the last line of the
    record. *)
Theorem download_marks_after_full_write (E : Env) url name st res st' :
  file_of E name ≠ record_name ->
  download E url name st = (res, st') ->
  match res with
  | Raise _ =>
      downloaded st' = downloaded st /\
      load_downloaded (disk st') = load_downloaded (disk st) /\
      (url ∉ load_downloaded (disk st) ->
       forall E2 name2 res2 st2,
         download E2 url name2 (init (disk st')) = (res2, st2) ->
         exists evs, trace st2 = Request GET url true 60 :: evs)
  | Ok _ =>
      (url ∈ downloaded st /\ valid_names name = true /\ st' = st) \/
      (exists r, request E (clock st) GET url = Some r /\
                 stream_ok r = true /\
                 disk st' !! file_of E name = Some (concat (chunks r)) /\
                 downloaded st' = {[url]} ∪ downloaded st /\
                 disk st' !! record_name =
                   Some (record_of (disk st) ++ url ++ lit (String "010" EmptyString)))
  end.
Proof.
  intros Hname Hd. pose proof (download_outcomes E url name st res st' Hname Hd) as Ho.
  destruct res as [[]|e]; [exact Ho|].
  destruct Ho as [Hmem Hrec]. split; [done|]. split; [done|].
  intros Hnew E2 name2 res2 st2 Hd2.
  apply download_first_request in Hd2; [exact Hd2|].
  left. cbn [init downloaded]. by rewrite Hrec.
Qed.

Lemma download_marks_after_full_write_witness :
  let E := fx_env site_broken_stream (fun _ => true) in
  let out := download E file_url (lit "a.csv") (init ∅) in
  (fst out) = Raise RequestException /\
  disk (snd out) !! lit "a.csv" = Some (lit "aaa") /\
  downloaded (snd out) = ∅ /\
  load_downloaded (disk (snd out)) = ∅.
Proof.
  intros E out.
  assert (file_of E (lit "a.csv") ≠ record_name) as Hname by discriminate.
  pose proof (download_marks_after_full_write E file_url (lit "a.csv") (init ∅)
                (fst out) (snd out) Hname (surjective_pairing out)) as H.
  assert ((fst out) = Raise RequestException) as Hres by reflexivity.
  rewrite Hres in H. destruct H as (Hmem & Hrec & _).
  split; [exact Hres|]. split; [reflexivity|]. split; [exact Hmem|exact Hrec].
Defined.

(** C8 fails as stated when the target is the record file itself: the file
    comes under the name of the record, its first chunk is a line with its own
    URL, and the stream breaks after that chunk.  The call raises, yet the
    record now lists the URL, and a rerun that meets the URL under a data-file
    name returns without any request. *)
Lemma download_onto_record_marks_url :
  let E := fx_env site_self_quoting (fun _ => true) in
  let out := download E file_url record_name (init ∅) in
  (fst out) = Raise RequestException /\
  (file_url ∉ downloaded (init ∅)) /\
  file_url ∈ load_downloaded (disk (snd out)) /\
  download E file_url (lit "a.csv") (init (disk (snd out))) = (Ok tt, init (disk (snd out))).
Proof.
  intros E out.
  assert (file_url ∈ load_downloaded (disk (snd out))) as Hin.
  { refine (proj1 (bool_decide_eq_true _) _). vm_compute. reflexivity. }
  split; [reflexivity|]. split; [set_solver|]. split; [exact Hin|].
  apply download_skip; [exact Hin|reflexivity].
Qed.

(** The same under another spelling of the record's name: what counts is
    the file that the name denotes. *)
Lemma download_onto_record_by_another_name :
  let E := fx_env site_self_quoting (fun _ => true) in
  let name := lit "./downloaded_files.txt" in
  let out := download E file_url name (init ∅) in
  name <> record_name /\ file_of E name = record_name /\
  (fst out) = Raise RequestException /\
  file_url ∈ load_downloaded (disk (snd out)).
Proof.
  intros E name out. split; [discriminate|]. split; [reflexivity|]. split; [reflexivity|].
  refine (proj1 (bool_decide_eq_true _) _). vm_compute. reflexivity.
Qed.

(** C3: the code at the failing input.  The URL is recorded and the name ends
    in the letters csv without a dot before them: the call returns at once,
    without a request, although no recognised extension ends the name. *)
Theorem download_skips_name_without_dot :
  let E := fx_env site_broken_stream (fun _ => true) in
  let st := init dir_with_record in
  file_url ∈ downloaded st /\
  existsb (fun ext => endswith ext (lit "reportcsv")) [lit ".csv"; lit ".xls"; lit ".xlsx"]
    = false /\
  download E file_url (lit "reportcsv") st = (Ok tt, st).
Proof.
  intros E st.
  assert (file_url ∈ downloaded st) as Hin.
  { refine (proj1 (bool_decide_eq_true _) _). vm_compute. reflexivity. }
  split; [exact Hin|]. split; [reflexivity|].
  apply download_skip; [exact Hin|reflexivity].
Qed.

End Store.

(* ===================================================================== *)
(** ** The crawl loop *)
(* ===================================================================== *)

Module Orchestrator.
Import Py Re Bs4 Crawler Fixture StrFacts MFacts ReFacts Store.

(* --------------------------------------------------------------------- *)
(** *** A program logic for the monad *)

Section Hoare.
Variable E : Env.
Variable R : State -> State -> Prop.
Hypothesis R_refl : forall st, R st st.
Hypothesis R_trans : forall a b c, R a b -> R b c -> R a c.

Lemma hoare_ret {A} (a : A) (Q : A -> Prop) X : Q a -> hoare R (mret a) Q X.
Proof. intros Hq st res st'. unfold mret, M_ret, ret. intros [= <- <-]. auto. Qed.

Lemma hoare_raise {A} e (Q : A -> Prop) (X : Exn -> Prop) : X e -> hoare R (raise e) Q X.
Proof. intros Hx st res st'. unfold raise. intros [= <- <-]. auto. Qed.

Lemma hoare_bind {A B} (m : M A) (f : A -> M B) Q Q' X :
  hoare R m Q X -> (forall a, Q a -> hoare R (f a) Q' X) -> hoare R (m ≫= f) Q' X.
Proof.
  intros Hm Hf st res st' H.
  apply bind_inv in H as [(a & st1 & H1 & H2)|(e & H1 & ->)].
  - destruct (Hm _ _ _ H1) as [HR Hq]. destruct (Hf a Hq _ _ _ H2) as [HR' Hres].
    split; [by eapply R_trans|done].
  - by destruct (Hm _ _ _ H1) as [HR Hx].
Qed.

Lemma hoare_try {A} (m : M A) (h : Exn -> M A) Q X1 X :
  hoare R m Q X1 -> (forall e, X1 e -> hoare R (h e) Q X) -> hoare R (try_except m h) Q X.
Proof.
  intros Hm Hh st res st' H. unfold try_except in H.
  destruct (m st) as [[a|e] st1] eqn:Hmst.
  - injection H as <- <-. apply (Hm _ _ _ Hmst).
  - destruct (Hm _ _ _ Hmst) as [HR Hx]. destruct (Hh e Hx _ _ _ H) as [HR' Hres].
    split; [by eapply R_trans|done].
Qed.

Lemma hoare_weaken {A} (m : M A) (Q Q' : A -> Prop) (X X' : Exn -> Prop) :
  hoare R m Q X -> (forall a, Q a -> Q' a) -> (forall e, X e -> X' e) -> hoare R m Q' X'.
Proof.
  intros Hm Hq Hx st res st' H. destruct (Hm _ _ _ H) as [HR Hres].
  split; [done|]. destruct res; auto.
Qed.

Lemma hoare_for_each {A} (l : list A) (f : A -> M unit) X :
  (forall x, x ∈ l -> hoare R (f x) (fun _ => True) X) ->
  hoare R (for_each l f) (fun _ => True) X.
Proof.
  induction l as [|x l IH]; intros Hf; cbn [for_each].
  - by apply hoare_ret.
  - eapply hoare_bind.
    + apply Hf. by left.
    + intros _ _. apply IH. intros y Hy. apply Hf. by right.
Qed.

(** What the relation must allow: events other than the request for a file,
    ticks of the clock, and [download] on the names the documents give. *)
Hypothesis R_emit : forall ev st,
  safe_event ev -> R st (mkState (downloaded st) (disk st) (clock st) (trace st ++ [ev])).
Hypothesis R_tick : forall st,
  R st (mkState (downloaded st) (disk st) (S (clock st)) (trace st)).
Variable name_ok : str -> Prop.
Hypothesis R_download : forall u n,
  name_ok n -> hoare R (download E u n) (fun _ => True) (fun _ => True).
Hypothesis names_ok : forall t url r files contents u n,
  request E t GET url = Some r ->
  extract_links E (document r) url = Some (files, contents) ->
  (u, n) ∈ files -> name_ok n.

Lemma hoare_returned {A} (o : option A) :
  hoare R (returned o) (fun a => o = Some a) (fun _ => True).
Proof. intros st res st'. rewrite returned_eq. destruct o; intros [= <- <-]; auto. Qed.

Lemma hoare_emit ev : safe_event ev -> hoare R (emit ev) (fun _ => True) (fun _ => False).
Proof. intros Hs st res st'. unfold emit. intros [= <- <-]. split; [by apply R_emit|done]. Qed.

Lemma hoare_log lvl msg : hoare R (log lvl msg) (fun _ => True) (fun _ => False).
Proof. by apply hoare_emit. Qed.

Lemma hoare_sleep n : hoare R (sleep n) (fun _ => True) (fun _ => False).
Proof. by apply hoare_emit. Qed.

Lemma hoare_send m url stream timeout :
  timeout ≠ 60 ->
  hoare R (send E m url stream timeout)
        (fun r => exists t, request E t m url = Some r) (fun _ => True).
Proof.
  intros Ht st res st'. rewrite send_eq.
  assert (R st (after st 1 [Request m url stream timeout])) as HR.
  { eapply R_trans; [apply (R_emit (Request m url stream timeout))|apply R_tick].
    destruct m; [|done]. destruct stream; [|done].
    cbn. do 61 (destruct timeout as [|timeout]; try done). }
  destruct (request E (clock st) m url) as [r|] eqn:Hr; intros [= <- <-]; eauto.
Qed.

Lemma hoare_raise_for_status r :
  hoare R (raise_for_status r) (fun _ => True) (fun _ => True).
Proof.
  unfold raise_for_status. destruct (_ && _); [by apply hoare_raise|by apply hoare_ret].
Qed.

Lemma hoare_fetch url :
  hoare R (fetch E url)
        (fun soup => exists t r, request E t GET url = Some r /\ soup = document r)
        (fun _ => True).
Proof.
  unfold fetch. eapply hoare_bind; [by apply hoare_send|].
  intros r [t Hr]. eapply hoare_bind; [apply hoare_raise_for_status|].
  intros _ _. apply hoare_ret. eauto.
Qed.

Lemma hoare_url_exists url :
  hoare R (url_exists E url) (fun _ => True) (fun _ => False).
Proof.
  unfold url_exists. eapply hoare_try.
  - eapply hoare_bind; [by apply hoare_send|]. intros r _. by apply hoare_ret.
  - intros e _. eapply hoare_try.
    + eapply hoare_bind; [by apply hoare_send|]. intros r _. by apply hoare_ret.
    + intros e' _. by apply hoare_ret.
Qed.

Lemma hoare_log' lvl msg : hoare R (log lvl msg) (fun _ => True) (fun _ => True).
Proof. eapply hoare_weaken; [apply hoare_log|done|done]. Qed.

Lemma hoare_url_exists' url :
  hoare R (url_exists E url) (fun _ => True) (fun _ => True).
Proof. eapply hoare_weaken; [apply hoare_url_exists|done|done]. Qed.

(** The methods that join a reference raise at most the error of [urljoin]:
    the handler of the page takes it. *)
Lemma hoare_numbered_links url l acc :
  hoare R (numbered_links E url l acc) (fun _ => True) (fun _ => True).
Proof.
  revert acc. induction l as [|a l IH]; intros acc; cbn [numbered_links].
  - by apply hoare_ret.
  - destruct (_ && _); [|apply IH].
    eapply hoare_bind; [apply hoare_log'|]. intros _ _.
    eapply hoare_bind; [apply hoare_log'|]. intros _ _.
    eapply hoare_bind; [apply hoare_returned|]. intros full _.
    eapply hoare_bind; [apply hoare_log'|]. intros _ _. apply IH.
Qed.

Lemma hoare_find_all_pagination_links soup url :
  hoare R (find_all_pagination_links E soup url) (fun _ => True) (fun _ => True).
Proof.
  unfold find_all_pagination_links.
  eapply hoare_bind; [apply hoare_returned|]. intros in_containers _.
  eapply hoare_bind; [apply hoare_numbered_links|]. intros links _. by apply hoare_ret.
Qed.

Lemma hoare_detect_pagination_mode soup url :
  hoare R (detect_pagination_mode E soup url) (fun _ => True) (fun _ => True).
Proof.
  unfold detect_pagination_mode. destruct (existsb _ _); [by apply hoare_ret|].
  eapply hoare_bind.
  - instantiate (1 := fun _ => True).
    destruct (_has_url_pagination_pattern url); [|by apply hoare_ret].
    destruct (generate_next_url url) as [[|c u]|]; try by apply hoare_ret.
    apply hoare_url_exists'.
  - intros [] _; [by apply hoare_ret|].
    eapply hoare_bind; [apply hoare_find_all_pagination_links|].
    intros links _. destruct (existsb _ _); by apply hoare_ret.
Qed.

Lemma hoare_is_last_page soup url mode :
  hoare R (is_last_page E soup url mode) (fun _ => True) (fun _ => True).
Proof.
  unfold is_last_page. destruct mode as [[]|]; [| |by apply hoare_ret].
  - eapply hoare_bind; [apply hoare_returned|]. intros [] _; by apply hoare_ret.
  - destruct (generate_next_url url) as [[|c u]|]; try by apply hoare_ret.
    eapply hoare_bind; [apply hoare_url_exists'|]. intros ok _. by apply hoare_ret.
Qed.

Lemma hoare_smart_next soup url mode :
  hoare R (smart_next E soup url mode) (fun _ => True) (fun _ => True).
Proof.
  unfold smart_next. destruct mode as [[]|]; [| |by apply hoare_ret].
  - eapply hoare_bind; [apply hoare_returned|]. intros [[|c u]|] _;
      (eapply hoare_bind; [apply hoare_log'|]); intros _ _; by apply hoare_ret.
  - eapply hoare_bind.
    + instantiate (1 := fun _ => True).
      destruct (generate_next_url url) as [[|c u]|]; try by apply hoare_ret.
      apply hoare_url_exists'.
    + intros [] _; (eapply hoare_bind; [apply hoare_log'|]); intros _ _; by apply hoare_ret.
Qed.

Lemma hoare_download_all files :
  (forall u n, (u, n) ∈ files -> name_ok n) ->
  hoare R (download_all E files) (fun _ => True) (fun _ => True).
Proof.
  intros Hn. unfold download_all. apply hoare_for_each. intros [u n] Hin.
  eapply hoare_bind; [apply R_download; by eapply Hn|]. intros _ _.
  eapply hoare_weaken; [apply hoare_sleep|done|done].
Qed.

Lemma hoare_process_content c :
  hoare R (process_content E c) (fun _ => True) (fun _ => False).
Proof.
  unfold process_content. eapply hoare_try.
  - eapply hoare_bind; [apply hoare_fetch|]. intros soup (t & r & Hr & ->).
    eapply hoare_bind; [apply hoare_returned|]. intros [files contents] Hx.
    apply hoare_download_all. intros u n Hin. by eapply names_ok.
  - intros e _. apply hoare_log.
Qed.

Lemma hoare_on_page_error l cur e :
  hoare R (on_page_error l cur e) (fun _ => True) (fun _ => False).
Proof.
  unfold on_page_error. eapply hoare_bind; [apply hoare_log|]. intros _ _.
  destruct (pagination_mode l) as [[]|]; try by apply hoare_ret.
  destruct (_ && _); by apply hoare_ret.
Qed.

Lemma hoare_process_page l cur soup :
  (exists t r, request E t GET cur = Some r /\ soup = document r) ->
  hoare R (process_page E l cur soup) (fun _ => True) (fun _ => True).
Proof.
  intros (t & r & Hr & ->). unfold process_page.
  eapply hoare_bind; [apply hoare_returned|]. intros [files contents] Hx.
  eapply hoare_bind.
  { apply hoare_download_all. intros u n Hin. by eapply names_ok. }
  intros _ _. eapply hoare_bind.
  { apply hoare_for_each. intros c _.
    eapply hoare_weaken; [apply hoare_process_content|done|done]. }
  intros _ _. destruct (pagination_mode l) as [mode|].
  - eapply hoare_bind; [apply hoare_is_last_page|].
    intros [] _.
    + eapply hoare_bind; [eapply hoare_weaken; [apply hoare_log|done|done]|].
      intros _ _. by apply hoare_ret.
    + eapply hoare_bind; [apply hoare_smart_next|].
      intros next _.
      eapply hoare_bind; [eapply hoare_weaken; [apply hoare_sleep|done|done]|].
      intros _ _. by apply hoare_ret.
  - eapply hoare_bind; [eapply hoare_weaken; [apply hoare_log|done|done]|].
    intros _ _. by apply hoare_ret.
Qed.

Lemma hoare_detect_once l cur soup :
  hoare R (detect_once E l cur soup) (fun _ => True) (fun _ => True).
Proof.
  unfold detect_once. destruct (pagination_mode l); [by apply hoare_ret|].
  eapply hoare_bind; [apply hoare_detect_pagination_mode|]. intros mode _.
  eapply hoare_bind; [destruct mode; apply hoare_log'|]. intros _ _. by apply hoare_ret.
Qed.

(** One pass through the loop never raises. *)
Lemma hoare_loop_body max_pages l cur :
  hoare R (loop_body E max_pages l cur) (fun _ => True) (fun _ => False).
Proof.
  unfold loop_body. destruct (bool_decide _).
  { eapply hoare_bind; [apply hoare_log|]. intros _ _. by apply hoare_ret. }
  destruct (match max_pages with Some (S n) => _ | _ => false end).
  { eapply hoare_bind; [apply hoare_log|]. intros _ _. by apply hoare_ret. }
  eapply hoare_bind; [apply hoare_log|]. intros _ _.
  eapply hoare_bind.
  { instantiate (1 := fun fetched =>
       match fetched with
       | inl soup => exists t r, request E t GET cur = Some r /\ soup = document r
       | inr _ => True
       end).
    eapply hoare_try.
    - eapply hoare_bind; [apply hoare_fetch|]. intros soup Hs. by apply hoare_ret.
    - intros e _. by apply hoare_ret. }
  intros [soup|e] Hs; [|apply hoare_on_page_error].
  eapply hoare_bind.
  { instantiate (1 := fun _ => True). eapply hoare_try.
    - eapply hoare_bind; [apply hoare_detect_once|]. intros l2 _. by apply hoare_ret.
    - intros e _. by apply hoare_ret. }
  intros [l2|e] _; [|apply hoare_on_page_error].
  eapply hoare_try; [by apply hoare_process_page|].
  intros e _. apply hoare_on_page_error.
Qed.

Lemma hoare_while_current fuel max_pages l :
  hoare R (while_current E fuel max_pages l) (fun _ => True) (fun _ => False).
Proof.
  revert l. induction fuel as [|fuel IH]; intros l; cbn [while_current];
    destruct (current l) as [[|c u]|]; try by apply hoare_ret.
  eapply hoare_bind; [apply hoare_loop_body|]. intros [l'|l'] _; [apply IH|by apply hoare_ret].
Qed.

(** A run never raises. *)
Lemma hoare_run base_url max_pages fuel :
  hoare R (run E base_url max_pages fuel) (fun _ => True) (fun _ => False).
Proof.
  unfold run. eapply hoare_bind; [apply hoare_log|]. intros _ _.
  eapply hoare_bind; [apply hoare_while_current|]. intros [l|] _; [|by apply hoare_ret].
  eapply hoare_bind; [apply hoare_log|]. intros _ _. by apply hoare_ret.
Qed.

End Hoare.

(* --------------------------------------------------------------------- *)
(** *** Recorded URLs are not fetched again *)

Lemma no_refetch_refl st : no_refetch st st.
Proof.
  split; [done|]. exists []. rewrite app_nil_r. split; [done|]. intros u _. apply not_elem_of_nil.
Qed.

Lemma no_refetch_trans a b c : no_refetch a b -> no_refetch b c -> no_refetch a c.
Proof.
  intros [Hs1 (e1 & Ht1 & Hn1)] [Hs2 (e2 & Ht2 & Hn2)]. split; [set_solver|].
  exists (e1 ++ e2). split; [by rewrite Ht2, Ht1, app_assoc|].
  intros u Hu. rewrite elem_of_app. intros [H|H]; [by apply (Hn1 u)|].
  apply (Hn2 u); [set_solver|done].
Qed.

Lemma no_refetch_emit ev st :
  safe_event ev ->
  no_refetch st (mkState (downloaded st) (disk st) (clock st) (trace st ++ [ev])).
Proof.
  intros Hs. split; [done|]. exists [ev]. split; [done|].
  intros u _ Hin. apply list_elem_of_singleton in Hin as <-. exact Hs.
Qed.

Lemma no_refetch_tick st :
  no_refetch st (mkState (downloaded st) (disk st) (S (clock st)) (trace st)).
Proof.
  split; [done|]. exists []. cbn. rewrite app_nil_r. split; [done|].
  intros u _. apply not_elem_of_nil.
Qed.

(** What a call of [download] does to the set and to the trace. *)
Lemma download_effect (E : Env) url name st res st' :
  download E url name st = (res, st') ->
  (url ∈ downloaded st /\ valid_names name = true /\ res = Ok tt /\ st' = st) \/
  ((url ∉ downloaded st \/ valid_names name = false) /\
   downloaded st ⊆ downloaded st' /\
   exists evs, trace st' = trace st ++ Request GET url true 60 :: evs /\
               Forall (fun ev => exists msg, ev = Log INFO msg) evs).
Proof.
  unfold download.
  unfold mbind at 1, M_bind, bind, get_downloaded.
  destruct (bool_decide (url ∈ downloaded st) && valid_names name) eqn:Hskip.
  { intros [= <- <-]. left. apply andb_true_iff in Hskip as [Hin Hv].
    apply bool_decide_eq_true in Hin. auto. }
  intros H. right. split.
  { apply andb_false_iff in Hskip as [Hin|Hv]; [left|by right].
    by apply bool_decide_eq_false in Hin. }
  clear Hskip.
  apply bind_inv in H as [(r & st1 & Hs & H)|(e & Hs & ->)]; rewrite send_eq in Hs;
    destruct (request E (clock st) GET url) as [r'|] eqn:Hreq; simplify_eq;
    [|split; [done|by exists []]].
  apply bind_inv in H as [(? & st2 & Hr & H)|(e & Hr & ->)];
    apply raise_for_status_inv in Hr as ->; [|split; [done|by exists []]].
  apply bind_inv in H as [(? & st2 & Ho & H)|(e & Ho & ->)];
    rewrite open_wb_eq in Ho; cbn [clock disk downloaded trace after] in Ho;
    destruct (fs_ok E (1 + clock st)); simplify_eq; [|split; [done|by exists []]].
  apply bind_inv in H as [(? & st3 & Hw & H)|(e & Hw & ->)];
    apply write_stream_inv in Hw as (Hd3 & Ht3 & _);
    cbn [clock disk downloaded trace after] in *.
  2:{ split; [by rewrite Hd3|]. exists []. by rewrite Ht3. }
  apply bind_inv in H as [(? & st4 & Hsv & H)|(e & Hsv & ->)];
    apply save_downloaded_inv in Hsv as (Ht4 & _ & Hsv).
  2:{ destruct Hsv as [Hd4 _]. split; [by rewrite Hd4, Hd3|]. exists [].
      split; [congruence|done]. }
  destruct Hsv as [Hd4 _]. unfold log, emit in H. simplify_eq. cbn [trace downloaded].
  split; [rewrite Hd4, Hd3; apply union_subseteq_r|].
  eexists [_]. rewrite Ht4, Ht3, <- app_assoc. split; [done|].
  constructor; [eauto|constructor].
Qed.

Lemma no_refetch_download (E : Env) u n :
  valid_names n = true ->
  hoare no_refetch (download E u n) (fun _ => True) (fun _ => True).
Proof.
  intros Hv st res st' H.
  split; [|by destruct res].
  apply download_effect in H as [(_ & _ & _ & ->)|(Hc & Hsub & evs & Ht & Hlogs)].
  - apply no_refetch_refl.
  - destruct Hc as [Hnew|Hinv]; [|congruence].
    split; [done|]. eexists. split; [exact Ht|].
    intros v Hv' Hin. apply elem_of_cons in Hin as [Heq|Hin].
    + injection Heq as ->. done.
    + rewrite Forall_forall in Hlogs. apply Hlogs in Hin as [msg Hmsg]. discriminate.
Qed.

(** No run raises, whatever the environment. *)
Lemma run_total (E : Env) base_url max_pages fuel st :
  exists out st', run E base_url max_pages fuel st = (Ok out, st').
Proof.
  destruct (run E base_url max_pages fuel st) as [res st'] eqn:H.
  eapply (hoare_run E (fun _ _ => True)) in H as [_ Hres].
  - destruct res as [out|e]; [eauto|done].
  - done.
  - done.
  - done.
  - done.
  - instantiate (1 := fun _ => True). intros u n _ st0 res0 st0' _. split; [done|by destruct res0].
  - done.
Qed.

Lemma run_no_refetch (E : Env) base_url max_pages fuel st res st' :
  all_names_valid E ->
  run E base_url max_pages fuel st = (res, st') ->
  no_refetch st st'.
Proof.
  intros Hnames H.
  eapply (hoare_run E no_refetch no_refetch_refl no_refetch_trans no_refetch_emit
            no_refetch_tick (fun n => valid_names n = true)) in H as [HR _]; [done| |].
  - apply no_refetch_download.
  - exact Hnames.
Qed.

(* --------------------------------------------------------------------- *)
(** *** Errors while downloading *)

Lemma bind_ok {A B} (m : M A) (f : A -> M B) st a st1 :
  m st = (Ok a, st1) -> (m ≫= f) st = f a st1.
Proof. unfold mbind, M_bind, bind. by intros ->. Qed.

Lemma bind_raise {A B} (m : M A) (f : A -> M B) st e st1 :
  m st = (Raise e, st1) -> (m ≫= f) st = (Raise e, st1).
Proof. unfold mbind, M_bind, bind. by intros ->. Qed.

Lemma download_all_stops (E : Env) files1 u n files2 st st1 e st2 :
  download_all E files1 st = (Ok tt, st1) ->
  download E u n st1 = (Raise e, st2) ->
  download_all E (files1 ++ (u, n) :: files2) st = (Raise e, st2).
Proof.
  unfold download_all. revert st. induction files1 as [|[u' n'] files1 IH]; intros st.
  - cbn [for_each app]. unfold mret, M_ret, ret. intros [= ->] Hd.
    apply bind_raise. by apply bind_raise.
  - cbn [for_each app]. intros H Hd.
    apply bind_inv in H as [([] & st' & Hh & Ht)|(e' & _ & [=])].
    rewrite (bind_ok _ _ _ _ _ Hh). by apply IH.
Qed.

Lemma process_page_stops (E : Env) l cur soup files contents st e st1 :
  extract_links E soup cur = Some (files, contents) ->
  download_all E files st = (Raise e, st1) ->
  process_page E l cur soup st = (Raise e, st1).
Proof.
  unfold process_page. intros -> H. rewrite (bind_ok _ _ _ _ _ (returned_Some _ _)).
  by apply bind_raise.
Qed.

Lemma on_page_error_eq l cur e st :
  on_page_error l cur e st =
  (Ok (error_flow l cur),
   after st 0 [Log ERROR (lit "Error processing page " ++ cur ++ lit ": " ++ show_exn e)]).
Proof.
  unfold on_page_error, error_flow, log, emit, mbind, M_bind, bind, after.
  destruct (pagination_mode l) as [[]|]; try reflexivity.
  cbn zeta. destruct (_ && _); reflexivity.
Qed.

Lemma process_content_total (E : Env) c st :
  exists st', process_content E c st = (Ok tt, st').
Proof.
  destruct (process_content E c st) as [res st'] eqn:H.
  eapply (hoare_process_content E (fun _ _ => True)) in H as [_ Hres].
  - destruct res as [[]|e]; [eauto|done].
  - done.
  - done.
  - done.
  - done.
  - instantiate (1 := fun _ => True). intros u n _ st0 res0 st0' _. split; [done|by destruct res0].
  - done.
Qed.

(** C1, as amended.  An error raised while a file link is downloaded is not
    caught at the link.  The loop over the links stops at the failing link,
    the links after it are not attempted, and the state is the one the failed
    call left.  For a link of the listing page the error ends the pass over
    the page: the content pages are not visited, the [except] clause of the
    page logs the error, and the loop goes on only in UrlPattern mode with a
    synthesized successor that was not visited.  The body of a content page
    has a handler of its own and never raises, so an error there costs only
    the remaining links of that content page.  No run raises. *)
Theorem download_error_ends_the_page (E : Env) :
  (forall files1 u n files2 st st1 e st2,
     download_all E files1 st = (Ok tt, st1) ->
     download E u n st1 = (Raise e, st2) ->
     download_all E (files1 ++ (u, n) :: files2) st = (Raise e, st2)) /\
  (forall l cur soup files contents st e st1,
     extract_links E soup cur = Some (files, contents) ->
     download_all E files st = (Raise e, st1) ->
     try_except (process_page E l cur soup) (on_page_error l cur) st
     = (Ok (error_flow l cur),
        after st1 0 [Log ERROR (lit "Error processing page " ++ cur ++ lit ": "
                                  ++ show_exn e)])) /\
  (forall c soup files contents st st0 e st1,
     fetch E c st = (Ok soup, st0) ->
     extract_links E soup c = Some (files, contents) ->
     download_all E files st0 = (Raise e, st1) ->
     process_content E c st
     = (Ok tt,
        after st1 0 [Log WARNING (lit "Error processing content page " ++ c ++ lit ": "
                                    ++ show_exn e)])) /\
  (forall c st, exists st', process_content E c st = (Ok tt, st')) /\
  (forall base_url max_pages fuel st,
     exists out st', run E base_url max_pages fuel st = (Ok out, st')).
Proof.
  split; [apply download_all_stops|]. split; [|split; [|split]].
  - intros l cur soup files contents st e st1 Hx H. unfold try_except.
    rewrite (process_page_stops _ _ _ _ _ _ _ _ _ Hx H). apply on_page_error_eq.
  - intros c soup files contents st st0 e st1 Hf Hx Hd. unfold process_content, try_except.
    rewrite (bind_ok _ _ _ _ _ Hf), Hx, (bind_ok _ _ _ _ _ (returned_Some _ _)).
    cbn [fst]. by rewrite Hd.
  - apply process_content_total.
  - apply run_total.
Qed.

Lemma download_error_ends_the_page_witness :
  let E := fx_env site_first_fails (fun _ => true) in
  download_all E [(file_url, lit "a.csv"); (b_url, lit "b.csv")] (init ∅)
  = (Raise RequestException, after (init ∅) 1 [Request GET file_url true 60]).
Proof.
  intros E. destruct (download_error_ends_the_page E) as (Hstop & _).
  apply (Hstop [] file_url (lit "a.csv") [(b_url, lit "b.csv")] (init ∅) (init ∅)).
  - reflexivity.
  - reflexivity.
Defined.

(** C1 fails as stated: the request for the first file link raises, the
    error is logged by the handler of the page, and the second link of the
    same page, which the server would have delivered, is never requested. *)
Lemma run_skips_links_after_failure :
  let E := fx_env site_first_fails (fun _ => true) in
  let out := run E list_url None 5 (init ∅) in
  extract_links E doc_two_files list_url
    = Some ([(file_url, lit "a.csv"); (b_url, lit "b.csv")], []) /\
  request E 2 GET b_url = Some (file_reply ["bbb"]) /\
  trace (snd out) =
    [Log INFO (lit "Starting download from: http://x/list.html");
     Log INFO (lit "Processing page 1: http://x/list.html");
     Request GET list_url false 30;
     Log WARNING (lit "No pagination mechanism detected. Will process single page only.");
     Request GET file_url true 60;
     Log ERROR (lit "Error processing page http://x/list.html: RequestException");
     Log INFO (lit "All pages processed. Total pages: 1")] /\
  disk (snd out) !! lit "b.csv" = None.
Proof. repeat split; vm_compute; reflexivity. Qed.

(* --------------------------------------------------------------------- *)
(** *** A second run *)

Lemma lookup_site_In site m url r :
  lookup_site site m url = Some r -> In (m, url, r) site.
Proof.
  unfold lookup_site. destruct (List.find _ site) as [[[m' u] r']|] eqn:Hf; [|discriminate].
  intros [= ->]. apply find_some in Hf as [Hin Hp].
  apply andb_true_iff in Hp as [Hm Hu]. apply bool_decide_eq_true in Hu as ->.
  by destruct m, m'.
Qed.

Lemma site_named_valid fs : all_names_valid (fx_env site_named fs).
Proof.
  intros t url r files contents u n Hreq Hx Hin. cbn [request fx_env] in Hreq.
  apply lookup_site_In in Hreq. cbn in Hreq.
  destruct Hreq as [Heq|[Heq|[Heq|[]]]]; injection Heq as <- <-;
    vm_compute in Hx; injection Hx as <- <-; apply list_elem_of_In in Hin; cbn in Hin;
    repeat (destruct Hin as [Hin|Hin]; [injection Hin as <- <-; reflexivity|]);
    destruct Hin.
Qed.

(** C2, as amended.  A link whose URL is recorded and whose name ends in
    csv, xls or xlsx is skipped by [download] without any request; a link
    whose name does not end so is requested on every call, recorded or not.
    Hence, when every file link the server offers has such a name, no run
    requests a file whose URL was in DownloadedSet when the run started, and
    the set only grows. *)
Theorem run_refetches_only_unvalidated_names (E : Env) :
  (forall u n st,
     u ∈ downloaded st -> valid_names n = true -> download E u n st = (Ok tt, st)) /\
  (forall u n st res st',
     valid_names n = false -> download E u n st = (res, st') ->
     exists evs, trace st' = trace st ++ Request GET u true 60 :: evs) /\
  (all_names_valid E ->
   forall base_url max_pages fuel st res st',
     run E base_url max_pages fuel st = (res, st') ->
     downloaded st ⊆ downloaded st' /\
     exists evs, trace st' = trace st ++ evs /\
                 forall u, u ∈ downloaded st -> Request GET u true 60 ∉ evs).
Proof.
  split; [apply download_skip|]. split.
  - intros u n st res st' Hv H. eapply download_first_request; [|exact H]. by right.
  - intros Hnames base_url max_pages fuel st res st' H.
    by apply (run_no_refetch E base_url max_pages fuel st res st').
Qed.

Lemma run_refetches_only_unvalidated_names_witness :
  let E := fx_env site_named (fun _ => true) in
  let st1 := snd (run E list_url None 5 (init ∅)) in
  let st2 := snd (run E list_url None 5 (init (disk st1))) in
  file_url ∈ load_downloaded (disk st1) /\
  forall u, u ∈ load_downloaded (disk st1) -> Request GET u true 60 ∉ trace st2.
Proof.
  intros E st1 st2.
  split; [refine (proj1 (bool_decide_eq_true _) _); vm_compute; reflexivity|].
  destruct (run_refetches_only_unvalidated_names E) as (_ & _ & Hrun).
  destruct (Hrun (site_named_valid _) list_url None 5 (init (disk st1))
              (fst (run E list_url None 5 (init (disk st1)))) st2
              (surjective_pairing _)) as (_ & evs & Ht & Hno).
  cbn [init trace app] in Ht. fold st2 in Ht. rewrite Ht. exact Hno.
Defined.

(** C2 fails as stated: the anchor text of the only file link is a title.
    The first run downloads the file and records its URL; the second run,
    started from the record of the first, sends the very same requests, the
    one for the file included. *)
Lemma second_run_refetches_titled_link :
  let E := fx_env site_titled (fun _ => true) in
  let st1 := snd (run E list_url None 5 (init ∅)) in
  let st2 := snd (run E list_url None 5 (init (disk st1))) in
  trace st1 =
    [Log INFO (lit "Starting download from: http://x/list.html");
     Log INFO (lit "Processing page 1: http://x/list.html");
     Request GET list_url false 30;
     Log WARNING (lit "No pagination mechanism detected. Will process single page only.");
     Request GET file_url true 60;
     Log INFO (lit "Downloaded: Report");
     Sleep 1;
     Log INFO (lit "No pagination available, processing single page only");
     Log INFO (lit "All pages processed. Total pages: 1")] /\
  file_url ∈ downloaded (init (disk st1)) /\
  trace st2 = trace st1.
Proof.
  repeat split; vm_compute; reflexivity.
Qed.

End Orchestrator.

(* ===================================================================== *)
(** ** Decimal numerals *)
(* ===================================================================== *)

Module PyFacts.
Import Py.

Lemma int_of_acc d acc :
  fold_left (fun a c => (10 * a + digit_val c)%N)
            (list_ascii_of_string (NilEmpty.string_of_uint d)) (Npos acc)
  = Npos (Pos.of_uint_acc d acc).
Proof.
  revert acc.
  induction d; intros acc;
    cbn [NilEmpty.string_of_uint list_ascii_of_string fold_left Pos.of_uint_acc];
    [done|..]; rewrite <- IHd; f_equal; vm_compute digit_val; lia.
Qed.

Lemma int_of_uint d :
  fold_left (fun a c => (10 * a + digit_val c)%N)
            (list_ascii_of_string (NilEmpty.string_of_uint d)) 0%N
  = Pos.of_uint d.
Proof.
  induction d; cbn [NilEmpty.string_of_uint list_ascii_of_string fold_left Pos.of_uint];
    [done|exact IHd|..]; rewrite <- int_of_acc; f_equal.
Qed.

(** [int(str(n)) == n] *)
Lemma int_of_str_of_int n : int_of (str_of_int n) = n.
Proof.
  unfold int_of, str_of_int, NilZero.string_of_uint.
  rewrite <- (DecimalN.Unsigned.of_to n) at 2. unfold N.of_uint.
  destruct (N.to_uint n) eqn:Hd; rewrite <- int_of_uint; reflexivity.
Qed.

Lemma uint_digits d :
  forallb is_digit (list_ascii_of_string (NilEmpty.string_of_uint d)) = true.
Proof.
  induction d; cbn [NilEmpty.string_of_uint list_ascii_of_string forallb]; [done|..];
    exact IHd.
Qed.

(** [str(n)] is a run of digits. *)
Lemma str_of_int_digits n : forallb is_digit (str_of_int n) = true.
Proof.
  unfold str_of_int, NilZero.string_of_uint.
  destruct (N.to_uint n); try apply uint_digits. reflexivity.
Qed.

End PyFacts.

(* ===================================================================== *)
(** ** Successors of successors *)
(* ===================================================================== *)

Module Successor.
Import Py Re Bs4 Crawler Fixture Notions StrFacts MFacts ReFacts Oracle PyFacts.

(** Two runs of digits that end where no digit follows are the same run. *)
Lemma digit_runs_eq a b x y :
  forallb is_digit a = true -> forallb is_digit b = true ->
  starts_with_class is_digit x = false -> starts_with_class is_digit y = false ->
  a ++ x = b ++ y -> a = b.
Proof.
  revert b. induction a as [|c a IH]; intros [|d b] Ha Hb Hx Hy Heq; cbn in *.
  - done.
  - subst x. cbn in Hx. apply andb_true_iff in Hb as [Hd _]. congruence.
  - subst y. cbn in Hy. apply andb_true_iff in Ha as [Hc _]. congruence.
  - injection Heq as -> Heq. apply andb_true_iff in Ha as [_ Ha].
    apply andb_true_iff in Hb as [_ Hb]. f_equal. by eapply IH.
Qed.

Lemma succ_digits_neq ds : succ_digits ds ≠ ds.
Proof.
  intros H. apply (f_equal int_of) in H. unfold succ_digits in H.
  rewrite int_of_str_of_int in H. lia.
Qed.

Lemma succ_digits_digits ds : digits (succ_digits ds).
Proof. split; [apply str_of_int_nonempty|apply str_of_int_digits]. Qed.

(** A text splits into its leading digits and a rest that starts with none. *)
Lemma digit_run s :
  exists d rest, s = d ++ rest /\ forallb is_digit d = true /\
                 starts_with_class is_digit rest = false.
Proof.
  induction s as [|c s (d & rest & -> & Hd & Hr)].
  - by exists [], [].
  - destruct (is_digit c) eqn:Hc.
    + exists (c :: d), rest. cbn. by rewrite Hc, Hd.
    + exists [], (c :: d ++ rest). cbn. by rewrite Hc.
Qed.

(** What [re.sub] puts first: the head of the text or the head of the
    replacement. *)
Lemma sub_head_class ic r repl p s :
  repl ≠ [] -> starts_with_class p repl = false -> starts_with_class p s = false ->
  starts_with_class p (sub ic r repl s) = false.
Proof.
  intros Hne Hrepl Hs. unfold sub. destruct s as [|c s]; [done|]. cbn [sub_from].
  destruct (match_here ic r (c :: s)) as [[rest g]|]; [|exact Hs].
  destruct (length (c :: s) - length rest); [exact Hs|].
  destruct repl; [done|]. exact Hrepl.
Qed.

(** What [re.search] returns, in terms of the language of the pattern. *)
Lemma search_no_match_before ic r url m :
  search ic r url = Some m ->
  url = m_pre m ++ m_text m ++ m_post m /\
  lang ic r (m_text m) (m_post m) /\
  match_here ic r (m_text m ++ m_post m) = Some (m_post m, m_groups m) /\
  no_match_before ic r url (length (m_pre m)) = true.
Proof.
  intros H. apply search_spec in H as (Heq & Hm & Hno).
  split; [done|]. split.
  - apply match_here_sound in Hm as [_ Hl]. by rewrite consumed_app in Hl.
  - split; [done|]. by apply no_match_before_spec.
Qed.

Lemma search_COMMON_LIST_N url m :
  search false COMMON_LIST_N_RE url = Some m ->
  exists ds, digits ds /\
    url = m_pre m ++ lit "common_list_" ++ ds ++ lit ".shtml" ++ m_post m /\
    no_match_before false COMMON_LIST_N_RE url (length (m_pre m)) = true.
Proof.
  intros H. apply search_no_match_before in H as (Heq & Hl & _ & Hno).
  unfold COMMON_LIST_N_RE in Hl. cbn [lang] in Hl.
  destruct Hl as (m1 & m2 & Ht & -> & m3 & m4 & -> & [Hne Hd] & ->).
  exists m3. split; [done|]. split; [|done].
  rewrite Heq, Ht. by rewrite <- !app_assoc.
Qed.

(** The shape of a match of the page pattern: the digits are all the digits
    there are. *)
Lemma match_PAGE_inv s rest g :
  match_here true PAGE_RE s = Some (rest, g) ->
  exists w seps ds,
    (lower w = lit "page" \/ lower w = lit "p") /\
    forallb sep_class seps = true /\ digits ds /\
    starts_with_class is_digit rest = false /\
    s = w ++ seps ++ ds ++ rest.
Proof.
  intros Hm. pose proof (match_here_sound _ _ _ _ _ Hm) as [Heq Hl].
  unfold PAGE_RE in Hl. cbn [lang] in Hl.
  destruct Hl as (m1 & m2 & Hc & Hg1 & Hne & Hd).
  assert (exists w seps, m1 = w ++ seps /\ (lower w = lit "page" \/ lower w = lit "p") /\
                         forallb sep_class seps = true) as (w & seps & -> & Hw & Hseps).
  { destruct Hg1 as [(w & seps & -> & Hw & Hs)|(w & seps & -> & Hw & Hs)];
      exists w, seps; auto. }
  destruct (digit_run rest) as (d & post & Hrest & Hdd & Hpost).
  assert (digits (m2 ++ d)) as Hds.
  { split; [by destruct m2|]. by rewrite forallb_app, Hd, Hdd. }
  pose proof (match_PAGE w seps (m2 ++ d) post Hw Hseps Hds Hpost) as Hcan.
  assert (s = w ++ seps ++ (m2 ++ d) ++ post) as Hs.
  { rewrite Heq, Hc, Hrest. by rewrite <- !app_assoc. }
  rewrite <- Hs, Hm in Hcan. injection Hcan as Hr _.
  exists w, seps, (m2 ++ d). by rewrite Hr.
Qed.

Lemma match_INDEX_inv s rest g :
  match_here true (numbered_re "index") s = Some (rest, g) ->
  exists w seps ds,
    lower w = lit "index" /\
    forallb sep_class seps = true /\ digits ds /\
    starts_with_class is_digit rest = false /\
    s = w ++ seps ++ ds ++ rest.
Proof.
  intros Hm. pose proof (match_here_sound _ _ _ _ _ Hm) as [Heq Hl].
  unfold numbered_re in Hl. cbn [lang] in Hl.
  destruct Hl as (w & m2 & Hc & Hw & seps & m3 & -> & Hseps & Hne & Hd).
  destruct (digit_run rest) as (d & post & Hrest & Hdd & Hpost).
  assert (digits (m3 ++ d)) as Hds.
  { split; [by destruct m3|]. by rewrite forallb_app, Hd, Hdd. }
  pose proof (match_INDEX w seps (m3 ++ d) post Hw Hseps Hds Hpost) as Hcan.
  assert (s = w ++ seps ++ (m3 ++ d) ++ post) as Hs.
  { rewrite Heq, Hc, Hrest. by rewrite <- !app_assoc. }
  rewrite <- Hs, Hm in Hcan. injection Hcan as Hr _.
  exists w, seps, (m3 ++ d). by rewrite Hr.
Qed.

Lemma p_not_digit c : lower_char c = "p"%char -> is_digit c = false.
Proof.
  intros H.
  assert (implb (ascii_eqb (lower_char c) "p") (negb (is_digit c)) = true) as Hc.
  { apply (ascii_forallb (fun c => implb (ascii_eqb (lower_char c) "p") (negb (is_digit c)))).
    vm_compute. reflexivity. }
  rewrite H in Hc. cbn in Hc. by apply negb_true_iff in Hc.
Qed.

Lemma page_word_head w seps tail :
  lower w = lit "page" \/ lower w = lit "p" ->
  starts_with_class is_digit (w ++ seps ++ tail) = false /\ w ++ seps ++ tail ≠ [].
Proof.
  intros [Hw|Hw]; (destruct w as [|c w]; [discriminate|]); injection Hw as Hc _;
    (split; [by apply p_not_digit|done]).
Qed.

(** Every successor comes from one of the four rules. *)
Lemma generate_next_url_cases url next :
  generate_next_url url = Some next -> successor_of url next.
Proof.
  destruct generate_next_url_first_match as (_ & H2 & H3 & H4 & _).
  intros Hg. pose proof Hg as Hg0.
  destruct (endswith (lit "common_list.shtml") url) eqn:Hend.
  { unfold generate_next_url in Hg. rewrite Hend in Hg. injection Hg as <-.
    assert (found false (Chars (lit "common_list.shtml")) url = true) as Hf.
    { apply found_iff. apply endswith_spec in Hend as [q ->].
      exists q, (lit "common_list.shtml"), []. by rewrite app_nil_r. }
    unfold found in Hf. destruct (search _ _ url) as [m|] eqn:Hs; [|discriminate].
    apply search_no_match_before in Hs as (Hu & Hl & _ & Hno). cbn [lang] in Hl.
    rewrite Hl in Hu. rewrite Hu in Hno. rewrite Hu at 2.
    rewrite replace_first; [|discriminate|by apply no_literal_before].
    by apply (by_list _ (m_pre m) (m_post m)). }
  unfold generate_next_url in Hg. rewrite Hend in Hg.
  destruct (search false COMMON_LIST_N_RE url) as [m|] eqn:Hs.
  { clear Hg. apply search_COMMON_LIST_N in Hs as (ds & Hds & Hu & Hno).
    pose proof (H2 (m_pre m) ds (m_post m)) as Hr. cbv zeta in Hr.
    rewrite <- Hu in Hr. specialize (Hr Hend Hds Hno).
    rewrite Hg0 in Hr. injection Hr as ->.
    by apply (by_list_n url (m_pre m) ds (m_post m)). }
  assert (found false COMMON_LIST_N_RE url = false) as Hcl by (unfold found; by rewrite Hs).
  destruct (search true PAGE_RE url) as [m'|] eqn:Hp.
  { clear Hg. apply search_no_match_before in Hp as (Hu & _ & Hm & Hno).
    apply match_PAGE_inv in Hm as (w & seps & ds & Hw & Hseps & Hds & Hpost & Ht).
    rewrite Ht in Hu.
    pose proof (H3 (m_pre m') w seps ds (m_post m')) as Hr. cbv zeta in Hr.
    rewrite <- Hu in Hr. specialize (Hr Hend Hcl Hw Hseps Hds Hpost Hno).
    rewrite Hg0 in Hr. injection Hr as ->. rewrite <- !app_assoc.
    by apply (by_page url (m_pre m') w seps ds (m_post m')). }
  assert (found true PAGE_RE url = false) as Hpg by (unfold found; by rewrite Hp).
  destruct (search true (numbered_re "index") url) as [m''|] eqn:Hi; [|discriminate].
  clear Hg. apply search_no_match_before in Hi as (Hu & _ & Hm & Hno).
  apply match_INDEX_inv in Hm as (w & seps & ds & Hw & Hseps & Hds & Hpost & Ht).
  rewrite Ht in Hu.
  pose proof (H4 (m_pre m'') w seps ds (m_post m'')) as Hr. cbv zeta in Hr.
  rewrite <- Hu in Hr. specialize (Hr Hend Hcl Hpg Hw Hseps Hds Hpost Hno).
  rewrite Hg0 in Hr. injection Hr as ->.
  by apply (by_index url (m_pre m'') w seps ds (m_post m'')).
Qed.

(** A successor exists exactly when one of the four rules applies. *)
Lemma generate_next_url_some url :
  is_Some (generate_next_url url) <->
  endswith (lit "common_list.shtml") url = true \/
  found false COMMON_LIST_N_RE url = true \/
  found true PAGE_RE url = true \/
  found true (numbered_re "index") url = true.
Proof.
  unfold generate_next_url, found.
  destruct (endswith _ url); [by split; eauto|].
  destruct (search false COMMON_LIST_N_RE url); [by split; eauto|].
  destruct (search true PAGE_RE url); [by split; eauto 6|].
  destruct (search true (numbered_re "index") url); [by split; eauto 6|].
  split; [by intros [x Hx]|]. by intros [|[|[|]]].
Qed.

Lemma found_mono ic r ic' r' s :
  (forall m rest, lang ic r m rest -> lang ic' r' m rest) ->
  found ic r s = true -> found ic' r' s = true.
Proof.
  intros Hsub. rewrite !found_iff. intros (pre & m & rest & -> & Hl). eauto 6.
Qed.

(** Whatever [generate_next_url] can rewrite, [_has_url_pagination_pattern]
    recognises. *)
Lemma shapes_recognized url :
  endswith (lit "common_list.shtml") url = true \/
  found false COMMON_LIST_N_RE url = true \/
  found true PAGE_RE url = true \/
  found true (numbered_re "index") url = true ->
  _has_url_pagination_pattern url = true.
Proof.
  unfold _has_url_pagination_pattern. cbn [existsb]. rewrite !orb_true_iff.
  intros [H|[H|[H|H]]].
  - left. apply found_iff. apply endswith_spec in H as [q ->].
    exists q, (lit "common_list.shtml"), []. rewrite app_nil_r. split; [done|].
    unfold COMMON_LIST_ANY_RE. cbn [lang].
    exists (lit "common_list"), (lit ".shtml"). split; [done|]. split; [done|].
    exists [], (lit ".shtml"). auto.
  - left. revert H. apply found_mono. intros m rest.
    unfold COMMON_LIST_N_RE, COMMON_LIST_ANY_RE. cbn [lang].
    intros (m1 & m2 & -> & -> & m3 & m4 & -> & Hd & ->).
    exists (lit "common_list"), (lit "_" ++ m3 ++ lit ".shtml").
    split; [done|]. split; [done|].
    exists (lit "_" ++ m3), (lit ".shtml"). split; [done|]. split; [|done].
    right. exists (lit "_"), m3. auto.
  - apply found_iff in H as (pre & m & rest & -> & Hl).
    unfold PAGE_RE in Hl. cbn [lang] in Hl.
    destruct Hl as (m1 & m2 & -> & [(w & seps & -> & Hw & Hs)|(w & seps & -> & Hw & Hs)] & Hd).
    + right. left. apply found_iff. exists pre, ((w ++ seps) ++ m2), rest.
      split; [done|]. unfold numbered_re. cbn [lang].
      exists w, (seps ++ m2). rewrite <- app_assoc. split; [done|]. split; [done|]. eauto.
    + right. right. left. apply found_iff. exists pre, ((w ++ seps) ++ m2), rest.
      split; [done|]. unfold numbered_re. cbn [lang].
      exists w, (seps ++ m2). rewrite <- app_assoc. split; [done|]. split; [done|]. eauto.
  - right. right. right. by left.
Qed.

(** X1.  Whenever [generate_next_url] yields a successor, the URL is one
    that [_has_url_pagination_pattern] recognises, the successor is
    recognised too, and the successor has a successor of its own: in
    UrlPattern mode the chain of synthesized URLs never ends by itself, only
    the existence probe, the set of visited URLs or the page limit end it. *)
Theorem successor_is_recognised url next :
  generate_next_url url = Some next ->
  _has_url_pagination_pattern url = true /\
  _has_url_pagination_pattern next = true /\
  is_Some (generate_next_url next).
Proof.
  intros Hg.
  assert (is_Some (generate_next_url url)) as Hsome by (by rewrite Hg).
  split; [apply shapes_recognized; by apply generate_next_url_some|].
  assert (endswith (lit "common_list.shtml") next = true \/
          found false COMMON_LIST_N_RE next = true \/
          found true PAGE_RE next = true \/
          found true (numbered_re "index") next = true) as Hshape.
  { apply generate_next_url_cases in Hg.
    destruct Hg as [pre post _|pre ds post Hds _|pre w seps ds post Hw Hseps Hds _ _
                   |pre w seps ds post Hw Hseps Hds _ _];
      pose proof (succ_digits_digits ds) as Hsd || idtac.
    - right. left. apply found_iff.
      eexists pre, (lit "common_list_2.shtml"), _. split; [done|].
      unfold COMMON_LIST_N_RE. cbn [lang].
      exists (lit "common_list_"), (lit "2.shtml"). split; [done|]. split; [done|].
      exists (lit "2"), (lit ".shtml"). auto.
    - right. left. apply found_iff.
      eexists pre, (lit "common_list_" ++ succ_digits ds ++ lit ".shtml"), _.
      split; [by rewrite <- !app_assoc|]. unfold COMMON_LIST_N_RE. cbn [lang].
      exists (lit "common_list_"), (succ_digits ds ++ lit ".shtml").
      split; [done|]. split; [done|].
      exists (succ_digits ds), (lit ".shtml"). auto.
    - right. right. left. apply found_iff.
      eexists pre, ((w ++ seps) ++ succ_digits ds), _.
      split; [by rewrite <- !app_assoc|]. unfold PAGE_RE. cbn [lang].
      exists (w ++ seps), (succ_digits ds). split; [done|]. split; [|done].
      destruct Hw as [Hw|Hw]; [left|right]; exists w, seps; auto.
    - right. right. right. apply found_iff.
      eexists pre, (lit "index_" ++ succ_digits ds), _.
      split; [by rewrite <- !app_assoc|]. unfold numbered_re. cbn [lang].
      exists (lit "index"), (lit "_" ++ succ_digits ds). split; [done|]. split; [done|].
      exists (lit "_"), (succ_digits ds). auto. }
  split; [by apply shapes_recognized|by apply generate_next_url_some].
Qed.

Lemma successor_is_recognised_witness :
  generate_next_url (lit "http://x/news/p3.html") = Some (lit "http://x/news/p4.html") /\
  _has_url_pagination_pattern (lit "http://x/news/p3.html") = true /\
  _has_url_pagination_pattern (lit "http://x/news/p4.html") = true /\
  is_Some (generate_next_url (lit "http://x/news/p4.html")).
Proof.
  assert (generate_next_url (lit "http://x/news/p3.html") = Some (lit "http://x/news/p4.html"))
    as Hg by (vm_compute; reflexivity).
  split; [exact Hg|]. exact (successor_is_recognised _ _ Hg).
Defined.

(** X2.  The successor [generate_next_url] yields is never the URL it was
    given: a crawl in UrlPattern mode cannot stand still on one page. *)
Theorem generate_next_url_moves url next :
  generate_next_url url = Some next -> next ≠ url.
Proof.
  intros Hg Heq. subst next. apply generate_next_url_cases in Hg.
  remember url as u eqn:Hu in Hg at 2.
  destruct Hg as [pre post Hurl|pre ds post Hds Hurl|pre w seps ds post Hw Hseps Hds Hpost Hurl
                 |pre w seps ds post Hw Hseps Hds Hpost Hurl];
    rewrite Hurl in Hu; apply app_inv_head in Hu.
  - discriminate Hu.
  - cbn [app lit list_ascii_of_string] in Hu. injection Hu as Hu.
    change (?a :: ?b :: ?c :: ?d :: ?e :: ?f :: ?x) with (lit ".shtml" ++ x) in Hu.
    destruct Hds as [_ Hd]. destruct (succ_digits_digits ds) as [_ Hsd].
    apply digit_runs_eq in Hu; [|done|done|done|done].
    by apply succ_digits_neq in Hu.
  - do 2 apply app_inv_head in Hu.
    destruct (page_word_head w seps (succ_digits ds) Hw) as [Hhead Hne].
    destruct Hds as [_ Hd]. destruct (succ_digits_digits ds) as [_ Hsd].
    apply digit_runs_eq in Hu; [|done|done|by apply sub_head_class|done].
    by apply succ_digits_neq in Hu.
  - do 6 (destruct w as [|? w]; try discriminate Hw).
    cbn in Hu. injection Hu as <- <- <- <- <- Hu.
    destruct (succ_digits_digits ds) as [Hsn Hsd]. destruct Hds as [Hne Hd].
    assert (starts_with_class is_digit
              (sub true INDEX_SUB_RE (lit "index_" ++ succ_digits ds) post) = false) as HX.
    { by apply sub_head_class. }
    destruct seps as [|s1 seps].
    + destruct ds as [|d ds]; [done|]. cbn in Hu. injection Hu as <- _. discriminate Hd.
    + cbn in Hu. injection Hu as <- Hu. destruct seps as [|s2 seps].
      * cbn in Hu. apply digit_runs_eq in Hu; [|done|done|done|done].
        by apply succ_digits_neq in Hu.
      * destruct (succ_digits ds) as [|d sd]; [done|]. cbn in Hu. injection Hu as <- _.
        cbn [forallb] in Hsd, Hseps. apply andb_true_iff in Hsd as [Hd2 _].
        apply andb_true_iff in Hseps as [_ Hseps]. apply andb_true_iff in Hseps as [Hs2 _].
        apply digit_not_sep in Hd2. congruence.
Qed.

Lemma generate_next_url_moves_witness :
  generate_next_url (lit "http://x/index_9.html") = Some (lit "http://x/index_10.html") /\
  lit "http://x/index_10.html" ≠ lit "http://x/index_9.html".
Proof.
  assert (generate_next_url (lit "http://x/index_9.html") = Some (lit "http://x/index_10.html"))
    as Hg by (vm_compute; reflexivity).
  split; [exact Hg|]. exact (generate_next_url_moves _ _ Hg).
Defined.

(** X3.  In UrlPattern mode the successor is probed twice for every page
    that is not the last: once by [is_last_page] and, one tick later, once
    more by [smart_next].  When the first probe is answered with status 200
    the page is not called terminal, and the second answer alone decides
    whether the crawl moves on or stops there. *)
Theorem url_mode_probes_twice (E : Env) soup url next st r1 :
  generate_next_url url = Some next ->
  request E (clock st) HEAD next = Some r1 ->
  status_code r1 = 200 ->
  is_last_page E soup url (Some Url) st
    = (Ok false, after st 1 [Request HEAD next false 10]) /\
  forall r2,
    request E (S (clock st)) HEAD next = Some r2 ->
    smart_next E soup url (Some Url) (after st 1 [Request HEAD next false 10]) =
    if (status_code r2 =? 200)%nat then
      (Ok (Some next),
       after st 2 [Request HEAD next false 10; Request HEAD next false 10;
                   Log INFO (lit "Using URL pagination: " ++ next)])
    else
      (Ok None,
       after st 2 [Request HEAD next false 10; Request HEAD next false 10;
                   Log INFO (lit "Next URL does not exist (reached last page): " ++ next)]).
Proof.
  intros Hg H1 Hs1. pose proof (generate_next_url_nonempty _ _ Hg) as Hne.
  destruct next as [|c u]; [done|]. split.
  - unfold is_last_page. rewrite Hg. unfold mbind, M_bind, bind.
    rewrite url_exists_eq, H1, Hs1. reflexivity.
  - intros r2 H2. unfold smart_next. rewrite Hg. unfold mbind at 1, M_bind, bind.
    rewrite url_exists_eq. cbn [clock after Nat.add]. rewrite H2.
    destruct (status_code r2 =? 200)%nat; munfold; unfold after; cbn;
      by rewrite <- !app_assoc.
Qed.

Lemma url_mode_probes_twice_witness :
  let next := lit "http://x/index_10.html" in
  let E := fx_env [(HEAD, next, mkResponse 200 [] [] true)] (fun _ => true) in
  is_last_page E [] (lit "http://x/index_9.html") (Some Url) (init ∅)
    = (Ok false, after (init ∅) 1 [Request HEAD next false 10]) /\
  smart_next E [] (lit "http://x/index_9.html") (Some Url)
             (after (init ∅) 1 [Request HEAD next false 10])
    = (Ok (Some next),
       after (init ∅) 2 [Request HEAD next false 10; Request HEAD next false 10;
                         Log INFO (lit "Using URL pagination: " ++ next)]).
Proof.
  intros next E.
  destruct (url_mode_probes_twice E [] (lit "http://x/index_9.html") next (init ∅)
              (mkResponse 200 [] [] true)) as [Hlast Hnext].
  - vm_compute. reflexivity.
  - reflexivity.
  - reflexivity.
  - split; [exact Hlast|]. exact (Hnext (mkResponse 200 [] [] true) eq_refl).
Defined.

End Successor.

(* ===================================================================== *)
(** ** Transfers: what a call of [download] leaves behind *)
(* ===================================================================== *)

Module Transfers.
Import Py Re Bs4 Crawler Fixture Notions StrFacts MFacts Classifier Store Orchestrator.

Section Calls.
Variable E : Env.

(** A call that is not skipped is the transfer. *)
Lemma download_started url name st :
  url ∉ downloaded st \/ valid_names name = false ->
  download E url name st =
  (r ← send E GET url true 60;
   raise_for_status r ;; open_wb E (file_of E name) ;; write_stream E (file_of E name) r ;;
   _save_downloaded E url ;; log INFO (lit "Downloaded: " ++ name)) st.
Proof.
  intros Hcond. unfold download. unfold mbind at 1, M_bind, bind, get_downloaded.
  assert (bool_decide (url ∈ downloaded st) && valid_names name = false) as ->; [|done].
  destruct Hcond as [Hn| ->]; [|by rewrite andb_false_r].
  by rewrite bool_decide_eq_false_2.
Qed.

(** Writing chunks: the target holds what it held and the chunks that were
    written before a write failed. *)
Lemma write_chunks_prefix name cs st res st' :
  for_each cs (write E name) st = (res, st') ->
  exists k, k <= length cs /\
    default [] (disk st' !! name) = default [] (disk st !! name) ++ concat (take k cs) /\
    (res = Ok tt -> k = length cs).
Proof.
  revert st. induction cs as [|c cs IH]; intros st; cbn [for_each].
  - intros [= <- <-]. exists 0. rewrite app_nil_r. auto.
  - intros H. apply bind_inv in H as [(a & st1 & Hw & Hrest)|(e & Hw & ->)].
    + rewrite write_eq in Hw. destruct (fs_ok E (clock st)); [|discriminate].
      injection Hw as _ <-. apply IH in Hrest as (k & Hk & Hd & Hn). cbn in *.
      exists (S k). split; [lia|]. split.
      * rewrite Hd, lookup_insert_eq. cbn. by rewrite <- app_assoc.
      * intros Hok. by rewrite (Hn Hok).
    + rewrite write_eq in Hw. destruct (fs_ok E (clock st)); [discriminate|].
      injection Hw as _ <-. cbn. exists 0. rewrite app_nil_r. repeat split; [lia|discriminate].
Qed.

(** X6.  A call of [download] that is not skipped and whose request fails,
    or is answered with a status from 400 to 599, raises before the target
    file is opened: the only trace of the call is the request, and neither
    the files of the download directory (an earlier copy of the file among
    them) nor the set of downloaded URLs change. *)
Theorem rejected_download_changes_nothing url name st e :
  url ∉ downloaded st \/ valid_names name = false ->
  match request E (clock st) GET url with
  | None => e = RequestException
  | Some r => 400 <= status_code r < 600 /\ e = HTTPError (status_code r)
  end ->
  download E url name st = (Raise e, after st 1 [Request GET url true 60]).
Proof.
  intros Hcond Hreq. rewrite download_started by done.
  unfold mbind at 1, M_bind, bind. rewrite send_eq.
  destruct (request E (clock st) GET url) as [r|]; [|by subst e].
  destruct Hreq as [[Hlo Hhi] ->]. unfold mbind at 1, M_bind, bind, raise_for_status.
  assert ((400 <=? status_code r)%nat && (status_code r <? 600)%nat = true) as ->; [|done].
  apply andb_true_iff. split; [by apply Nat.leb_le|by apply Nat.ltb_lt].
Qed.

(** X7.  Once the response is accepted and the target file, a file other
    than the record, is opened, the file holds nothing but what this call
    wrote: the chunks that arrived before the call ended, all of them when it
    returns.  Whatever the file held before is gone, also when the transfer
    breaks. *)
Theorem download_truncates_first url name st res st' r :
  file_of E name ≠ record_name ->
  url ∉ downloaded st \/ valid_names name = false ->
  request E (clock st) GET url = Some r ->
  ~ (400 <= status_code r < 600) ->
  fs_ok E (S (clock st)) = true ->
  download E url name st = (res, st') ->
  exists k, k <= length (chunks r) /\
    disk st' !! file_of E name = Some (concat (take k (chunks r))) /\
    (res = Ok tt -> k = length (chunks r) /\ stream_ok r = true).
Proof.
  intros Hname Hcond Hreq Hstatus Hfs. rewrite download_started by done.
  intros H.
  apply bind_inv in H as [(r' & st1 & Hs & H)|(e & Hs & ->)]; rewrite send_eq, Hreq in Hs;
    [injection Hs as <- <-|discriminate].
  apply bind_inv in H as [(? & st2 & Hr & H)|(e & Hr & ->)].
  2:{ exfalso. unfold raise_for_status in Hr.
      destruct (_ && _) eqn:Hb; [|discriminate]. apply andb_true_iff in Hb as [H1 H2].
      apply Nat.leb_le in H1. apply Nat.ltb_lt in H2. lia. }
  apply raise_for_status_inv in Hr as ->.
  apply bind_inv in H as [(? & st2 & Ho & H)|(e & Ho & ->)];
    rewrite open_wb_eq in Ho; cbn [clock disk downloaded trace after] in Ho;
    change (1 + clock st) with (S (clock st)) in Ho; rewrite Hfs in Ho; simplify_eq.
  assert (forall st3 res3,
            for_each (chunks r) (write E (file_of E name))
              {| downloaded := downloaded st; disk := <[file_of E name:=[]]> (disk st);
                 clock := S (S (clock st)); trace := trace st ++ [Request GET url true 60] |}
            = (res3, st3) ->
            exists k, k <= length (chunks r) /\
              disk st3 !! file_of E name = Some (concat (take k (chunks r))) /\
              (res3 = Ok tt -> k = length (chunks r))) as Hchunks.
  { intros st3 res3 Hc.
    pose proof (write_chunks_inv E _ _ _ _ _ Hc) as (_ & _ & _ & Hsome & _).
    apply write_chunks_prefix in Hc as (k & Hle & Hpre & Hall).
    cbn [disk] in Hpre, Hsome. rewrite lookup_insert_eq in Hpre, Hsome. cbn in Hpre.
    destruct (Hsome (mk_is_Some _ _ eq_refl)) as [c Hl]. rewrite Hl in Hpre. cbn in Hpre.
    subst c. eauto. }
  unfold write_stream in H.
  apply bind_inv in H as [(? & st3 & Hw & H)|(e & Hw & ->)].
  - apply bind_inv in Hw as [(? & st4 & Hc & Hk)|(e & Hc & [=])].
    apply Hchunks in Hc as (k & Hle & Hfile & Hall).
    assert (disk st3 = disk st4 /\ stream_ok r = true) as [Hd3 Hok].
    { destruct (stream_ok r); munfold; simplify_eq. done. }
    assert (disk st' !! file_of E name = disk st3 !! file_of E name) as ->.
    { apply bind_inv in H as [(? & st5 & Hsv & H)|(e & Hsv & ->)];
        apply save_downloaded_inv in Hsv as (_ & Hkeep & _).
      - unfold log, emit in H. simplify_eq. cbn [disk]. by apply Hkeep.
      - by apply Hkeep. }
    exists k. rewrite Hd3. split; [done|]. split; [done|].
    intros _. split; [|done]. apply Hall. by destruct x1.
  - apply bind_inv in Hw as [(? & st4 & Hc & Hk)|(e' & Hc & Heq)].
    + apply Hchunks in Hc as (k & Hle & Hfile & Hall).
      assert (disk st' = disk st4) as ->.
      { destruct (stream_ok r); munfold; by simplify_eq. }
      exists k. split; [done|]. split; [done|]. discriminate.
    + apply Hchunks in Hc as (k & Hle & Hfile & Hall).
      exists k. split; [done|]. split; [done|]. discriminate.
Qed.

(** A call that returns has the URL in the set. *)
Lemma download_ok_marks url name st a st' :
  download E url name st = (Ok a, st') -> url ∈ downloaded st'.
Proof.
  unfold download.
  unfold mbind at 1, M_bind, bind, get_downloaded.
  destruct (bool_decide (url ∈ downloaded st) && valid_names name) eqn:Hskip.
  { intros [= <- <-]. apply andb_true_iff in Hskip as [Hin Hv].
    by apply bool_decide_eq_true in Hin. }
  clear Hskip. intros H.
  apply bind_inv in H as [(r & st1 & Hs & H)|(e & Hs & [=])].
  apply bind_inv in H as [(? & st2 & Hr & H)|(e & Hr & [=])].
  apply bind_inv in H as [(? & st3 & Ho & H)|(e & Ho & [=])].
  apply bind_inv in H as [(? & st4 & Hw & H)|(e & Hw & [=])].
  apply bind_inv in H as [(? & st5 & Hsv & H)|(e & Hsv & [=])].
  apply save_downloaded_inv in Hsv as (_ & _ & Hd & _).
  unfold log, emit in H. simplify_eq. cbn [downloaded]. rewrite Hd.
  apply elem_of_union_l. by apply elem_of_singleton.
Qed.

Lemma download_grows url name st res st' :
  download E url name st = (res, st') -> downloaded st ⊆ downloaded st'.
Proof.
  intros H. apply download_effect in H as [(_ & _ & _ & ->)|(_ & Hsub & _)]; done.
Qed.

Lemma download_all_marks files st st' :
  download_all E files st = (Ok tt, st') ->
  downloaded st ⊆ downloaded st' /\
  forall u n, (u, n) ∈ files -> u ∈ downloaded st'.
Proof.
  unfold download_all. revert st. induction files as [|[u n] files IH]; intros st; cbn [for_each].
  - intros [= <-]. split; [done|]. intros u n Hin. by apply elem_of_nil in Hin.
  - intros H. apply bind_inv in H as [([] & st1 & Hh & Ht)|(e & _ & [=])].
    apply bind_inv in Hh as [([] & st2 & Hd & Hsl)|(e & _ & [=])].
    unfold sleep, emit in Hsl. simplify_eq.
    apply IH in Ht as [Hsub Hall]. cbn [downloaded] in Hsub.
    pose proof (download_grows _ _ _ _ _ Hd) as Hg.
    pose proof (download_ok_marks _ _ _ _ _ Hd) as Hm.
    split; [by etrans|]. intros u' n' Hin. apply elem_of_cons in Hin as [Heq|Hin].
    + injection Heq as -> ->. by apply Hsub.
    + by eapply Hall.
Qed.

End Calls.

Lemma download_all_skips (E : Env) files st :
  (forall u n, (u, n) ∈ files -> u ∈ downloaded st /\ valid_names n = true) ->
  download_all E files st = (Ok tt, after st 0 (replicate (length files) (Sleep 1))).
Proof.
  unfold download_all. revert st. induction files as [|[u n] files IH]; intros st Hall;
    cbn [for_each length replicate].
  - unfold after. cbn. rewrite app_nil_r. by destruct st.
  - destruct (Hall u n ltac:(by left)) as [Hin Hv].
    unfold mbind at 1, M_bind at 1, bind at 1.
    unfold mbind at 1, M_bind at 1, bind at 1.
    rewrite download_skip by done. unfold sleep at 1, emit at 1.
    rewrite IH.
    + unfold after. cbn. by rewrite <- app_assoc.
    + intros u' n' Hin'. cbn [downloaded]. apply Hall. by right.
Qed.

Lemma rejected_download_changes_nothing_witness :
  let E := fx_env [] (fun _ => true) in
  let st := init {[ lit "a.csv" := lit "old" ]} in
  download E file_url (lit "a.csv") st
    = (Raise RequestException, after st 1 [Request GET file_url true 60]) /\
  disk (after st 1 [Request GET file_url true 60]) !! lit "a.csv" = Some (lit "old").
Proof.
  intros E st. split; [|reflexivity].
  apply (rejected_download_changes_nothing E file_url (lit "a.csv") st RequestException).
  - left. cbn. apply not_elem_of_empty.
  - reflexivity.
Defined.

Lemma download_truncates_first_witness :
  let E := fx_env site_broken_stream (fun _ => true) in
  let st := init {[ lit "a.csv" := lit "an earlier copy, complete" ]} in
  let out := download E file_url (lit "a.csv") st in
  fst out = Raise RequestException /\
  exists k, k <= 1 /\ disk (snd out) !! lit "a.csv" = Some (concat (take k [lit "aaa"])).
Proof.
  intros E st out. split; [reflexivity|].
  destruct (download_truncates_first E file_url (lit "a.csv") st (fst out) (snd out)
              (mkResponse 200 [] [lit "aaa"] false)) as (k & Hk & Hfile & _).
  - discriminate.
  - left. cbn. apply not_elem_of_empty.
  - reflexivity.
  - cbn. lia.
  - reflexivity.
  - apply surjective_pairing.
  - exists k. split; [exact Hk|exact Hfile].
Defined.

(** X8.  File names are not made unique.  When two calls of [download]
    that are not skipped go to names that denote the same file, a file other
    than the record, and both return, the file holds the chunks of the second
    response only, while both URLs are in the set and on the last two lines
    of the record (the same URL twice, when a name that is no data-file name
    made the second call fetch it again). *)
Theorem downloads_share_a_name (E : Env) u1 u2 n1 n2 st st1 st2 :
  file_of E n1 = file_of E n2 ->
  file_of E n1 ≠ record_name ->
  u1 ∉ downloaded st \/ valid_names n1 = false ->
  u2 ∉ downloaded st1 \/ valid_names n2 = false ->
  download E u1 n1 st = (Ok tt, st1) ->
  download E u2 n2 st1 = (Ok tt, st2) ->
  exists r1 r2,
    request E (clock st) GET u1 = Some r1 /\
    request E (clock st1) GET u2 = Some r2 /\
    disk st1 !! file_of E n1 = Some (concat (chunks r1)) /\
    disk st2 !! file_of E n1 = Some (concat (chunks r2)) /\
    downloaded st2 = {[u2]} ∪ ({[u1]} ∪ downloaded st) /\
    record_of (disk st2) = record_of (disk st) ++ (u1 ++ newline) ++ (u2 ++ newline).
Proof.
  intros Hsame Hn Hc1 Hc2 H1 H2.
  pose proof (download_outcomes E _ _ _ _ _ Hn H1) as Ho1. cbv beta iota in Ho1.
  destruct Ho1 as [(Hin & Hv & _)|(r1 & Hr1 & _ & Hf1 & Hd1 & Hrec1)].
  { destruct Hc1 as [Hc|Hc]; [done|congruence]. }
  rewrite Hsame in Hn.
  pose proof (download_outcomes E _ _ _ _ _ Hn H2) as Ho2. cbv beta iota in Ho2.
  destruct Ho2 as [(Hin & Hv & _)|(r2 & Hr2 & _ & Hf2 & Hd2 & Hrec2)].
  { destruct Hc2 as [Hc|Hc]; [done|congruence]. }
  exists r1, r2. repeat split; try done.
  - by rewrite Hsame.
  - by rewrite Hd2, Hd1.
  - assert (record_of (disk st1) = record_of (disk st) ++ u1 ++ newline) as Hone
      by (unfold record_of at 1; by rewrite Hrec1).
    assert (record_of (disk st2) = record_of (disk st1) ++ u2 ++ newline) as ->
      by (unfold record_of at 1; by rewrite Hrec2).
    by rewrite Hone, <- !app_assoc.
Qed.

Lemma downloads_share_a_name_witness :
  let E := fx_env [(GET, file_url, file_reply ["aaa"]); (GET, b_url, file_reply ["bbb"])]
                  (fun _ => true) in
  let st1 := snd (download E file_url (lit "Data") (init ∅)) in
  let st2 := snd (download E b_url (lit "./Data") st1) in
  disk st1 !! lit "Data" = Some (lit "aaa") /\
  disk st2 !! lit "Data" = Some (lit "bbb") /\
  record_of (disk st2) = (file_url ++ newline) ++ (b_url ++ newline).
Proof.
  intros E st1 st2.
  assert (download E file_url (lit "Data") (init ∅) = (Ok tt, st1)) as H1.
  { rewrite (surjective_pairing (download E file_url (lit "Data") (init ∅))).
    f_equal. }
  assert (download E b_url (lit "./Data") st1 = (Ok tt, st2)) as H2.
  { rewrite (surjective_pairing (download E b_url (lit "./Data") st1)). f_equal. }
  destruct (downloads_share_a_name E file_url b_url (lit "Data") (lit "./Data")
              (init ∅) st1 st2)
    as (r1 & r2 & Hr1 & Hr2 & Hf1 & Hf2 & _ & Hrec);
    [reflexivity|discriminate|by right|by right|done|done|].
  injection Hr1 as <-.
  assert (request E (clock st1) GET b_url = Some (file_reply ["bbb"])) as Hb by reflexivity.
  rewrite Hb in Hr2. injection Hr2 as <-.
  split; [exact Hf1|]. split; [exact Hf2|exact Hrec].
Defined.

(** X9.  When the loop over the file links of a page ends without an error,
    every URL of the list is in the set of downloaded URLs; and if every
    name of the list ends in csv, xls or xlsx, going through the same list
    once more, against whatever server, sends no request and changes no
    file: it only sleeps, one second for each link. *)
Theorem download_all_marks_then_skips (E : Env) files st st1 :
  download_all E files st = (Ok tt, st1) ->
  (forall u n, (u, n) ∈ files -> u ∈ downloaded st1) /\
  ((forall u n, (u, n) ∈ files -> valid_names n = true) ->
   forall E2, download_all E2 files st1
              = (Ok tt, after st1 0 (replicate (length files) (Sleep 1)))).
Proof.
  intros H. apply download_all_marks in H as [_ Hall]. split; [exact Hall|].
  intros Hvalid E2. apply download_all_skips. intros u n Hin. split; [by eapply Hall|].
  by eapply Hvalid.
Qed.

Lemma download_all_marks_then_skips_witness :
  let E := fx_env site_named (fun _ => true) in
  let files := [(file_url, lit "a.csv"); (lit "http://x/b.xls", lit "Table.xls")] in
  let st1 := snd (download_all E files (init ∅)) in
  download_all (fx_env [] (fun _ => false)) files st1
    = (Ok tt, after st1 0 [Sleep 1; Sleep 1]).
Proof.
  intros E files st1.
  assert (download_all E files (init ∅) = (Ok tt, st1)) as H1.
  { rewrite (surjective_pairing (download_all E files (init ∅))). f_equal. }
  destruct (download_all_marks_then_skips E files (init ∅) st1 H1) as [_ Hskip].
  apply Hskip. intros u n Hin.
  apply list_elem_of_In in Hin. cbn in Hin.
  destruct Hin as [Hin|[Hin|[]]]; injection Hin as <- <-; reflexivity.
Defined.

End Transfers.

(* ===================================================================== *)
(** ** The record: what is saved is what is loaded *)
(* ===================================================================== *)

Module Record.
Import Py Re Bs4 Crawler Fixture Notions StrFacts MFacts Store.

Ltac break_case := intros H; vm_compute in H; (discriminate H || reflexivity).

(** A line feed after a text without a line break completes no line break
    that the text did not have. *)
Lemma line_break_nl c t rest :
  line_break (c :: t) = None -> line_break (c :: t ++ newline ++ rest) = None.
Proof.
  destruct c as [[] [] [] [] [] [] [] []]; try break_case.
  all: destruct t as [|c2 t]; [break_case|];
       destruct c2 as [[] [] [] [] [] [] [] []]; try break_case.
  all: destruct t as [|c3 t]; [break_case|];
       destruct c3 as [[] [] [] [] [] [] [] []]; break_case.
Qed.

Lemma break_free_line u cur rest :
  break_free u = true ->
  splitlines_from cur 0 (u ++ newline ++ rest) = (rev cur ++ u) :: splitlines_from [] 0 rest.
Proof.
  revert cur. induction u as [|c u IH]; intros cur Hu.
  - cbn [app newline splitlines_from].
    change (line_break ("010"%char :: rest)) with (Some rest).
    rewrite app_nil_r. by replace (length rest - length rest) with 0 by lia.
  - cbn [break_free] in Hu. destruct (line_break (c :: u)) eqn:Hb; [discriminate|].
    change ((c :: u) ++ newline ++ rest) with (c :: u ++ newline ++ rest).
    cbn [splitlines_from]. rewrite (line_break_nl _ _ _ Hb).
    rewrite (IH (c :: cur) Hu). cbn [rev]. by rewrite <- app_assoc.
Qed.

(** [splitlines] gives back the lines a record was written from. *)
Lemma splitlines_record us :
  Forall (fun u => break_free u = true) us -> splitlines (record_lines us) = us.
Proof.
  unfold splitlines, record_lines. induction 1 as [|u us Hu Hus IH]; [done|].
  cbn [map concat]. rewrite <- app_assoc. rewrite break_free_line by done.
  cbn [rev app]. by rewrite IH.
Qed.

Lemma record_lines_snoc us u : record_lines (us ++ [u]) = record_lines us ++ u ++ newline.
Proof. unfold record_lines. rewrite map_app, concat_app. cbn. by rewrite !app_nil_r. Qed.

(** X10.  What [_save_downloaded] records, [_load_downloaded] reads back.
    Over a record that holds one URL a line, a call for a URL without a line
    break that returns leaves such a record with the URL as its last line,
    and an object created over the directory afterwards starts with the set
    it would have started with before, and that URL.  Whether the call
    returns or raises, a set in memory that agreed with the record before
    the call agrees with it after the call. *)
Theorem save_then_load (E : Env) url us st res st' :
  record_of (disk st) = record_lines us ->
  Forall (fun u => break_free u = true) us ->
  break_free url = true ->
  _save_downloaded E url st = (res, st') ->
  (res = Ok tt ->
   record_of (disk st') = record_lines (us ++ [url]) /\
   downloaded (init (disk st')) = {[url]} ∪ downloaded (init (disk st))) /\
  (downloaded st = downloaded (init (disk st)) ->
   downloaded st' = downloaded (init (disk st'))).
Proof.
  intros Hrec Hus Hurl H. apply save_downloaded_inv in H as (_ & _ & H).
  destruct res as [[]|e].
  - destruct H as [Hd Hr].
    assert (record_of (disk st') = record_lines (us ++ [url])) as Hrec'.
    { unfold record_of at 1. rewrite Hr. cbn. by rewrite record_lines_snoc, Hrec. }
    assert (downloaded (init (disk st')) = {[url]} ∪ downloaded (init (disk st))) as Hload.
    { cbn [init downloaded]. rewrite !load_downloaded_record, Hrec, Hrec'.
      rewrite !splitlines_record; [|done|].
      - rewrite list_to_set_app_L. cbn. rewrite (right_id_L ∅ (∪)). apply (comm_L (∪)).
      - apply Forall_app. split; [done|]. by constructor. }
    split; [done|]. intros Hc. by rewrite Hload, Hd, Hc.
  - destruct H as [Hd Hr]. split; [discriminate|]. intros Hc.
    cbn [init downloaded]. rewrite !load_downloaded_record, Hr, Hd, Hc.
    cbn [init downloaded]. by rewrite load_downloaded_record.
Qed.

Lemma save_then_load_witness :
  let E := fx_env [] (fun _ => true) in
  let st := init dir_with_record in
  let st' := snd (_save_downloaded E b_url st) in
  record_of (disk st') = record_lines [file_url; b_url] /\
  downloaded (init (disk st')) = {[b_url]} ∪ downloaded st /\
  downloaded st' = downloaded (init (disk st')).
Proof.
  intros E st st'.
  destruct (save_then_load E b_url [file_url] st (Ok tt) st') as [Hok Hkeep].
  - reflexivity.
  - repeat constructor.
  - reflexivity.
  - rewrite (surjective_pairing (_save_downloaded E b_url st)). f_equal.
  - destruct (Hok eq_refl) as [Hrec Hload]. split; [exact Hrec|]. split; [exact Hload|].
    apply Hkeep. reflexivity.
Defined.

End Record.

(* ===================================================================== *)
(** ** Passes of the crawl loop: counters, limits and degenerate runs *)
(* ===================================================================== *)

Module Passes.
Import Py Re Bs4 Crawler Fixture Notions StrFacts MFacts Store Orchestrator.

Lemma any_step_refl st : any_step st st.
Proof. done. Qed.

Lemma any_step_trans a b c : any_step a b -> any_step b c -> any_step a c.
Proof. done. Qed.

Lemma hoare_any {A} (m : M A) : hoare any_step m (fun _ => True) (fun _ => True).
Proof. intros st res st' _. split; [done|by destruct res]. Qed.

Lemma hoare_any_bind {A B} (m : M A) (f : A -> M B) Q :
  (forall a, hoare any_step (f a) Q (fun _ => True)) ->
  hoare any_step (m ≫= f) Q (fun _ => True).
Proof.
  intros Hf. eapply (hoare_bind any_step any_step_trans); [apply hoare_any|].
  intros a _. apply Hf.
Qed.

Lemma hoare_any_ret {A} (a : A) (Q : A -> Prop) :
  Q a -> hoare any_step (mret a) Q (fun _ => True).
Proof. apply (hoare_ret any_step any_step_refl). Qed.

Section Pass.
Variable E : Env.

Lemma error_flow_step l cur : step_of l (error_flow l cur).
Proof.
  unfold error_flow. destruct (pagination_mode l) as [[]|] eqn:Hm; cbn; try done.
  destruct (_ && _); cbn; rewrite ?Hm; eauto.
Qed.

Lemma on_page_error_step l cur e :
  hoare any_step (on_page_error l cur e) (step_of l) (fun _ => True).
Proof.
  intros st res st'. rewrite on_page_error_eq. intros [= <- <-].
  split; [done|apply error_flow_step].
Qed.

Lemma process_page_step l cur soup :
  hoare any_step (process_page E l cur soup) (step_of l) (fun _ => True).
Proof.
  unfold process_page. apply hoare_any_bind. intros [files contents].
  apply hoare_any_bind. intros _. apply hoare_any_bind. intros _.
  destruct (pagination_mode l) as [mode|] eqn:Hm.
  - apply hoare_any_bind. intros [].
    + apply hoare_any_bind. intros _. by apply hoare_any_ret.
    + apply hoare_any_bind. intros next. apply hoare_any_bind. intros _.
      apply hoare_any_ret. cbn. eauto.
  - apply hoare_any_bind. intros _. by apply hoare_any_ret.
Qed.

Lemma detect_once_step l cur soup :
  hoare any_step (detect_once E l cur soup)
        (fun l2 => page l2 = page l /\ visited l2 = visited l) (fun _ => True).
Proof.
  unfold detect_once. destruct (pagination_mode l).
  - by apply hoare_any_ret.
  - apply hoare_any_bind. intros mode. apply hoare_any_bind. intros _.
    by apply hoare_any_ret.
Qed.

Lemma step_of_eq l l' f :
  page l' = page l -> visited l' = visited l -> step_of l' f -> step_of l f.
Proof. intros Hp Hv. destruct f; cbn; by rewrite Hp, Hv. Qed.

(** One pass through the body of the loop. *)
Lemma loop_body_pass max_pages l cur :
  hoare any_step (loop_body E max_pages l cur) (pass_ok max_pages l cur) (fun _ => True).
Proof.
  unfold loop_body. destruct (bool_decide (cur ∈ visited l)) eqn:Hv.
  { apply hoare_any_bind. intros _. apply hoare_any_ret. cbn. auto. }
  apply bool_decide_eq_false in Hv.
  destruct (match max_pages with Some (S n) => _ | _ => false end) eqn:Hmax.
  { apply hoare_any_bind. intros _. apply hoare_any_ret. cbn. auto. }
  assert (within_limit max_pages (page l)) as Hlim.
  { unfold within_limit. destruct max_pages as [[|n]|]; try done.
    apply Nat.ltb_ge in Hmax. lia. }
  set (l1 := mkLocals (current l) ({[cur]} ∪ visited l) (page l) (pagination_mode l)).
  assert (forall f, step_of l1 f -> pass_ok max_pages l cur f) as Hpass.
  { intros [l'|l']; cbn; intros H; destruct_and?; auto 6. }
  apply hoare_any_bind. intros _. apply hoare_any_bind. intros [soup|e].
  2:{ eapply hoare_weaken; [apply on_page_error_step|exact Hpass|done]. }
  eapply (hoare_bind any_step any_step_trans).
  { instantiate (1 := fun d => match d with
                               | inl l2 => page l2 = page l1 /\ visited l2 = visited l1
                               | inr _ => True
                               end).
    eapply (hoare_try any_step any_step_trans).
    - eapply (hoare_bind any_step any_step_trans); [apply detect_once_step|].
      intros l2 Hl2. by apply hoare_any_ret.
    - intros e _. by apply hoare_any_ret. }
  intros [l2|e] Hl2.
  2:{ eapply hoare_weaken; [apply on_page_error_step|exact Hpass|done]. }
  destruct Hl2 as [Hp2 Hv2].
  eapply (hoare_try any_step any_step_trans).
  - eapply hoare_weaken; [apply process_page_step| |done].
    intros f Hf. apply Hpass. by eapply step_of_eq.
  - intros e _. eapply hoare_weaken; [apply on_page_error_step| |done].
    intros f Hf. apply Hpass. by eapply step_of_eq.
Qed.

Lemma loop_body_total max_pages l cur st :
  exists f st', loop_body E max_pages l cur st = (Ok f, st').
Proof.
  destruct (loop_body E max_pages l cur st) as [res st'] eqn:H.
  eapply (hoare_loop_body E any_step any_step_refl any_step_trans) in H as [_ Hres].
  - destruct res as [f|e]; [eauto|done].
  - done.
  - done.
  - instantiate (1 := fun _ => True). intros u n _. apply hoare_any.
  - done.
Qed.

Lemma loop_body_pass_ok max_pages l cur st f st' :
  loop_body E max_pages l cur st = (Ok f, st') -> pass_ok max_pages l cur f.
Proof. intros H. by apply (loop_body_pass max_pages l cur) in H as [_ H]. Qed.

Lemma size_visited_add (cur : str) (v : gset str) : cur ∉ v -> size ({[cur]} ∪ v) = S (size v).
Proof. intros Hnew. rewrite size_union, size_singleton; [done|]. by apply disjoint_singleton_l. Qed.

(** With a page limit the loop needs no more passes than the limit allows
    pages, and one more to notice that the limit is reached. *)
Lemma while_within_limit n fuel l st :
  1 <= fuel -> S n + 2 <= fuel + page l -> page l = S (size (visited l)) ->
  exists l' st',
    page l' <= Nat.max (page l) (S (S n)) /\
    size (visited l') <= Nat.max (size (visited l)) (S n) /\
    forall k, while_current E (fuel + k) (Some (S n)) l st = (Ok (Some l'), st').
Proof.
  revert l st. induction fuel as [|fuel IH]; intros l st Hf Hp Hinv; [lia|].
  destruct (current l) as [[|c u]|] eqn:Hc.
  1,3: exists l, st; split; [lia|]; split; [lia|]; intros k;
       cbn [Nat.add while_current]; by rewrite Hc.
  destruct (loop_body_total (Some (S n)) l (c :: u) st) as (f & st1 & Hb).
  pose proof (loop_body_pass_ok _ _ _ _ _ _ Hb) as Hok.
  destruct f as [l1|l1]; cbn in Hok.
  - destruct Hok as (Hnew & Hv & Hp1 & Hlim & _).
    assert (size (visited l1) = S (size (visited l))) as Hs
      by (rewrite Hv; by apply size_visited_add).
    destruct (IH l1 st1) as (l' & st' & Hle & Hsz & Hrun); [lia|lia|lia|].
    exists l', st'. split; [lia|]. split; [lia|]. intros k. cbn [Nat.add while_current].
    rewrite Hc. rewrite (bind_ok _ _ _ _ _ Hb). apply Hrun.
  - destruct Hok as [Hp1 Hv]. exists l1, st1. split; [lia|]. split.
    + destruct Hv as [->|(Hnew & Hlim & ->)]; [lia|].
      rewrite size_visited_add by done. cbn in Hlim. lia.
    + intros k. cbn [Nat.add while_current]. rewrite Hc. by rewrite (bind_ok _ _ _ _ _ Hb).
Qed.

(** At the head of the loop the counter is one more than the number of
    pages visited. *)
Lemma while_counts fuel max_pages l st l' st' :
  page l = S (size (visited l)) ->
  while_current E fuel max_pages l st = (Ok (Some l'), st') ->
  page l' = size (visited l') \/ page l' = S (size (visited l')).
Proof.
  revert l st. induction fuel as [|fuel IH]; intros l st Hinv; cbn [while_current];
    destruct (current l) as [[|c u]|]; try (intros [= <- <-]; by right); try discriminate.
  intros H. apply bind_inv in H as [(f & st1 & Hb & H)|(e & _ & [=])].
  pose proof (loop_body_pass_ok _ _ _ _ _ _ Hb) as Hok.
  destruct f as [l1|l1]; cbn in Hok.
  - destruct Hok as (Hnew & Hv & Hp & _). eapply IH; [|exact H].
    rewrite Hp, Hv, size_visited_add by done. lia.
  - injection H as <- <-. destruct Hok as [Hp [Hv|(Hnew & _ & Hv)]].
    + right. by rewrite Hp, Hv.
    + left. rewrite Hp, Hv, size_visited_add by done. lia.
Qed.

Lemma fetch_eq url st :
  fetch E url st =
  match request E (clock st) GET url with
  | None => (Raise RequestException, after st 1 [Request GET url false 30])
  | Some r =>
      if (400 <=? status_code r)%nat && (status_code r <? 600)%nat
      then (Raise (HTTPError (status_code r)), after st 1 [Request GET url false 30])
      else (Ok (document r), after st 1 [Request GET url false 30])
  end.
Proof.
  unfold fetch. unfold mbind at 1, M_bind, bind. rewrite send_eq.
  destruct (request E (clock st) GET url) as [r|]; [|done].
  unfold mbind, M_bind, bind, raise_for_status. by destruct (_ && _).
Qed.

End Pass.

(** X11.  With [max_pages] set to a limit of n + 1 pages the crawl ends
    after at most n + 2 passes through the loop, whatever the server
    answers: the run returns for every bound on the passes from n + 2 on,
    always with the same result, having visited at most n + 1 pages, and
    with a page counter of at most n + 2. *)
Theorem run_ends_within_limit (E : Env) base_url n st :
  exists l st',
    page l <= S (S n) /\ size (visited l) <= S n /\
    forall k, run E base_url (Some (S n)) (S (S n) + k) st = (Ok (Some l), st').
Proof.
  set (st0 := after st 0 [Log INFO (lit "Starting download from: " ++ base_url)]).
  destruct (while_within_limit E n (S (S n)) (mkLocals (Some base_url) ∅ 1 None) st0)
    as (l & st1 & Hle & Hsz & Hrun); [lia|cbn; lia|cbn; by rewrite size_empty|].
  exists l, (after st1 0 [Log INFO (lit "All pages processed. Total pages: "
                                      ++ show_nat (page l))]).
  split; [cbn in Hle; lia|]. split; [cbn in Hsz; rewrite size_empty in Hsz; lia|].
  intros k. unfold run.
  unfold mbind at 1, M_bind, bind, log at 1, emit.
  change (mkState _ _ _ _) with st0 at 1.
  unfold mbind at 1, M_bind, bind. rewrite Hrun. reflexivity.
Qed.

(** X12.  The total that [run] reports in its last log line is the number
    of pages it visited, or one more: the counter is raised before the loop
    finds out that there is no further page, that the next URL was visited
    already or that the page limit is reached, and it is the counter that is
    reported. *)
Theorem run_reports_pages (E : Env) base_url max_pages fuel st l st' :
  run E base_url max_pages fuel st = (Ok (Some l), st') ->
  (page l = size (visited l) \/ page l = S (size (visited l))) /\
  exists evs,
    trace st' = evs ++ [Log INFO (lit "All pages processed. Total pages: "
                                    ++ show_nat (page l))].
Proof.
  unfold run. intros H.
  apply bind_inv in H as [([] & st0 & _ & H)|(e & _ & [=])].
  apply bind_inv in H as [(out & st1 & Hw & H)|(e & _ & [=])].
  destruct out as [l1|]; [|discriminate].
  apply bind_inv in H as [([] & st2 & Hl & H)|(e & _ & [=])].
  unfold mret, M_ret, ret in H. injection H as <- <-.
  unfold log, emit in Hl. injection Hl as <-. cbn [trace].
  split; [|eauto]. eapply while_counts; [|exact Hw]. cbn. by rewrite size_empty.
Qed.

Lemma run_reports_pages_witness :
  let E := fx_env site_titled (fun _ => true) in
  exists l st',
    run E list_url None 5 (init ∅) = (Ok (Some l), st') /\
    (page l = size (visited l) \/ page l = S (size (visited l))).
Proof.
  intros E. destruct (run E list_url None 5 (init ∅)) as [res st'] eqn:Hrun.
  assert (exists l, res = Ok (Some l)) as [l ->].
  { assert (res = fst (run E list_url None 5 (init ∅))) as -> by (by rewrite Hrun).
    vm_compute. eauto. }
  exists l, st'. split; [reflexivity|].
  exact (proj1 (run_reports_pages E list_url None 5 (init ∅) l st' Hrun)).
Defined.

(** X13.  Degenerate runs.  With an empty base URL the loop is not entered:
    no request is sent and one page is reported.  When the request for the
    first page fails, or is answered with a status from 400 to 599, the run
    logs the error and ends there, without raising: it has sent that one
    request, changed no file and marked nothing, and reports one page.  A
    limit of zero pages is no limit. *)
Theorem run_degenerate (E : Env) max_pages :
  (forall fuel st,
     run E [] max_pages fuel st =
     (Ok (Some (mkLocals (Some []) ∅ 1 None)),
      after st 0 [Log INFO (lit "Starting download from: ");
                  Log INFO (lit "All pages processed. Total pages: 1")])) /\
  (forall base_url fuel st e,
     base_url <> [] ->
     match request E (clock st) GET base_url with
     | None => e = RequestException
     | Some r => 400 <= status_code r < 600 /\ e = HTTPError (status_code r)
     end ->
     run E base_url max_pages (S fuel) st =
     (Ok (Some (mkLocals (Some base_url) {[base_url]} 1 None)),
      after st 1 [Log INFO (lit "Starting download from: " ++ base_url);
                  Log INFO (lit "Processing page 1: " ++ base_url);
                  Request GET base_url false 30;
                  Log ERROR (lit "Error processing page " ++ base_url ++ lit ": "
                               ++ show_exn e);
                  Log INFO (lit "All pages processed. Total pages: 1")])) /\
  (forall base_url fuel st,
     max_pages = Some 0 -> run E base_url max_pages fuel st = run E base_url None fuel st).
Proof.
  repeat split.
  - intros fuel st. unfold run, after. destruct fuel; cbn [while_current current]; munfold;
      cbn; by rewrite <- app_assoc.
  - intros base fuel st e Hne Hreq. destruct base as [|c u]; [done|].
    assert (forall st0, request E (clock st0) GET (c :: u) = request E (clock st) GET (c :: u) ->
              fetch E (c :: u) st0 = (Raise e, after st0 1 [Request GET (c :: u) false 30]))
      as Hfetch.
    { intros st0 Hst0. rewrite fetch_eq, Hst0.
      destruct (request E (clock st) GET (c :: u)) as [r|]; [|by subst e].
      destruct Hreq as [[Hlo Hhi] ->].
      assert ((400 <=? status_code r)%nat && (status_code r <? 600)%nat = true) as ->; [|done].
      apply andb_true_iff. split; [by apply Nat.leb_le|by apply Nat.ltb_lt]. }
    unfold run. cbn [while_current current]. unfold loop_body.
    rewrite bool_decide_eq_false_2 by apply not_elem_of_empty. cbn [visited page].
    assert (match max_pages with Some (S n) => (S n <? 1)%nat | _ => false end = false) as ->.
    { by destruct max_pages as [[|[|n]]|]. }
    unfold on_page_error. munfold. rewrite Hfetch by done. cbn.
    unfold after. cbn. rewrite <- !app_assoc. cbn. by rewrite (right_id_L ∅ (∪)).
  - intros base fuel st ->.
    assert (forall l st0, while_current E fuel (Some 0) l st0 = while_current E fuel None l st0)
      as Hw.
    { induction fuel as [|fuel IH]; intros l st0; [done|]. cbn [while_current].
      destruct (current l) as [[|c u]|]; try done.
      change (loop_body E (Some 0) l (c :: u)) with (loop_body E None l (c :: u)).
      unfold mbind, M_bind, bind. destruct (loop_body E None l (c :: u) st0) as [[[l'|l']|e] st1];
        done. }
    unfold run. unfold mbind at 1 3, M_bind, bind, log at 1 3, emit.
    unfold mbind at 1 3, M_bind, bind. by rewrite Hw.
Qed.

Lemma run_degenerate_witness :
  let E := fx_env [(GET, list_url, mkResponse 503 [] [] true)] (fun _ => true) in
  let out := run E list_url (Some 3) 10 (init dir_with_record) in
  fst out = Ok (Some (mkLocals (Some list_url) {[list_url]} 1 None)) /\
  disk (snd out) = dir_with_record /\
  trace (snd out) =
    [Log INFO (lit "Starting download from: http://x/list.html");
     Log INFO (lit "Processing page 1: http://x/list.html");
     Request GET list_url false 30;
     Log ERROR (lit "Error processing page http://x/list.html: HTTPError 503");
     Log INFO (lit "All pages processed. Total pages: 1")].
Proof.
  intros E out.
  destruct (run_degenerate E (Some 3)) as (_ & Hfail & _).
  assert (out = run E list_url (Some 3) 10 (init dir_with_record)) as Hout by reflexivity.
  rewrite (Hfail list_url 9 (init dir_with_record) (HTTPError 503)) in Hout.
  - rewrite Hout. repeat split.
  - discriminate.
  - assert (request E (clock (init dir_with_record)) GET list_url
            = Some (mkResponse 503 [] [] true)) as -> by reflexivity.
    cbn [status_code]. split; [lia|reflexivity].
Defined.

End Passes.

(* ===================================================================== *)
(** ** Names of the files, and the URL the GUI starts from *)
(* ===================================================================== *)

Module Links.
Import Py Re Bs4 Crawler Fixture Gui Notions StrFacts MFacts ReFacts Classifier Oracle Successor.

(** X5.  No name that [extract_links] hands to [download] contains a
    backslash, a slash, a colon, a star, a question mark, a double quote, an
    angle bracket or a bar: whatever the anchor text or the URL was, the name
    has no path separator in it. *)
Theorem file_names_are_clean (E : Env) soup page :
  match extract_links E soup page with
  | Some (files, contents) =>
      Forall (fun link => forallb (fun c => negb (illegal_char c)) link.2 = true) files
  | None => True
  end.
Proof.
  unfold extract_links.
  destruct (classify E page (find_all_a soup)) as [[files contents]|] eqn:Hc; [|done].
  apply classify_some in Hc as [Hfiles _].
  apply Forall_forall. intros [u n] Hin.
  apply (Forall2_lookup_r_elem _ _ _ _ Hfiles) in Hin as (a & _ & full & _ & Heq).
  unfold link_of, file_name in Heq. injection Heq as _ ->. cbn [snd].
  rewrite sanitize_eq. apply forallb_forall. intros c Hc.
  apply in_map_iff in Hc as (c0 & <- & _).
  destruct (illegal_char c0) eqn:Hi; [reflexivity|by rewrite Hi].
Qed.

(** A text without the separator that starts a longer text lies before the
    first separator of that text. *)
Lemma prefix_before_sep sep old r a b :
  existsb (ascii_eqb sep) old = false ->
  old ++ r = a ++ sep :: b -> exists r', a = old ++ r'.
Proof.
  revert a. induction old as [|o old IH]; intros a Hsep Heq; [by exists a|].
  cbn in Hsep. apply orb_false_iff in Hsep as [Ho Hsep].
  destruct a as [|c a]; cbn in Heq.
  - injection Heq as -> _. by rewrite ascii_eqb_refl in Ho.
  - injection Heq as -> Heq. destruct (IH a Hsep Heq) as [r' ->]. by exists r'.
Qed.

(** An occurrence of a text without the separator lies on one side of a
    separator. *)
Lemma occurrence_beside_sep sep old x r a b :
  existsb (ascii_eqb sep) old = false ->
  x ++ old ++ r = a ++ sep :: b ->
  (exists r', a = x ++ old ++ r') \/
  (exists x', b = x' ++ old ++ r /\ length x = S (length a + length x')).
Proof.
  intros Hsep. revert x. induction a as [|c a IH]; intros x Heq.
  - destruct x as [|c' x]; cbn in Heq.
    + left. destruct (prefix_before_sep sep old r [] b Hsep Heq) as [r' Hr].
      exists r'. exact Hr.
    + right. injection Heq as -> Heq. exists x. by rewrite Heq.
  - destruct x as [|c' x]; cbn in Heq.
    + left. destruct (prefix_before_sep sep old r (c :: a) b Hsep Heq) as [r' Hr]. eauto.
    + injection Heq as -> Heq. destruct (IH x Heq) as [[r' ->]|(x' & -> & Hl)].
      * left. by exists r'.
      * right. exists x'. cbn. by rewrite Hl.
Qed.

(** X4.  The URL the GUI builds from the section field, whatever was typed
    there, ends in [common_list.shtml]: the downloader recognises it as a
    paginated URL, and its successor is the URL with [common_list_2.shtml]
    for every [common_list.shtml] in it; for a section text that does not
    itself contain [common_list.shtml], that is the second page of the same
    section. *)
Theorem gui_start_url section :
  _has_url_pagination_pattern (start_url section) = true /\
  generate_next_url (start_url section)
    = Some (replace (lit "common_list.shtml") (lit "common_list_2.shtml") (start_url section)) /\
  (contains (lit "common_list.shtml") section = false ->
   generate_next_url (start_url section)
     = Some (lit "http://www.csrc.gov.cn/csrc/" ++ section ++ lit "/common_list_2.shtml")).
Proof.
  destruct generate_next_url_first_match as (H1 & _).
  pose proof (H1 (lit "http://www.csrc.gov.cn/csrc/" ++ section ++ lit "/")) as H.
  cbv zeta in H.
  assert ((lit "http://www.csrc.gov.cn/csrc/" ++ section ++ lit "/") ++ lit "common_list.shtml"
          = start_url section) as Hurl.
  { unfold start_url. by rewrite <- !app_assoc. }
  rewrite Hurl in H. destruct H as [Hg Hclean].
  split; [|split; [exact Hg|]].
  - apply shapes_recognized. left. apply endswith_spec. eexists. by rewrite <- Hurl.
  - intros Hsec. rewrite Hclean; [by rewrite <- !app_assoc|].
    apply no_match_before_spec. intros i Hi.
    destruct (match_here false (Chars (lit "common_list.shtml")) (drop i (start_url section)))
      as [[rest g]|] eqn:Hm; [|done]. exfalso.
    apply match_here_sound in Hm as [Heq Hl]. cbn [lang] in Hl. rewrite Hl in Heq.
    assert (start_url section
            = take i (start_url section) ++ lit "common_list.shtml" ++ rest) as Hocc.
    { by rewrite <- Heq, take_drop. }
    assert (length (take i (start_url section)) = i) as Hlen.
    { rewrite length_take. rewrite <- Hurl, length_app. lia. }
    unfold start_url in Hocc at 1.
    change (lit "http://www.csrc.gov.cn/csrc/" ++ section ++ lit "/common_list.shtml")
      with ((lit "http://www.csrc.gov.cn/csrc" ++ "/"%char :: section)
              ++ "/"%char :: lit "common_list.shtml") in Hocc.
    symmetry in Hocc.
    apply (occurrence_beside_sep "/") in Hocc as [[r' Hin]|(x' & Hold & Hx)]; [| |done].
    + symmetry in Hin.
      apply (occurrence_beside_sep "/") in Hin as [[r2 Hhead]|(x' & Hsect & _)]; [| |done].
      * assert (contains (lit "common_list.shtml") (lit "http://www.csrc.gov.cn/csrc") = true)
          as Hc by (apply contains_spec; eauto).
        vm_compute in Hc. discriminate.
      * assert (contains (lit "common_list.shtml") section = true) as Hc
          by (apply contains_spec; eauto).
        congruence.
    + rewrite Hlen in Hx. rewrite !length_app in Hi, Hx.
      cbn [length lit list_ascii_of_string] in Hi, Hx.
      rewrite length_app in Hi. cbn [length] in Hi. lia.
Qed.

Lemma gui_start_url_witness :
  generate_next_url (start_url (lit "c100122"))
    = Some (lit "http://www.csrc.gov.cn/csrc/c100122/common_list_2.shtml").
Proof.
  destruct (gui_start_url (lit "c100122")) as (_ & _ & Hnext).
  apply Hnext. reflexivity.
Defined.

End Links.

(* ===================================================================== *)
(** ** The time utilities: what they accept and what they return *)
(* ===================================================================== *)

Module CleanerFacts.
Import Py Re Cleaner StrFacts ReFacts Oracle.

Lemma re_match_iff p s :
  re_match p s = true <-> exists m rest, s = m ++ rest /\ lang false p m rest.
Proof.
  unfold re_match. rewrite <- match_here_lang.
  destruct (match_here false p s) as [x|].
  - split; [eauto|done].
  - split; [done|]. by intros [x Hx].
Qed.

Lemma lang_D4 m rest : lang false D4 m rest <-> year m.
Proof.
  unfold D4, year. cbn [lang]. split.
  - intros (m1 & m2 & -> & (a & -> & Ha) & m3 & m4 & -> & (b & -> & Hb) &
            m5 & m6 & -> & (c & -> & Hc) & (d & -> & Hd)).
    cbn. by rewrite Ha, Hb, Hc, Hd.
  - intros [Hlen Hd]. do 5 (destruct m as [|? m]; try discriminate Hlen).
    cbn in Hd. repeat (apply andb_true_iff in Hd as [? Hd]).
    eexists [_], _. split; [done|]. split; [eauto|].
    eexists [_], _. split; [done|]. split; [eauto|].
    eexists [_], _. split; [done|]. split; [eauto|]. eauto.
Qed.

Lemma lang_D12 m rest : lang false D12 m rest <-> one_or_two m.
Proof.
  unfold D12, one_or_two. cbn [lang]. split.
  - intros (m1 & m2 & -> & (a & -> & Ha) & [->|(b & -> & Hb)]); cbn.
    + rewrite Ha. auto.
    + rewrite Ha, Hb. auto.
  - intros [[Hlen|Hlen] Hd].
    + do 2 (destruct m as [|? m]; try discriminate Hlen). cbn in Hd.
      apply andb_true_iff in Hd as [? _]. eexists [_], []. split; [done|]. split; [eauto|]. auto.
    + do 3 (destruct m as [|? m]; try discriminate Hlen). cbn in Hd.
      repeat (apply andb_true_iff in Hd as [? Hd]).
      eexists [_], [_]. split; [done|]. split; [eauto|]. eauto.
Qed.

(** [s.strip()] ends with no white space. *)
Lemma lstrip_head s c r : lstrip s = c :: r -> is_space c = false.
Proof.
  induction s as [|a s IH]; cbn; [discriminate|].
  destruct (is_space a) eqn:Ha; [exact IH|]. by intros [= <- _].
Qed.

Lemma strip_last text y c : strip text = y ++ [c] -> is_space c = false.
Proof.
  unfold strip. intros H. apply (f_equal (@rev ascii)) in H.
  rewrite rev_involutive, rev_app_distr in H. cbn in H. by eapply lstrip_head.
Qed.

Lemma strip_no_final_newline text : no_final_newline (strip text).
Proof. intros y H. by apply strip_last in H. Qed.

(** What [$] leaves of a match on a text without a final newline. *)
Lemma at_end s m rest :
  no_final_newline s -> s = m ++ rest -> rest = [] \/ rest = ["010"%char] -> s = m.
Proof.
  intros Hnl -> [->| ->]; [by rewrite app_nil_r|]. by destruct (Hnl m).
Qed.

Lemma re_match_YEAR s : no_final_newline s -> re_match YEAR_RE s = true <-> year s.
Proof.
  intros Hnl. rewrite re_match_iff. unfold YEAR_RE. cbn [lang]. split.
  - intros (m & rest & Hs & m1 & m2 & -> & H1 & -> & Hrest).
    rewrite app_nil_r in *. rewrite (at_end s m1 rest Hnl Hs Hrest). by apply lang_D4 in H1.
  - intros Hy. exists s, []. rewrite app_nil_r. split; [done|].
    exists s, []. rewrite app_nil_r. split; [done|]. split; [by apply lang_D4|auto].
Qed.

Lemma re_match_MONTH s : no_final_newline s -> re_match MONTH_RE s = true <-> month_text s.
Proof.
  intros Hnl. rewrite re_match_iff. unfold MONTH_RE, month_text. cbn [lang]. split.
  - intros (m & rest & Hs & y & m2 & -> & Hy & m3 & m4 & -> & (c & -> & Hc) &
            mm & m5 & -> & Hm & -> & Hrest).
    rewrite app_nil_r in *. apply lang_D4 in Hy. apply lang_D12 in Hm.
    exists y, c, mm. split; [|done].
    by rewrite (at_end s _ rest Hnl Hs Hrest).
  - intros (y & c & m & -> & Hy & Hc & Hm).
    exists (y ++ c :: m), []. rewrite app_nil_r. split; [done|].
    exists y, (c :: m). split; [done|]. split; [by apply lang_D4|].
    exists [c], m. split; [done|]. split; [eauto|].
    exists m, []. rewrite app_nil_r. split; [done|]. split; [by apply lang_D12|auto].
Qed.

Lemma re_match_DAY s : no_final_newline s -> re_match DAY_RE s = true <-> day_text s.
Proof.
  intros Hnl. rewrite re_match_iff. unfold DAY_RE, day_text. cbn [lang]. split.
  - intros (m & rest & Hs & y & m2 & -> & Hy & m3 & m4 & -> & (c & -> & Hc) &
            mm & m5 & -> & Hm & m6 & m7 & -> & (c' & -> & Hc') &
            d & m8 & -> & Hd & -> & Hrest).
    rewrite app_nil_r in *. apply lang_D4 in Hy. apply lang_D12 in Hm. apply lang_D12 in Hd.
    exists y, c, mm, c', d. split; [|done].
    by rewrite (at_end s _ rest Hnl Hs Hrest).
  - intros (y & c & m & c' & d & -> & Hy & Hc & Hm & Hc' & Hd).
    exists (y ++ c :: m ++ c' :: d), []. rewrite app_nil_r. split; [done|].
    exists y, (c :: m ++ c' :: d). split; [done|]. split; [by apply lang_D4|].
    exists [c], (m ++ c' :: d). split; [done|]. split; [eauto|].
    exists m, (c' :: d). split; [done|]. split; [by apply lang_D12|].
    exists [c'], d. split; [done|]. split; [eauto|].
    exists d, []. rewrite app_nil_r. split; [done|]. split; [by apply lang_D12|auto].
Qed.

Lemma re_match_QUARTER s :
  no_final_newline s -> re_match QUARTER_RE s = true <-> quarter_text s.
Proof.
  intros Hnl. rewrite re_match_iff. unfold QUARTER_RE, quarter_text. cbn [lang]. split.
  - intros (m & rest & Hs & y & m2 & -> & Hy & m3 & m4 & -> & -> & m5 & m6 & -> &
            (q & -> & Hq) & -> & Hrest).
    apply lang_D4 in Hy. exists y, q. split; [|done].
    by rewrite (at_end s _ rest Hnl Hs Hrest).
  - intros (y & q & -> & Hy & Hq).
    exists (y ++ ["Q"%char; q]), []. rewrite app_nil_r. split; [done|].
    exists y, ["Q"%char; q]. split; [done|]. split; [by apply lang_D4|].
    exists (lit "Q"), [q]. split; [done|]. split; [done|].
    exists [q], []. split; [done|]. split; [eauto|]. auto.
Qed.

(** X14.  What [looks_like_time] accepts: a missing cell never; a value
    exactly when its text, stripped of surrounding white space, is four
    digits, or four digits, a dash or a slash and one or two digits, or that
    followed by a second dash or slash and one or two digits, or four digits,
    the letter Q and a digit from 1 to 4.  Nothing may follow, and the
    digits are not checked for being a month or a day. *)
Theorem looks_like_time_shapes text :
  looks_like_time NA = false /\
  (looks_like_time (Value text) = true <-> time_text (strip text)).
Proof.
  split; [done|]. pose proof (strip_no_final_newline text) as Hnl.
  unfold looks_like_time, time_text. cbn [existsb]. rewrite orb_false_r, !orb_true_iff.
  by rewrite (re_match_YEAR _ Hnl), (re_match_MONTH _ Hnl), (re_match_DAY _ Hnl),
       (re_match_QUARTER _ Hnl).
Qed.

Lemma digit_not_dash c : is_digit c = true -> dash c = false.
Proof.
  intros H.
  assert (implb (is_digit c) (negb (dash c)) = true) as Hc.
  { apply (ascii_forallb (fun c => implb (is_digit c) (negb (dash c)))). vm_compute. reflexivity. }
  rewrite H in Hc. cbn in Hc. by apply negb_true_iff in Hc.
Qed.

Lemma quarter_is_digit q : quarter_digit q = true -> is_digit q = true.
Proof.
  intros H.
  assert (implb (quarter_digit q) (is_digit q) = true) as Hc.
  { apply (ascii_forallb (fun c => implb (quarter_digit c) (is_digit c))). vm_compute. reflexivity. }
  by rewrite H in Hc.
Qed.

(** Digits are no separators: [re.split] passes over them. *)
Lemma split_digits y cur rest :
  forallb is_digit y = true ->
  split_from dash cur (y ++ rest) = split_from dash (rev y ++ cur) rest.
Proof.
  revert cur. induction y as [|a y IH]; intros cur Hy; [done|].
  cbn in Hy. apply andb_true_iff in Hy as [Ha Hy].
  cbn [app split_from]. rewrite (digit_not_dash _ Ha), IH by done.
  cbn [rev]. by rewrite <- app_assoc.
Qed.

Lemma split_month y c m :
  forallb is_digit y = true -> dash c = true -> forallb is_digit m = true ->
  re_split dash (y ++ c :: m) = [y; m].
Proof.
  intros Hy Hc Hm. unfold re_split. rewrite split_digits by done.
  cbn [split_from]. rewrite Hc, app_nil_r, rev_involutive.
  rewrite <- (app_nil_r m) at 1. rewrite split_digits by done.
  cbn [split_from]. by rewrite app_nil_r, rev_involutive.
Qed.

Lemma year_app_inv y1 r1 y2 r2 : year y1 -> year y2 -> y1 ++ r1 = y2 ++ r2 -> y1 = y2 /\ r1 = r2.
Proof.
  intros [H1 _] [H2 _] Heq. apply app_inj_1 in Heq; [done|congruence].
Qed.

Lemma month_not_year s : month_text s -> ~ year s.
Proof.
  intros (y & c & m & -> & [Hy _] & _) [Hlen _]. rewrite length_app in Hlen. cbn in Hlen. lia.
Qed.

Lemma quarter_not_year s : quarter_text s -> ~ year s.
Proof.
  intros (y & q & -> & [Hy _] & _) [Hlen _]. rewrite length_app in Hlen. cbn in Hlen. lia.
Qed.

Lemma quarter_not_month s : quarter_text s -> ~ month_text s.
Proof.
  intros (y & q & -> & Hy & _) (y' & c & m & Heq & Hy' & Hc & _).
  apply year_app_inv in Heq as [_ Heq]; [|done|done]. injection Heq as <- _. discriminate Hc.
Qed.

Lemma day_not_year s : day_text s -> ~ year s.
Proof.
  intros (y & c & m & c' & d & -> & [Hy _] & _) [Hlen _].
  rewrite length_app in Hlen. cbn in Hlen. lia.
Qed.

Lemma day_not_month s : day_text s -> ~ month_text s.
Proof.
  intros (y & c & m & c' & d & -> & Hy & _ & _ & Hc' & _) (y' & c1 & m1 & Heq & Hy' & _ & _ & Hm1).
  apply year_app_inv in Heq as [_ Heq]; [|done|done]. injection Heq as _ <-.
  rewrite forallb_app in Hm1. apply andb_true_iff in Hm1 as [_ Hm1]. cbn in Hm1.
  apply andb_true_iff in Hm1 as [Hd _]. apply digit_not_dash in Hd. congruence.
Qed.

Lemma day_not_quarter s : day_text s -> ~ quarter_text s.
Proof.
  intros (y & c & m & c' & d & -> & Hy & Hc & _) (y' & q & Heq & Hy' & _).
  apply year_app_inv in Heq as [_ Heq]; [|done|done]. injection Heq as -> _. discriminate Hc.
Qed.

Lemma digit_not_sign c : is_digit c = true -> ascii_eqb c "+" || ascii_eqb c "-" = false.
Proof.
  intros H.
  assert (implb (is_digit c) (negb (ascii_eqb c "+" || ascii_eqb c "-")) = true) as Hc.
  { apply (ascii_forallb (fun c => implb (is_digit c) (negb (ascii_eqb c "+" || ascii_eqb c "-")))).
    vm_compute. reflexivity. }
  rewrite H in Hc. cbn [implb] in Hc. by apply negb_true_iff in Hc.
Qed.

(** The month of a quarter: the quarter's last month. *)
Lemma quarter_months q :
  quarter_digit q = true ->
  zfill 2 (str_of_int (digit_val q * 3)) ∈ [lit "03"; lit "06"; lit "09"; lit "12"].
Proof.
  intros H. rewrite !elem_of_cons.
  destruct q as [[] [] [] [] [] [] [] []]; try (vm_compute in H; discriminate H);
    vm_compute; auto 6.
Qed.

Lemma not_true_false b : b <> true -> b = false.
Proof. by destruct b. Qed.

Section Normalize.
Variable to_datetime : str -> option str.

(** X15.  What [normalize_time] returns for a value, by the shape of its
    stripped text [s]: a year gives [s-01-01]; a year and a month give
    [y-mm-01] with the month padded to two digits and not checked as a month;
    a quarter gives the first day of the quarter's last month (03, 06, 09 or
    12); a full date and every text that is no time go to [pd.to_datetime];
    and no value makes the function raise. *)
Theorem normalize_time_by_shape text :
  let s := strip text in
  (year s -> normalize_time to_datetime (Value text) = Returns (Some (s ++ lit "-01-01"))) /\
  (forall y c m,
     s = y ++ c :: m -> year y -> dash c = true -> one_or_two m ->
     normalize_time to_datetime (Value text)
       = Returns (Some (y ++ lit "-" ++ zfill 2 m ++ lit "-01")) /\
     length (zfill 2 m) = 2) /\
  (forall y q,
     s = y ++ ["Q"%char; q] -> year y -> quarter_digit q = true ->
     normalize_time to_datetime (Value text)
       = Returns (Some (y ++ lit "-" ++ zfill 2 (str_of_int (digit_val q * 3)) ++ lit "-01")) /\
     zfill 2 (str_of_int (digit_val q * 3)) ∈ [lit "03"; lit "06"; lit "09"; lit "12"]) /\
  ((day_text s \/ ~ time_text s) ->
   normalize_time to_datetime (Value text) = Returns (to_datetime s)) /\
  (exists v, normalize_time to_datetime (Value text) = Returns v).
Proof.
  intros s. pose proof (strip_no_final_newline text) as Hnl. fold s in Hnl.
  assert (year s -> normalize_time to_datetime (Value text)
                    = Returns (Some (s ++ lit "-01-01"))) as Hyear.
  { intros Hy. unfold normalize_time. fold s. by rewrite (proj2 (re_match_YEAR s Hnl) Hy). }
  assert (forall y c m,
            s = y ++ c :: m -> year y -> dash c = true -> one_or_two m ->
            normalize_time to_datetime (Value text)
            = Returns (Some (y ++ lit "-" ++ zfill 2 m ++ lit "-01"))) as Hmonth.
  { intros y c m Hs Hy Hc Hm.
    assert (month_text s) as Hmt by (exists y, c, m; done).
    unfold normalize_time. fold s.
    rewrite (not_true_false _ (fun H => month_not_year s Hmt (proj1 (re_match_YEAR s Hnl) H))).
    rewrite (proj2 (re_match_MONTH s Hnl) Hmt), Hs.
    rewrite split_month; [done|by destruct Hy|done|by destruct Hm]. }
  assert (forall y q,
            s = y ++ ["Q"%char; q] -> year y -> quarter_digit q = true ->
            normalize_time to_datetime (Value text)
            = Returns (Some (y ++ lit "-" ++ zfill 2 (str_of_int (digit_val q * 3))
                               ++ lit "-01"))) as Hquarter.
  { intros y q Hs Hy Hq.
    assert (quarter_text s) as Hqt by (exists y, q; done).
    unfold normalize_time. fold s.
    rewrite (not_true_false _ (fun H => quarter_not_year s Hqt (proj1 (re_match_YEAR s Hnl) H))).
    rewrite (not_true_false _ (fun H => quarter_not_month s Hqt (proj1 (re_match_MONTH s Hnl) H))).
    rewrite (proj2 (re_match_QUARTER s Hnl) Hqt), Hs.
    assert (last (y ++ ["Q"%char; q]) = Some q) as ->.
    { change (y ++ ["Q"%char; q]) with (y ++ ["Q"%char] ++ [q]).
      rewrite app_assoc. apply last_snoc. }
    rewrite (quarter_is_digit _ Hq). destruct Hy as [Hlen _].
    by rewrite take_app_length' by done. }
  assert ((day_text s \/ ~ time_text s) ->
          normalize_time to_datetime (Value text) = Returns (to_datetime s)) as Hrest.
  { intros Hcase.
    assert (~ year s /\ ~ month_text s /\ ~ quarter_text s) as (Hny & Hnm & Hnq).
    { destruct Hcase as [Hd|Hn].
      - split; [by apply day_not_year|]. split; [by apply day_not_month|by apply day_not_quarter].
      - unfold time_text in Hn. tauto. }
    unfold normalize_time. fold s.
    rewrite (not_true_false _ (fun H => Hny (proj1 (re_match_YEAR s Hnl) H))).
    rewrite (not_true_false _ (fun H => Hnm (proj1 (re_match_MONTH s Hnl) H))).
    by rewrite (not_true_false _ (fun H => Hnq (proj1 (re_match_QUARTER s Hnl) H))). }
  split; [exact Hyear|]. split.
  { intros y c m Hs Hy Hc Hm. split; [by apply (Hmonth y c m)|].
    destruct Hm as [Hl Hd]. destruct m as [|a m]; [cbn in Hl; lia|].
    cbn in Hd. apply andb_true_iff in Hd as [Hd _]. unfold zfill.
    rewrite (digit_not_sign _ Hd). rewrite length_app, repeat_length. cbn in Hl |- *. lia. }
  split.
  { intros y q Hs Hy Hq. split; [by apply (Hquarter y q)|].
    apply quarter_months, Hq. }
  split; [exact Hrest|].
  destruct (re_match YEAR_RE s) eqn:HY.
  { eexists. apply Hyear. by apply re_match_YEAR. }
  destruct (re_match MONTH_RE s) eqn:HM.
  { apply re_match_MONTH in HM as (y & c & m & Hs & Hy & Hc & Hm); [|done].
    eexists. by apply (Hmonth y c m). }
  destruct (re_match QUARTER_RE s) eqn:HQ.
  { apply re_match_QUARTER in HQ as (y & q & Hs & Hy & Hq); [|done].
    eexists. by apply (Hquarter y q). }
  eexists. unfold normalize_time. fold s. by rewrite HY, HM, HQ.
Qed.
End Normalize.

Lemma normalize_time_by_shape_witness :
  normalize_time (fun _ => None) (Value (lit " 2020/13 ")) = Returns (Some (lit "2020-13-01")) /\
  normalize_time (fun _ => None) (Value (lit "2021Q2")) = Returns (Some (lit "2021-06-01")).
Proof.
  split.
  - destruct (normalize_time_by_shape (fun _ => None) (lit " 2020/13 ")) as (_ & Hmonth & _).
    destruct (Hmonth (lit "2020") "/"%char (lit "13")) as [-> _]; try reflexivity.
    + split; reflexivity.
    + split; [right|]; reflexivity.
  - destruct (normalize_time_by_shape (fun _ => None) (lit "2021Q2")) as (_ & _ & Hquarter & _).
    destruct (Hquarter (lit "2021") "2"%char) as [-> _]; try reflexivity.
    split; reflexivity.
Defined.

End CleanerFacts.

(* ===================================================================== *)
(** ** A crawl without a page limit *)
(* ===================================================================== *)

Module Endless.
Import Py Re Bs4 Crawler Fixture Gui Notions StrFacts MFacts ReFacts Oracle Store Orchestrator PyFacts Successor Passes.

(** The word [common_list] starts with its only [c]: an occurrence cannot
    begin inside [P] and run into a following [common_list]. *)
Lemma no_early_word P tail i :
  contains (lit "common_list") P = false -> i < length P ->
  startswith (lit "common_list") (drop i (P ++ lit "common_list" ++ tail)) = false.
Proof.
  intros HP Hi. destruct (startswith _ _) eqn:Hs; [exfalso|done].
  apply startswith_spec in Hs as [r Hr].
  rewrite drop_app_le in Hr by lia.
  assert (drop i P <> []) as Hne.
  { intros H. apply (f_equal length) in H. rewrite length_drop in H. cbn in H. lia. }
  assert (exists x, drop i P = lit "common_list" ++ x) as [x Hx].
  { destruct (drop i P) as [|q Q]; [done|]. clear Hne.
    cbn in Hr. injection Hr as -> Hr.
    do 10 (destruct Q as [|? Q]; [discriminate Hr|]; cbn in Hr; injection Hr as -> Hr).
    by exists Q. }
  rewrite <- not_true_iff_false in HP. apply HP. apply contains_spec.
  exists (take i P), x. by rewrite <- Hx, take_drop.
Qed.

Lemma digits_str_of_int n : digits (str_of_int n).
Proof. split; [apply str_of_int_nonempty|apply str_of_int_digits]. Qed.

Section Chain.
Variable P : str.
Hypothesis HP : contains (lit "common_list") P = false.

Lemma first_page_clean :
  no_match_before false (Chars (lit "common_list.shtml")) (first_page P) (length P) = true.
Proof.
  apply no_match_before_spec. intros i Hi.
  destruct (match_here _ _ _) as [[rest g]|] eqn:Hm; [exfalso|done].
  apply match_here_sound in Hm as [Heq Hl]. cbn [lang] in Hl. rewrite Hl in Heq.
  pose proof (no_early_word P (lit ".shtml") i HP Hi) as Hno.
  rewrite <- not_true_iff_false in Hno. apply Hno. apply startswith_spec.
  exists (lit ".shtml" ++ rest). exact Heq.
Qed.

Lemma numbered_page_clean n :
  no_match_before false COMMON_LIST_N_RE (numbered_page P n) (length P) = true.
Proof.
  apply no_match_before_spec. intros i Hi.
  destruct (match_here _ _ _) as [[rest g]|] eqn:Hm; [exfalso|done].
  apply match_here_sound in Hm as [Heq Hl].
  unfold COMMON_LIST_N_RE in Hl. cbn [lang] in Hl.
  destruct Hl as (m1 & m2 & Hc & Hm1 & _). rewrite Hc, Hm1 in Heq.
  pose proof (no_early_word P (lit "_" ++ str_of_int n ++ lit ".shtml") i HP Hi) as Hno.
  rewrite <- not_true_iff_false in Hno. apply Hno. apply startswith_spec.
  exists ("_"%char :: m2 ++ rest). exact Heq.
Qed.

Lemma numbered_page_not_first n :
  endswith (lit "common_list.shtml") (numbered_page P n) = false.
Proof.
  destruct (endswith _ _) eqn:He; [exfalso|done].
  apply endswith_spec in He as [q Hq]. unfold numbered_page in Hq.
  destruct (exists_last (str_of_int_nonempty n)) as (ds & d & Hds).
  pose proof (str_of_int_digits n) as Hd. rewrite Hds, forallb_app in Hd.
  apply andb_true_iff in Hd as [_ Hd]. cbn in Hd. apply andb_true_iff in Hd as [Hd _].
  rewrite Hds in Hq.
  change (lit "common_list.shtml") with (lit "common_lis" ++ ["t"%char] ++ lit ".shtml") in Hq.
  rewrite !app_assoc in Hq. apply app_inv_tail in Hq. apply app_inj_tail in Hq as [_ ->].
  discriminate Hd.
Qed.

Lemma next_of_first : generate_next_url (first_page P) = Some (numbered_page P 2).
Proof.
  destruct generate_next_url_first_match as (H1 & _).
  destruct (H1 P) as [_ H]. apply H. apply first_page_clean.
Qed.

Lemma next_of_numbered n :
  generate_next_url (numbered_page P n) = Some (numbered_page P (n + 1)).
Proof.
  destruct generate_next_url_first_match as (_ & H2 & _).
  pose proof (H2 P (str_of_int n) []) as H. cbv zeta in H.
  rewrite !app_nil_r in H. unfold replace in H. cbn [replace_from] in H.
  unfold succ_digits in H. rewrite int_of_str_of_int in H.
  apply H.
  - apply numbered_page_not_first.
  - apply digits_str_of_int.
  - apply numbered_page_clean.
Qed.

Lemma numbered_page_inj n m : numbered_page P n = numbered_page P m -> n = m.
Proof.
  unfold numbered_page. intros H. apply app_inv_head in H. apply app_inv_head in H.
  apply app_inv_tail in H. apply (f_equal int_of) in H. by rewrite !int_of_str_of_int in H.
Qed.

Lemma first_page_not_numbered n : first_page P <> numbered_page P n.
Proof.
  unfold first_page, numbered_page. intros H. apply app_inv_head in H. discriminate H.
Qed.

End Chain.

Lemma try_ok {A} (m : M A) h st a st1 :
  m st = (Ok a, st1) -> try_except m h st = (Ok a, st1).
Proof. unfold try_except. by intros ->. Qed.

Lemma try_raise {A} (m : M A) h st e st1 :
  m st = (Raise e, st1) -> try_except m h st = h e st1.
Proof. unfold try_except. by intros ->. Qed.

Lemma log_ok lvl msg st : log lvl msg st = (Ok tt, after st 0 [Log lvl msg]).
Proof. reflexivity. Qed.

Lemma after_after st a e1 b e2 : after (after st a e1) b e2 = after st (a + b) (e1 ++ e2).
Proof.
  unfold after. cbn [downloaded disk clock trace]. f_equal; [lia|by rewrite app_assoc].
Qed.

Section Answers.
Variable E : Env.

Lemma probe_ok url st :
  answers_200 E (clock st) url ->
  url_exists E url st = (Ok true, after st 1 [Request HEAD url false 10]).
Proof.
  intros (r & Hr & Hs). by rewrite url_exists_eq, Hr, Hs.
Qed.

Lemma fetch_unavailable url st :
  unavailable E (clock st) url ->
  exists e, fetch E url st = (Raise e, after st 1 [Request GET url false 30]).
Proof.
  unfold unavailable. rewrite fetch_eq. destruct (request E (clock st) GET url) as [r|]; [|eauto].
  intros [Hlo Hhi]. apply Nat.leb_le in Hlo. apply Nat.ltb_lt in Hhi. rewrite Hlo, Hhi. eauto.
Qed.

(** In the mode of numbered URLs a page leads to its successor when the
    pass over it fails, and also when it is processed to the end and the
    successor answers the probes. *)
Lemma error_continues l cur c next e st :
  pagination_mode l = Some Url ->
  generate_next_url cur = Some (c :: next) -> c :: next ∉ visited l ->
  exists st', on_page_error l cur e st = (Ok (Continue (onward l (c :: next))), st').
Proof.
  intros Hm Hn Hnew. unfold on_page_error. rewrite Hm, Hn. cbn [truthy default andb].
  rewrite bool_decide_eq_false_2 by done. cbn [negb]. munfold. unfold onward. eauto.
Qed.

Lemma page_continues l cur c next soup st :
  pagination_mode l = Some Url ->
  generate_next_url cur = Some (c :: next) -> c :: next ∉ visited l ->
  (forall t, answers_200 E t (c :: next)) ->
  exists st',
    try_except (process_page E l cur soup) (on_page_error l cur) st
    = (Ok (Continue (onward l (c :: next))), st').
Proof.
  intros Hm Hn Hnew Hhead. unfold process_page.
  destruct (extract_links E soup cur) as [[files contents]|].
  2:{ erewrite try_raise; [by apply error_continues|]. by apply bind_raise. }
  rewrite returned_bind. cbv beta iota. rewrite Hm.
  destruct (download_all E files st) as [[[]|e] st1] eqn:Hd.
  2:{ erewrite try_raise; [by apply error_continues|]. by apply bind_raise. }
  destruct (for_each contents (process_content E) st1) as [[[]|e] st2] eqn:Hc.
  2:{ erewrite try_raise; [by apply error_continues|].
      rewrite (bind_ok _ _ _ _ _ Hd). by apply bind_raise. }
  eexists. apply try_ok.
  rewrite (bind_ok _ _ _ _ _ Hd), (bind_ok _ _ _ _ _ Hc).
  unfold is_last_page. rewrite Hn.
  rewrite (bind_ok _ _ _ _ _ (bind_ok _ _ _ _ _ (probe_ok _ _ (Hhead _)))).
  cbn [negb]. unfold smart_next. rewrite Hn.
  rewrite (bind_ok _ _ _ _ _ (bind_ok _ _ _ _ _ (probe_ok _ _ (Hhead _)))).
  munfold. reflexivity.
Qed.

(** A pass over a later page: the mode is known. *)
Lemma later_pass l cur c next st :
  pagination_mode l = Some Url -> cur ∉ visited l ->
  generate_next_url cur = Some (c :: next) -> c :: next ∉ {[cur]} ∪ visited l ->
  (forall t, answers_200 E t (c :: next)) ->
  exists st',
    loop_body E None l cur st
    = (Ok (Continue (mkLocals (Some (c :: next)) ({[cur]} ∪ visited l) (S (page l)) (Some Url))),
       st').
Proof.
  intros Hm Hcur Hn Hnew Hhead. unfold loop_body. rewrite bool_decide_eq_false_2 by done.
  set (l1 := mkLocals (current l) ({[cur]} ∪ visited l) (page l) (pagination_mode l)).
  rewrite (bind_ok _ _ _ _ _ (log_ok _ _ _)).
  destruct (fetch E cur (after st 0 [Log INFO (lit "Processing page " ++ show_nat (page l)
                                                 ++ lit ": " ++ cur)]))
    as [[soup|e] st1] eqn:Hf.
  - erewrite bind_ok; [|apply try_ok; by rewrite (bind_ok _ _ _ _ _ Hf)].
    cbv beta iota.
    erewrite bind_ok; [|apply try_ok; unfold detect_once; cbn [pagination_mode l1];
                        rewrite Hm; reflexivity].
    by apply (page_continues l1).
  - erewrite bind_ok; [|erewrite try_raise; [reflexivity|by apply bind_raise]].
    cbv beta iota. by apply (error_continues l1).
Qed.

(** A pass over a page that cannot be fetched: one request, no pause, and
    on to the next number without a probe. *)
Lemma failing_pass l cur c next st :
  pagination_mode l = Some Url -> cur ∉ visited l ->
  generate_next_url cur = Some (c :: next) -> c :: next ∉ {[cur]} ∪ visited l ->
  unavailable E (clock st) cur ->
  exists evs,
    loop_body E None l cur st
    = (Ok (Continue (mkLocals (Some (c :: next)) ({[cur]} ∪ visited l) (S (page l)) (Some Url))),
       after st 1 evs) /\
    Forall no_pause evs /\ Forall (fun ev => forall u, ev <> Request HEAD u false 10) evs.
Proof.
  intros Hm Hcur Hn Hnew Hun. unfold loop_body. rewrite bool_decide_eq_false_2 by done.
  set (l1 := mkLocals (current l) ({[cur]} ∪ visited l) (page l) (pagination_mode l)).
  rewrite (bind_ok _ _ _ _ _ (log_ok _ _ _)).
  set (st0 := after st 0 _).
  destruct (fetch_unavailable cur st0 Hun) as [e Hf].
  erewrite bind_ok; [|erewrite try_raise; [reflexivity|by apply bind_raise]].
  cbv beta iota. unfold on_page_error. cbn [pagination_mode l1 visited]. rewrite Hm, Hn.
  cbn [truthy default andb]. rewrite bool_decide_eq_false_2 by done. cbn [negb].
  rewrite (bind_ok _ _ _ _ _ (log_ok _ _ _)).
  eexists. split.
  - unfold mret, M_ret, ret, after, st0, after. cbn [downloaded disk clock trace].
    rewrite <- !app_assoc. cbn [Nat.add app]. reflexivity.
  - split; repeat constructor; discriminate.
Qed.

(** The pass over the first page: it has to be fetched, and the mode is
    detected from it. *)
Lemma first_pass l cur c next st :
  pagination_mode l = None -> cur ∉ visited l ->
  (forall t, exists r,
     request E t GET cur = Some r /\
     (400 <=? status_code r)%nat && (status_code r <? 600)%nat = false /\
     existsb enabled_next (find_all_a (document r)) = false) ->
  _has_url_pagination_pattern cur = true ->
  generate_next_url cur = Some (c :: next) -> c :: next ∉ {[cur]} ∪ visited l ->
  (forall t, answers_200 E t (c :: next)) ->
  exists st',
    loop_body E None l cur st
    = (Ok (Continue (mkLocals (Some (c :: next)) ({[cur]} ∪ visited l) (S (page l)) (Some Url))),
       st').
Proof.
  intros Hm Hcur Hget Hpat Hn Hnew Hhead. unfold loop_body.
  rewrite bool_decide_eq_false_2 by done.
  set (l1 := mkLocals (current l) ({[cur]} ∪ visited l) (page l) (pagination_mode l)).
  rewrite (bind_ok _ _ _ _ _ (log_ok _ _ _)).
  set (st0 := after st 0 _).
  destruct (Hget (clock st0)) as (r & Hr & Hstatus & Hbutton).
  assert (fetch E cur st0 = (Ok (document r), after st0 1 [Request GET cur false 30])) as Hf.
  { by rewrite fetch_eq, Hr, Hstatus. }
  erewrite bind_ok; [|apply try_ok; by rewrite (bind_ok _ _ _ _ _ Hf)].
  cbv beta iota.
  set (l2 := mkLocals (current l1) (visited l1) (page l1) (Some Url)).
  erewrite bind_ok.
  2:{ apply try_ok. unfold detect_once. cbn [pagination_mode l1]. rewrite Hm.
      unfold detect_pagination_mode. rewrite Hbutton, Hpat, Hn.
      unfold mbind, M_bind, bind. rewrite (probe_ok _ _ (Hhead _)). reflexivity. }
  cbv beta iota. by apply (page_continues l2).
Qed.

Variable P : str.
Hypothesis HP : contains (lit "common_list") P = false.

Lemma numbered_page_cons n : exists c u, numbered_page P n = c :: u.
Proof.
  destruct (numbered_page P n) as [|c u] eqn:H; [|eauto].
  apply (f_equal length) in H. unfold numbered_page in H. rewrite !length_app in H.
  cbn in H. lia.
Qed.

(** The pages before the [n]th have been visited, and no other. *)
Lemma numbered_page_new (n : N) (v : gset str) :
  (forall u, u ∈ v -> u = first_page P \/ exists m, (m < n)%N /\ u = numbered_page P m) ->
  (numbered_page P n ∉ v) /\
  (numbered_page P (n + 1) ∉ {[numbered_page P n]} ∪ v) /\
  (forall u, u ∈ {[numbered_page P n]} ∪ v ->
             u = first_page P \/ exists m, (m < n + 1)%N /\ u = numbered_page P m).
Proof.
  intros Hv. split; [|split].
  - intros [Hu|(m & Hlt & Hu)]%Hv.
    + symmetry in Hu. by apply first_page_not_numbered in Hu.
    + apply numbered_page_inj in Hu. lia.
  - rewrite elem_of_union, elem_of_singleton. intros [Hu|[Hu|(m & Hlt & Hu)]%Hv].
    + apply numbered_page_inj in Hu. lia.
    + symmetry in Hu. by apply first_page_not_numbered in Hu.
    + apply numbered_page_inj in Hu. lia.
  - intros x. rewrite elem_of_union, elem_of_singleton.
    intros [->|[->|(m & Hlt & ->)]%Hv].
    + right. exists n. split; [lia|done].
    + by left.
    + right. exists m. split; [lia|done].
Qed.

(** X19.  In the mode of numbered URLs and without a page limit, a crawl
    that stands at a numbered page from which on no page can be fetched
    (the request raises, or the answer is an error status, as for every
    page past the last one) never ends.  Each pass fails in [fetch], and the
    [except] clause moves on to the next number: a pass costs one tick of
    the clock, the one request for the page, with no probe of the successor
    and no pause. *)
Theorem failed_pages_are_passed_for_ever n fuel : forall l st,
  (forall m t, (n <= m)%N -> unavailable E t (numbered_page P m)) ->
  current l = Some (numbered_page P n) ->
  pagination_mode l = Some Url ->
  (forall u, u ∈ visited l ->
             u = first_page P \/ exists m, (m < n)%N /\ u = numbered_page P m) ->
  exists evs,
    while_current E fuel None l st = (Ok None, after st fuel evs) /\
    Forall no_pause evs /\
    Forall (fun ev => forall u, ev <> Request HEAD u false 10) evs.
Proof.
  revert n. induction fuel as [|fuel IH]; intros n l st Hun Hc Hm Hv.
  { destruct (numbered_page_cons n) as (c & u & Hcu).
    cbn [while_current]. rewrite Hc, Hcu. exists []. split; [|done].
    unfold after. cbn [Nat.add]. rewrite app_nil_r. by destruct st. }
  pose proof (next_of_numbered P HP n) as Hn.
  destruct (numbered_page_cons n) as (c & u & Hcu).
  destruct (numbered_page_cons (n + 1)) as (c' & u' & Hcu').
  destruct (numbered_page_new n (visited l) Hv) as (Hcur & Hnew & Hv').
  rewrite Hcu' in Hn, Hnew.
  destruct (failing_pass l (numbered_page P n) c' u' st Hm Hcur Hn Hnew)
    as (evs1 & Hpass & Hev1 & Hh1).
  { apply Hun. lia. }
  cbn [while_current]. rewrite Hc, Hcu. rewrite <- Hcu. rewrite (bind_ok _ _ _ _ _ Hpass).
  edestruct (IH (n + 1)%N) as (evs2 & -> & Hev2 & Hh2).
  - intros m t Hle. apply Hun. lia.
  - cbn [current]. by rewrite Hcu'.
  - done.
  - exact Hv'.
  - exists (evs1 ++ evs2). rewrite after_after. split; [done|]. split; by apply Forall_app.
Qed.

(** From a numbered page on, no number of passes ends the loop. *)
Lemma while_numbered fuel n l st :
  (forall m, (n <= m)%N ->
             (forall t, unavailable E t (numbered_page P m)) \/
             (forall t, answers_200 E t (numbered_page P (m + 1)))) ->
  current l = Some (numbered_page P n) -> pagination_mode l = Some Url ->
  (forall u, u ∈ visited l ->
             u = first_page P \/ exists m, (m < n)%N /\ u = numbered_page P m) ->
  exists st', while_current E fuel None l st = (Ok None, st').
Proof.
  revert n l st. induction fuel as [|fuel IH]; intros n l st Hgo Hc Hm Hv.
  { destruct (numbered_page_cons n) as (c & u & Hcu).
    cbn [while_current]. rewrite Hc, Hcu. munfold. eauto. }
  pose proof (next_of_numbered P HP n) as Hn.
  destruct (numbered_page_cons n) as (c & u & Hcu).
  destruct (numbered_page_cons (n + 1)) as (c' & u' & Hcu').
  destruct (numbered_page_new n (visited l) Hv) as (Hcur & Hnew & Hv').
  rewrite Hcu' in Hn, Hnew.
  assert (exists st1,
            loop_body E None l (numbered_page P n) st
            = (Ok (Continue (mkLocals (Some (c' :: u')) ({[numbered_page P n]} ∪ visited l)
                                      (S (page l)) (Some Url))), st1)) as [st1 Hpass].
  { destruct (Hgo n (N.le_refl n)) as [Hun|Hhead].
    - destruct (failing_pass l (numbered_page P n) c' u' st Hm Hcur Hn Hnew (Hun _))
        as (evs & Hpass & _). eauto.
    - apply later_pass; try done. by rewrite <- Hcu'. }
  cbn [while_current]. rewrite Hc, Hcu. rewrite <- Hcu. rewrite (bind_ok _ _ _ _ _ Hpass).
  apply (IH (n + 1)%N).
  - intros m Hle. apply Hgo. lia.
  - cbn [current]. by rewrite Hcu'.
  - done.
  - exact Hv'.
Qed.

End Answers.

(** X16.  A crawl without a page limit need not end.  Started, as the GUI
    starts it, without [max_pages] on a URL that ends in [common_list.shtml]
    (with no other [common_list] in it), [run] settles on the mode of
    numbered URLs when the first page has no enabled next-page button and
    the second page answers the probe.  From then on it goes from
    [common_list_n.shtml] to [common_list_n+1.shtml] as long as each page
    either cannot be fetched or has a successor that answers the probes:
    when that holds of every page, no number of passes through the loop ends
    the run, whatever the pages hold and whether the downloads succeed or
    fail. *)
Theorem crawl_without_limit_has_no_end (E : Env) (P : str) :
  contains (lit "common_list") P = false ->
  (forall t, exists r,
     request E t GET (first_page P) = Some r /\
     (status_code r < 400 \/ 600 <= status_code r) /\
     existsb enabled_next (find_all_a (document r)) = false) ->
  (forall t, answers_200 E t (numbered_page P 2)) ->
  (forall n, (2 <= n)%N ->
             (forall t, unavailable E t (numbered_page P n)) \/
             (forall t, answers_200 E t (numbered_page P (n + 1)))) ->
  forall fuel st, exists st', run E (first_page P) None fuel st = (Ok None, st').
Proof.
  intros HP Hget Hsecond Hgo fuel st. unfold run.
  rewrite (bind_ok _ _ _ _ _ (log_ok _ _ _)).
  set (st0 := after st 0 _).
  set (l0 := mkLocals (Some (first_page P)) ∅ 1 None).
  assert (exists st', while_current E fuel None l0 st0 = (Ok None, st')) as [st' Hw].
  2:{ exists st'. by rewrite (bind_ok _ _ _ _ _ Hw). }
  assert (exists c u, first_page P = c :: u) as (c & u & Hcu).
  { destruct (first_page P) as [|c u] eqn:H; [|eauto].
    apply (f_equal length) in H. unfold first_page in H. rewrite length_app in H.
    cbn in H. lia. }
  destruct fuel as [|fuel].
  { cbn [while_current l0 current]. rewrite Hcu. munfold. eauto. }
  pose proof (next_of_first P HP) as Hn.
  destruct (numbered_page_cons P 2) as (c' & u' & Hcu').
  rewrite Hcu' in Hn.
  destruct (first_pass E l0 (first_page P) c' u' st0) as [st1 Hpass].
  - done.
  - cbn. set_solver.
  - intros t. destruct (Hget t) as (r & Hr & Hs & Hb). exists r. split; [done|]. split; [|done].
    apply andb_false_iff. rewrite Nat.leb_gt, Nat.ltb_ge. lia.
  - apply shapes_recognized. left. apply endswith_spec. by exists P.
  - done.
  - cbn [visited l0]. rewrite <- Hcu'. rewrite elem_of_union, elem_of_singleton.
    intros [Hu|Hu]; [|set_solver]. symmetry in Hu. by apply first_page_not_numbered in Hu.
  - by rewrite <- Hcu'.
  - cbn [while_current l0 current]. rewrite Hcu. rewrite <- Hcu.
    rewrite (bind_ok _ _ _ _ _ Hpass).
    apply (while_numbered E P HP fuel 2).
    + done.
    + cbn [current]. by rewrite Hcu'.
    + done.
    + cbn [visited]. intros x. rewrite elem_of_union, elem_of_singleton.
      intros [->|Hx]; [by left|set_solver].
Qed.

Lemma crawl_without_limit_has_no_end_witness :
  exists st', run always_200 (start_url (lit "c100122")) None 3 (init ∅) = (Ok None, st').
Proof.
  apply (crawl_without_limit_has_no_end always_200 (lit "http://www.csrc.gov.cn/csrc/c100122/")).
  - reflexivity.
  - intros t. eexists. split; [reflexivity|]. split; [cbn; lia|reflexivity].
  - intros t. eexists. split; reflexivity.
  - intros n _. right. intros t. eexists. split; reflexivity.
Defined.

Lemma failed_pages_are_passed_for_ever_witness :
  let P := lit "http://www.csrc.gov.cn/csrc/c100122/" in
  let l := mkLocals (Some (numbered_page P 3)) {[first_page P; numbered_page P 2]} 3 (Some Url) in
  exists evs,
    while_current offline 4 None l (init ∅) = (Ok None, after (init ∅) 4 evs) /\
    Forall no_pause evs /\
    Forall (fun ev => forall u, ev <> Request HEAD u false 10) evs.
Proof.
  intros P l. apply (failed_pages_are_passed_for_ever offline P eq_refl 3 4 l (init ∅)).
  - intros m t _. exact I.
  - reflexivity.
  - reflexivity.
  - intros u. cbn [visited l]. rewrite elem_of_union, !elem_of_singleton.
    intros [->| ->]; [by left|]. right. exists 2%N. split; [lia|done].
Defined.

End Endless.
(* ===================================================================== *)
(** ** The pagination links of a page *)
(* ===================================================================== *)

Module Pagination.
Import Py Re Bs4 Crawler Fixture Notions StrFacts MFacts ReFacts Oracle Orchestrator Successor Passes Endless.

(** Induction over a document tree. *)
Lemma Node_tree_ind (Q : Node -> Prop) :
  (forall s, Q (NavigableString s)) ->
  (forall name a ch, Forall Q ch -> Q (Tag name a ch)) ->
  forall n, Q n.
Proof.
  intros Hs Ht. fix IH 1. intros [s|name a ch]; [apply Hs|].
  apply Ht. induction ch as [|c ch IHch]; constructor; [apply IH|exact IHch].
Qed.

Lemma descendants_Tag name a ch :
  descendants (Tag name a ch) = flat_map (fun c => c :: descendants c) ch.
Proof. cbn [descendants]. induction ch as [|c ch IH]; [done|]. cbn [flat_map app]. by rewrite IH. Qed.

(** A descendant of a descendant is a descendant. *)
Lemma descendants_trans n : forall m x, m ∈ descendants n -> x ∈ descendants m -> x ∈ descendants n.
Proof.
  induction n as [s|name a ch IH] using Node_tree_ind; intros m x Hm Hx.
  { by apply elem_of_nil in Hm. }
  rewrite descendants_Tag in Hm |- *.
  rewrite list_elem_of_In, in_flat_map in Hm |- *. destruct Hm as (c & Hc & Hm).
  exists c. split; [done|]. rewrite <- list_elem_of_In in Hm |- *.
  apply elem_of_cons in Hm as [->|Hm].
  - apply elem_of_cons. by right.
  - apply elem_of_cons. right. rewrite Forall_forall in IH.
    eapply (IH c); [by apply list_elem_of_In|exact Hm|exact Hx].
Qed.

Lemma soup_descendants_trans soup m x :
  m ∈ soup_descendants soup -> x ∈ descendants m -> x ∈ soup_descendants soup.
Proof.
  unfold soup_descendants. rewrite !list_elem_of_In, !in_flat_map.
  intros (c & Hc & Hm) Hx. exists c. split; [exact Hc|].
  rewrite <- list_elem_of_In in Hm, Hx |- *. apply elem_of_cons in Hm as [->|Hm].
  - apply elem_of_cons. by right.
  - apply elem_of_cons. right. by apply (descendants_trans c m).
Qed.

Lemma truthy_href h : truthy (Some h) = true <-> h <> [].
Proof. by destruct h. Qed.

Lemma anchors_of_page soup n a :
  n ∈ soup_descendants soup -> a ∈ anchors_in (descendants n) -> a ∈ find_all_a soup.
Proof.
  unfold find_all_a, anchors_in. rewrite !list_elem_of_omap.
  intros Hn (x & Hx & Ha). exists x. split; [|done]. by apply (soup_descendants_trans soup n).
Qed.

Lemma only_logged_refl st : only_logged st st.
Proof.
  repeat split. exists []. by rewrite app_nil_r.
Qed.

Lemma only_logged_log st msg st' :
  only_logged (after st 0 [Log INFO msg]) st' -> only_logged st st'.
Proof.
  intros (Hd & Hk & Hc & evs & Ht & Hall). cbn in Hd, Hk, Hc, Ht.
  repeat split; try done. exists (Log INFO msg :: evs). split.
  - by rewrite Ht, <- app_assoc.
  - constructor; [eauto|done].
Qed.

Section Links.
Variable E : Env.

(** A list collected from the parts a partial function gives. *)
Lemma collected_spec {X} (f : X -> option (list str)) (g : list X -> option (list str)) :
  g [] = Some [] ->
  (forall c cs, g (c :: cs) = match f c with
                              | None => None
                              | Some links => app links <$> g cs
                              end) ->
  forall l,
    (g l = None <-> exists c, c ∈ l /\ f c = None) /\
    (forall res, g l = Some res ->
       forall u, u ∈ res <-> exists c links, c ∈ l /\ f c = Some links /\ u ∈ links).
Proof.
  intros Hnil Hcons. induction l as [|c cs [IHn IHs]].
  { rewrite Hnil. split.
    - split; [done|]. intros (c & Hc & _). by apply elem_of_nil in Hc.
    - intros res [= <-] u. split; [by intros ?%elem_of_nil|].
      intros (c & _ & Hc & _). by apply elem_of_nil in Hc. }
  rewrite Hcons. destruct (f c) as [links|] eqn:Hf.
  2:{ split; [|done]. split; [|done]. intros _. exists c. split; [by left|done]. }
  destruct (g cs) as [rest|] eqn:Hg; cbn.
  - split.
    + split; [done|]. intros (c' & [->|Hc']%elem_of_cons & Hn); [congruence|].
      assert (Some rest = None) by (apply IHn; eauto). done.
    + intros res [= <-] u. rewrite elem_of_app, (IHs rest eq_refl u). split.
      * intros [Hu|(c' & links' & Hc' & Hf' & Hu)].
        -- exists c, links. split; [by left|done].
        -- exists c', links'. split; [by right|done].
      * intros (c' & links' & [->|Hc']%elem_of_cons & Hf' & Hu).
        -- left. congruence.
        -- right. eauto.
  - split; [|done]. split; [|done]. intros _.
    destruct IHn as [IHn _]. destruct (IHn eq_refl) as (c' & Hc' & Hn).
    exists c'. split; [by right|done].
Qed.

Lemma joined_links_spec cur l :
  (joined_links E cur l = None <->
   exists a, a ∈ l /\ href a <> [] /\ urljoin E cur (href a) = None) /\
  (forall res, joined_links E cur l = Some res ->
     forall u, u ∈ res <-> exists a, a ∈ l /\ href a <> [] /\ urljoin E cur (href a) = Some u).
Proof.
  destruct (collected_spec
              (fun a => if truthy (Some (href a))
                        then (fun full => [full]) <$> urljoin E cur (href a) else Some [])
              (joined_links E cur)) with (l := l) as [Hn Hs].
  { done. }
  { intros a l'. cbn [joined_links]. destruct (truthy _); [|by destruct (joined_links _ _ _)].
    by destruct (urljoin E cur (href a)). }
  split.
  - rewrite Hn. split.
    + intros (a & Ha & Hf). exists a. split; [done|].
      destruct (truthy (Some (href a))) eqn:Ht; [|done]. apply truthy_href in Ht.
      split; [done|]. by destruct (urljoin E cur (href a)).
    + intros (a & Ha & Hh & Hj). exists a. split; [done|].
      apply truthy_href in Hh. by rewrite Hh, Hj.
  - intros res Hres u. rewrite (Hs res Hres u). split.
    + intros (a & links & Ha & Hf & Hu). exists a. split; [done|].
      destruct (truthy (Some (href a))) eqn:Ht; [|injection Hf as <-; by apply elem_of_nil in Hu].
      apply truthy_href in Ht. split; [done|].
      destruct (urljoin E cur (href a)) as [full|]; [|done]. injection Hf as <-.
      by apply list_elem_of_singleton in Hu as ->.
    + intros (a & Ha & Hh & Hj). exists a, [u]. split; [done|].
      apply truthy_href in Hh. rewrite Hh, Hj. split; [done|]. by apply list_elem_of_singleton.
Qed.

Lemma find_all_attrs_spec sel soup n :
  n ∈ find_all_attrs sel soup <->
  n ∈ soup_descendants soup /\ exists ats, attrs_of n = Some ats /\ sel ats = true.
Proof.
  unfold find_all_attrs. rewrite list_elem_of_In, filter_In, <- list_elem_of_In.
  destruct (attrs_of n) as [ats|].
  - split; [intros [? ?]; eauto|]. by intros [? (ats' & [= <-] & ?)].
  - split; [by intros [_ ?]|]. by intros [_ (? & ? & _)].
Qed.

Lemma in_containers_spec soup cur :
  (selectors_links E soup cur pagination_selectors = None <->
   exists a, in_container soup a /\ urljoin E cur (href a) = None) /\
  (forall res, selectors_links E soup cur pagination_selectors = Some res ->
     forall u, u ∈ res <-> exists a, in_container soup a /\ urljoin E cur (href a) = Some u).
Proof.
  destruct (collected_spec (selector_links E soup cur) (selectors_links E soup cur))
    with (l := pagination_selectors) as [Hn Hs]; [done|done|].
  assert (forall sel,
    (selector_links E soup cur sel = None <->
     exists n a, n ∈ find_all_attrs sel soup /\ a ∈ anchors_in (descendants n) /\
                 href a <> [] /\ urljoin E cur (href a) = None) /\
    (forall res, selector_links E soup cur sel = Some res ->
       forall u, u ∈ res <->
         exists n a, n ∈ find_all_attrs sel soup /\ a ∈ anchors_in (descendants n) /\
                     href a <> [] /\ urljoin E cur (href a) = Some u)) as Hsel.
  { intros sel.
    destruct (collected_spec (container_links E cur) (containers_links E cur))
      with (l := find_all_attrs sel soup) as [Hn' Hs']; [done|done|].
    unfold selector_links. split.
    - rewrite Hn'. split.
      + intros (n & Hin & Hc). apply joined_links_spec in Hc as (a & Ha & Hh & Hj). eauto 6.
      + intros (n & a & Hin & Ha & Hh & Hj). exists n. split; [done|].
        apply joined_links_spec. eauto.
    - intros res Hres u. rewrite (Hs' res Hres u). split.
      + intros (n & links & Hin & Hc & Hu).
        apply (proj2 (joined_links_spec cur _) links Hc u) in Hu as (a & Ha & Hh & Hj). eauto 6.
      + intros (n & a & Hin & Ha & Hh & Hj).
        destruct (container_links E cur n) as [links|] eqn:Hc.
        * exists n, links. split; [done|]. split; [done|].
          apply (proj2 (joined_links_spec cur _) links Hc u). eauto.
        * exfalso. assert (containers_links E cur (find_all_attrs sel soup) = None) as Hnone
            by (apply Hn'; eauto). congruence. }
  split.
  - rewrite Hn. split.
    + intros (sel & Hin & Hc). apply Hsel in Hc as (n & a & Hf & Ha & Hh & Hj).
      apply find_all_attrs_spec in Hf as (Hd & ats & Hat & Hm).
      exists a. split; [|done]. exists n, ats, sel. done.
    + intros (a & (n & ats & sel & Hd & Hat & Hin & Hm & Ha & Hh) & Hj).
      exists sel. split; [done|]. apply Hsel. exists n, a. split; [|done].
      apply find_all_attrs_spec. eauto.
  - intros res Hres u. rewrite (Hs res Hres u). split.
    + intros (sel & links & Hin & Hc & Hu).
      apply (proj2 (Hsel sel) links Hc u) in Hu as (n & a & Hf & Ha & Hh & Hj).
      apply find_all_attrs_spec in Hf as (Hd & ats & Hat & Hm).
      exists a. split; [|done]. exists n, ats, sel. done.
    + intros (a & (n & ats & sel & Hd & Hat & Hin & Hm & Ha & Hh) & Hj).
      assert (exists n a', n ∈ find_all_attrs sel soup /\ a' ∈ anchors_in (descendants n) /\
                           href a' <> [] /\ urljoin E cur (href a') = Some u) as Hex.
      { exists n, a. split; [|done]. apply find_all_attrs_spec. eauto. }
      destruct (selector_links E soup cur sel) as [links|] eqn:Hc.
      * exists sel, links. split; [done|]. split; [done|].
        by apply (proj2 (Hsel sel) links Hc u).
      * exfalso. assert (selectors_links E soup cur pagination_selectors = None) as Hnone
          by (apply Hn; eauto). congruence.
Qed.

(** The second loop: it writes INFO lines, and raises when a numbered
    anchor has a reference that cannot be joined. *)
Lemma numbered_links_spec cur l : forall acc st,
  exists res st',
    numbered_links E cur l acc st = (res, st') /\ only_logged st st' /\
    match res with
    | Ok links =>
        (forall a, a ∈ l -> numbered_anchor a = true -> is_Some (urljoin E cur (href a))) /\
        forall u, u ∈ links <->
                  u ∈ acc \/ exists a, a ∈ l /\ numbered_anchor a = true /\
                                       urljoin E cur (href a) = Some u
    | Raise e =>
        e = ValueError /\
        exists a, a ∈ l /\ numbered_anchor a = true /\ urljoin E cur (href a) = None
    end.
Proof.
  induction l as [|a l IH]; intros acc st; cbn [numbered_links].
  { exists (Ok acc), st. split; [done|]. split; [apply only_logged_refl|]. split.
    - by intros a Ha%elem_of_nil.
    - intros u. split; [auto|]. intros [H|(a & Ha & _)]; [done|]. by apply elem_of_nil in Ha. }
  fold (numbered_anchor a). destruct (numbered_anchor a) eqn:Hna.
  - rewrite (bind_ok _ _ _ _ _ (log_ok _ _ _)).
    rewrite (bind_ok _ _ _ _ _ (log_ok _ _ _)).
    destruct (urljoin E cur (href a)) as [full|] eqn:Hj.
    2:{ eexists (Raise ValueError), _. split; [by apply bind_raise|]. split.
        { do 2 eapply only_logged_log. apply only_logged_refl. }
        split; [done|]. exists a. split; [by left|done]. }
    rewrite returned_bind.
    rewrite (bind_ok _ _ _ _ _ (log_ok _ _ _)).
    edestruct IH as (res & st' & -> & Hlog & Hres).
    exists res, st'. split; [done|]. split.
    { by do 3 apply only_logged_log in Hlog. }
    destruct res as [links|e].
    + destruct Hres as [Hall Hres]. split.
      { intros b [->|Hb]%elem_of_cons Hnb; [by rewrite Hj|by apply Hall]. }
      intros u. rewrite Hres. setoid_rewrite elem_of_cons. split.
      * intros [Hu|(b & Hb & Hnb & Hjb)]; [|by eauto 6].
        destruct (bool_decide _); [by left|].
        apply elem_of_app in Hu as [Hu|Hu]; [by left|].
        apply list_elem_of_singleton in Hu as ->. right. eauto.
      * intros [Hu|(b & [->|Hb] & Hnb & Hjb)]; [| |by eauto].
        -- left. destruct (bool_decide _); [done|]. apply elem_of_app. by left.
        -- left. assert (u = full) as -> by congruence. destruct (bool_decide _) eqn:Hd.
           ++ by apply bool_decide_eq_true in Hd.
           ++ apply elem_of_app. right. by apply list_elem_of_singleton.
    + destruct Hres as (-> & b & Hb & Hnb & Hjb). split; [done|].
      exists b. split; [by right|done].
  - destruct (IH acc st) as (res & st' & -> & Hlog & Hres).
    exists res, st'. split; [done|]. split; [done|].
    destruct res as [links|e].
    + destruct Hres as [Hall Hres]. split.
      { intros b [->|Hb]%elem_of_cons Hnb; [congruence|by apply Hall]. }
      intros u. rewrite Hres. setoid_rewrite elem_of_cons. split.
      * intros [Hu|(b & Hb & Hnb & Hjb)]; eauto 6.
      * intros [Hu|(b & [->|Hb] & Hnb & Hjb)]; [by left|congruence|by eauto].
    + destruct Hres as (-> & b & Hb & Hnb & Hjb). split; [done|].
      exists b. split; [by right|done].
Qed.

Lemma pattern_href_nonempty h : _has_url_pagination_pattern h = true -> h <> [].
Proof. by intros H ->. Qed.

Lemma pagination_anchor_of_page soup a :
  pagination_anchor soup a -> a ∈ find_all_a soup /\ href a <> [].
Proof.
  intros [(n & ats & sel & Hn & _ & _ & _ & Ha & Hh)|[Ha Hna]].
  - split; [by apply (anchors_of_page soup n)|done].
  - split; [done|]. apply andb_true_iff in Hna as [_ Hp]. by apply pattern_href_nonempty.
Qed.

(** X17.  What [find_all_pagination_links] does, a set being iterated
    without repetition.  The references it joins with the current URL are
    those of the anchors with a non-empty [href] below a tag whose [class]
    or [id] matches a selector, and of the anchors of the page whose text
    is a number and whose [href] shows pagination.  It changes the state
    only by INFO lines of the log.  When it returns, [urljoin] has accepted
    every one of these references, and the list has no duplicates and holds
    exactly their joins: so every link it returns is the joined, non-empty
    reference of an anchor of the page.  When it raises, the exception is
    the [ValueError] of [urljoin] on one of these references. *)
Theorem pagination_links_come_from_the_page soup cur st :
  set_order_ok E ->
  exists res st',
    find_all_pagination_links E soup cur st = (res, st') /\
    only_logged st st' /\
    match res with
    | Ok links =>
        NoDup links /\
        (forall a, pagination_anchor soup a -> is_Some (urljoin E cur (href a))) /\
        (forall u, u ∈ links <->
           exists a, pagination_anchor soup a /\ urljoin E cur (href a) = Some u) /\
        (forall u, u ∈ links ->
           exists a, a ∈ find_all_a soup /\ href a <> [] /\ urljoin E cur (href a) = Some u)
    | Raise e =>
        e = ValueError /\
        exists a, pagination_anchor soup a /\ urljoin E cur (href a) = None
    end.
Proof.
  intros Hset. unfold find_all_pagination_links. fold pagination_selectors.
  destruct (in_containers_spec soup cur) as [Hnone Hsome].
  destruct (selectors_links E soup cur pagination_selectors) as [inc|] eqn:Hinc.
  2:{ exists (Raise ValueError), st. split; [done|]. split; [apply only_logged_refl|].
      split; [done|]. destruct (proj1 Hnone eq_refl) as (a & Ha & Hj).
      exists a. split; [by left|done]. }
  rewrite returned_bind.
  destruct (numbered_links_spec cur (find_all_a soup) inc st)
    as (res & st' & Hrun & Hlog & Hres).
  destruct res as [links|e].
  2:{ exists (Raise e), st'. split; [by apply bind_raise|]. split; [done|].
      destruct Hres as (-> & a & Ha & Hna & Hj). split; [done|].
      exists a. split; [by right|done]. }
  exists (Ok (set_order E links)), st'. destruct (Hset links) as [Hnd Hmem].
  destruct Hres as [Hall Hres].
  assert (forall u, u ∈ set_order E links <->
            exists a, pagination_anchor soup a /\ urljoin E cur (href a) = Some u) as Hchar.
  { intros u. rewrite Hmem, Hres, (Hsome inc eq_refl u). unfold pagination_anchor. split.
    - intros [(a & Ha & Hj)|(a & Ha & Hna & Hj)]; exists a; auto.
    - intros (a & [Ha|[Ha Hna]] & Hj); eauto. }
  split; [by rewrite (bind_ok _ _ _ _ _ Hrun)|]. split; [done|]. split; [done|].
  split; [|split; [exact Hchar|]].
  - intros a [Ha|[Ha Hna]]; [|by apply Hall].
    destruct (urljoin E cur (href a)) eqn:Hj; [done|].
    assert (Some inc = None) by (apply Hnone; eauto). done.
  - intros u (a & [Ha Hh]%pagination_anchor_of_page & Hj)%Hchar. eauto.
Qed.

(** Detection changes the mode to that of the button only through an
    enabled next-page anchor. *)
Lemma detect_without_button l1 cur soup st :
  pagination_mode l1 = None ->
  existsb enabled_next (find_all_a soup) = false ->
  _has_url_pagination_pattern cur = false ->
  (exists e st', detect_once E l1 cur soup st = (Raise e, st')) \/
  (exists mode st',
     detect_once E l1 cur soup st
     = (Ok (mkLocals (current l1) (visited l1) (page l1) mode), st') /\
     mode <> Some Button).
Proof.
  intros Hm Hbutton Hpat. unfold detect_once. rewrite Hm.
  unfold detect_pagination_mode. rewrite Hbutton, Hpat.
  unfold mbind, M_bind, bind, mret at 1, M_ret at 1, ret at 1.
  destruct (find_all_pagination_links E soup cur st) as [[links|e] st2] eqn:Hlinks.
  2:{ left. eauto. }
  right. munfold. rewrite Hlinks.
  destruct (existsb _has_url_pagination_pattern (take 5 links)); munfold.
  - exists (Some Url). eexists. split; [reflexivity|done].
  - exists None. eexists. split; [reflexivity|done].
Qed.

Lemma no_pattern_no_successor url :
  _has_url_pagination_pattern url = false -> generate_next_url url = None.
Proof.
  intros Hp. destruct (generate_next_url url) as [next|] eqn:Hg; [|done].
  assert (is_Some (generate_next_url url)) as Hs by (by rewrite Hg).
  apply generate_next_url_some, shapes_recognized in Hs. congruence.
Qed.

(** Without a successor a pass over a page is the last one, unless the
    mode is the one of the button. *)
Lemma error_breaks l cur e st :
  pagination_mode l <> Some Button -> generate_next_url cur = None ->
  exists l' st',
    on_page_error l cur e st = (Ok (Break l'), st') /\
    visited l' = visited l /\ page l' = page l /\ pagination_mode l' = pagination_mode l.
Proof.
  intros Hm Hn. unfold on_page_error. rewrite Hn.
  rewrite (bind_ok _ _ _ _ _ (log_ok _ _ _)).
  destruct (pagination_mode l) as [[]|] eqn:Hl; [done| |]; cbn; munfold; eauto 6.
Qed.

Lemma page_breaks l cur soup st :
  pagination_mode l <> Some Button -> generate_next_url cur = None ->
  exists l' st',
    try_except (process_page E l cur soup) (on_page_error l cur) st = (Ok (Break l'), st') /\
    visited l' = visited l /\ page l' = page l /\ pagination_mode l' = pagination_mode l.
Proof.
  intros Hm Hn. unfold process_page.
  destruct (extract_links E soup cur) as [[files contents]|].
  2:{ erewrite try_raise; [by apply error_breaks|]. by apply bind_raise. }
  rewrite returned_bind. cbv beta iota.
  destruct (download_all E files st) as [[[]|e] st1] eqn:Hd.
  2:{ erewrite try_raise; [by apply error_breaks|]. by apply bind_raise. }
  destruct (for_each contents (process_content E) st1) as [[[]|e] st2] eqn:Hc.
  2:{ erewrite try_raise; [by apply error_breaks|].
      rewrite (bind_ok _ _ _ _ _ Hd). by apply bind_raise. }
  destruct (pagination_mode l) as [[]|] eqn:Hl; [done| |].
  - exists l. eexists. split; [|done]. apply try_ok.
    rewrite (bind_ok _ _ _ _ _ Hd), (bind_ok _ _ _ _ _ Hc).
    unfold is_last_page. rewrite Hn. munfold. reflexivity.
  - exists l. eexists. split; [|done]. apply try_ok.
    rewrite (bind_ok _ _ _ _ _ Hd), (bind_ok _ _ _ _ _ Hc).
    munfold. reflexivity.
Qed.

(** The pass over a first page that has no next-page button and whose URL
    shows no pagination: whatever the page links to, the pass is the last. *)
Lemma single_pass l cur max_pages st :
  pagination_mode l = None -> cur ∉ visited l -> page l = 1 ->
  _has_url_pagination_pattern cur = false ->
  (forall t r, request E t GET cur = Some r ->
               existsb enabled_next (find_all_a (document r)) = false) ->
  exists l' st',
    loop_body E max_pages l cur st = (Ok (Break l'), st') /\
    visited l' = {[cur]} ∪ visited l /\ page l' = 1 /\ pagination_mode l' <> Some Button.
Proof.
  intros Hm Hcur Hp Hpat Hget. pose proof (no_pattern_no_successor cur Hpat) as Hn.
  unfold loop_body. rewrite bool_decide_eq_false_2 by done.
  assert (match max_pages with Some (S n) => (S n <? page l)%nat | _ => false end = false) as ->.
  { rewrite Hp. destruct max_pages as [[|n]|]; try done; apply Nat.ltb_ge; lia. }
  set (l1 := mkLocals (current l) ({[cur]} ∪ visited l) (page l) (pagination_mode l)).
  rewrite (bind_ok _ _ _ _ _ (log_ok _ _ _)).
  set (st0 := after st 0 _).
  assert (pagination_mode l1 <> Some Button) as Hm1 by (cbn; by rewrite Hm).
  assert (forall e st1,
            exists l' st',
              on_page_error l1 cur e st1 = (Ok (Break l'), st') /\
              visited l' = {[cur]} ∪ visited l /\ page l' = 1 /\
              pagination_mode l' <> Some Button) as Herr.
  { intros e st1.
    destruct (error_breaks l1 cur e st1 Hm1 Hn) as (l' & st' & -> & Hv & Hpg & Hmd).
    exists l', st'. rewrite Hv, Hpg, Hmd. cbn. by rewrite Hp, Hm. }
  pose proof (fetch_eq E cur st0) as Hf.
  destruct (request E (clock st0) GET cur) as [r|] eqn:Hr.
  2:{ erewrite bind_ok; [|erewrite try_raise; [reflexivity|by apply bind_raise]].
      cbv beta iota. apply Herr. }
  destruct (_ && _).
  { erewrite bind_ok; [|erewrite try_raise; [reflexivity|by apply bind_raise]].
    cbv beta iota. apply Herr. }
  erewrite bind_ok; [|apply try_ok; by rewrite (bind_ok _ _ _ _ _ Hf)].
  cbv beta iota. set (st1 := after st0 1 _).
  pose proof (Hget _ _ Hr) as Hbutton.
  destruct (detect_without_button l1 cur (document r) st1) as
    [(e & st3 & Hdet)|(mode & st3 & Hdet & Hmode)]; [by cbn|done|done| |].
  { erewrite bind_ok; [|erewrite try_raise; [reflexivity|by apply bind_raise]].
    cbv beta iota. apply Herr. }
  set (l2 := mkLocals (current l1) (visited l1) (page l1) mode) in *.
  erewrite bind_ok; [|apply try_ok; by rewrite (bind_ok _ _ _ _ _ Hdet)].
  cbv beta iota.
  assert (pagination_mode l2 <> Some Button) as Hm2 by done.
  destruct (page_breaks l2 cur (document r) st3 Hm2 Hn) as (l' & st' & -> & Hv & Hpg & Hmd).
  exists l', st'. rewrite Hv, Hpg, Hmd. cbn. by rewrite Hp.
Qed.

(** X18.  The pagination links found on a page are never followed.  When
    the start URL shows no pagination and the first page has no enabled
    next-page button, [run] ends after that one page, whatever the page
    links to and with or without a page limit: the mode is detected from the
    links at best, and in that mode the successor is synthesized from the
    current URL, which has none. *)
Theorem found_links_are_not_followed base max_pages fuel st :
  base <> [] ->
  _has_url_pagination_pattern base = false ->
  (forall t r, request E t GET base = Some r ->
               existsb enabled_next (find_all_a (document r)) = false) ->
  exists l' st',
    run E base max_pages (S fuel) st = (Ok (Some l'), st') /\
    visited l' = {[base]} /\ page l' = 1 /\ pagination_mode l' <> Some Button.
Proof.
  intros Hne Hpat Hget. destruct base as [|c u]; [done|]. unfold run.
  rewrite (bind_ok _ _ _ _ _ (log_ok _ _ _)).
  set (st0 := after st 0 _).
  destruct (single_pass (mkLocals (Some (c :: u)) ∅ 1 None) (c :: u) max_pages st0)
    as (l' & st' & Hpass & Hv & Hp & Hm); [done|set_solver|done|done|done|].
  exists l'. eexists. split.
  - cbn [while_current current].
    rewrite (bind_ok _ _ _ _ _ (bind_ok _ _ _ _ _ Hpass)). munfold. reflexivity.
  - split; [|done]. rewrite Hv. cbn [visited]. apply (right_id_L ∅ (∪)).
Qed.


End Links.

Lemma pagination_links_come_from_the_page_witness :
  let E := fx_env site_pages (fun _ => true) in
  exists links st',
    find_all_pagination_links E doc_pages list_url (init ∅) = (Ok links, st') /\
    NoDup links /\
    forall u, u ∈ links ->
              exists a, a ∈ find_all_a doc_pages /\ href a <> [] /\
                        urljoin E list_url (href a) = Some u.
Proof.
  intros E.
  destruct (pagination_links_come_from_the_page E doc_pages list_url (init ∅)
              (Classifier.fx_set_order_ok _ _)) as (res & st' & H & _ & Hres).
  destruct res as [links|e].
  - exists links, st'. destruct Hres as (Hnd & _ & _ & Hfrom). auto.
  - exfalso. vm_compute in H. discriminate H.
Defined.

(** A reference that [urljoin] rejects: the second loop has written its
    first two lines when the third raises, and [extract_links] raises on
    the same page. *)
Lemma unjoinable_link_raises :
  let E := fx_env [] (fun _ => true) in
  find_all_pagination_links E doc_unjoinable list_url (init ∅)
  = (Raise ValueError,
     after (init ∅) 0
       [Log INFO (lit "Found numbered pagination link: //[page_2.html");
        Log INFO (lit "Current URL: http://x/list.html")]) /\
  extract_links E doc_unjoinable list_url = None.
Proof. split; reflexivity. Qed.

Lemma found_links_are_not_followed_witness :
  exists l' st',
    run (fx_env site_pages (fun _ => true)) list_url None 5 (init ∅) = (Ok (Some l'), st') /\
    visited l' = {[list_url]} /\ page l' = 1 /\ pagination_mode l' <> Some Button.
Proof.
  apply (found_links_are_not_followed (fx_env site_pages (fun _ => true)) list_url None 4).
  - done.
  - reflexivity.
  - intros t r H. vm_compute in H. injection H as <-. reflexivity.
Defined.

End Pagination.

(* ===================================================================== *)
(** ** The next-page button *)
(* ===================================================================== *)

Module Buttons.
Import Py Re Bs4 Crawler Fixture Notions StrFacts MFacts ReFacts Oracle Store Orchestrator Passes Endless.

Section Buttons.
Variable E : Env.

Lemma find_next_button_none soup cur :
  (forall a, a ∈ find_all_a soup -> enabled_next a = true -> href a = []) ->
  find_next_button E soup cur = Some None.
Proof.
  intros Hall. unfold find_next_button.
  destruct (List.find _ (find_all_a soup)) as [a|] eqn:Hf; [exfalso|done].
  apply find_some in Hf as [Hin Hp]. apply andb_true_iff in Hp as [Hn Hh].
  apply list_elem_of_In in Hin. rewrite (Hall a Hin Hn) in Hh. discriminate Hh.
Qed.

(** The pass over a page with an enabled next-page anchor, but none with a
    non-empty [href], in the mode of the button. *)
Lemma pass_without_href l cur soup st :
  pagination_mode l = Some Button ->
  existsb enabled_next (find_all_a soup) = true ->
  (forall a, a ∈ find_all_a soup -> enabled_next a = true -> href a = []) ->
  last_link_here E cur (find_all_a soup) <> Some true ->
  match process_page E l cur soup st with
  | (Ok f, _) => f = Continue (mkLocals None (visited l) (S (page l)) (Some Button))
  | (Raise _, _) => True
  end /\
  (extract_links E soup cur = Some ([], []) ->
   exists st', process_page E l cur soup st = (Ok (Continue (mkLocals None (visited l) (S (page l)) (Some Button))), st')).
Proof.
  intros Hm Hnext Hhref Hlast.
  assert (forall files contents st1,
            last_link_here E cur (find_all_a soup) = Some false ->
            extract_links E soup cur = Some (files, contents) ->
            download_all E files st = (Ok tt, st1) ->
            forall st2, for_each contents (process_content E) st1 = (Ok tt, st2) ->
            exists st', process_page E l cur soup st
                        = (Ok (Continue (mkLocals None (visited l) (S (page l)) (Some Button))),
                           st')) as Hrun.
  { intros files contents st1 Hl Hex Hd st2 Hc. unfold process_page.
    rewrite Hex, returned_bind. cbv beta iota.
    rewrite (bind_ok _ _ _ _ _ Hd), (bind_ok _ _ _ _ _ Hc), Hm.
    unfold is_last_page. rewrite Hl, returned_bind, Hnext. cbn [negb].
    unfold mbind at 1, M_bind at 1, bind at 1. unfold mret at 1, M_ret at 1, ret at 1.
    cbv beta iota.
    unfold smart_next. rewrite (find_next_button_none _ _ Hhref), returned_bind.
    munfold. eauto. }
  split.
  - destruct (process_page E l cur soup st) as [[f|e] st'] eqn:Hpp; [|done].
    pose proof Hpp as Hpp'. unfold process_page in Hpp'.
    destruct (extract_links E soup cur) as [[files contents]|] eqn:Hex; [|discriminate Hpp'].
    rewrite returned_bind in Hpp'. cbv beta iota in Hpp'.
    apply bind_inv in Hpp' as [([] & st1 & Hd & Hpp')|(e & _ & [=])].
    apply bind_inv in Hpp' as [([] & st2 & Hc & Hpp')|(e & _ & [=])].
    rewrite Hm in Hpp'. unfold is_last_page in Hpp'.
    destruct (last_link_here E cur (find_all_a soup)) as [[]|] eqn:Hl;
      [done| |discriminate Hpp'].
    destruct (Hrun files contents st1 eq_refl eq_refl Hd st2 Hc) as [st3 Heq].
    by injection Heq as -> _.
  - intros Hex.
    destruct (last_link_here E cur (find_all_a soup)) as [[]|] eqn:Hl; [done| |].
    + by apply (Hrun [] [] st eq_refl Hex eq_refl st).
    + exfalso. apply last_link_here_none in Hl as (a & Ha & _ & _ & Hj).
      unfold extract_links in Hex.
      assert (classify E cur (find_all_a soup) = None) as Hn
        by (apply Classifier.classify_none; eauto).
      by rewrite Hn in Hex.
Qed.

(** X20.  A next-page button without a reference.  The detection of the
    mode and [is_last_page] look at the text of the anchor and at whether
    it is disabled; [find_next_button] also wants a non-empty [href].  So
    when the first page has an enabled next-page anchor, but none with a
    non-empty [href], and [is_last_page] finds no last-page link that
    points to the page itself, [run] takes the mode of the button and ends
    after this one page.  The counter it reports is 1 when the [try] block
    raised after the detection, and 2, with no successor, when it did not:
    the page was found not to be the last, and the counter was advanced
    before the missing successor ended the loop.  The block does not raise
    when [extract_links] returns no file and no content link. *)
Theorem next_button_without_href base max_pages fuel st soup :
  base <> [] ->
  (forall t, exists r,
     request E t GET base = Some r /\
     (status_code r < 400 \/ 600 <= status_code r) /\ document r = soup) ->
  existsb enabled_next (find_all_a soup) = true ->
  (forall a, a ∈ find_all_a soup -> enabled_next a = true -> href a = []) ->
  last_link_here E base (find_all_a soup) <> Some true ->
  exists l' st',
    run E base max_pages (S fuel) st = (Ok (Some l'), st') /\
    visited l' = {[base]} /\ pagination_mode l' = Some Button /\
    match process_page E (mkLocals (Some base) {[base]} 1 (Some Button)) base soup
            (first_pass_state base st) with
    | (Ok _, _) => page l' = 2 /\ current l' = None
    | (Raise _, _) => page l' = 1 /\ current l' = Some base
    end /\
    (extract_links E soup base = Some ([], []) -> page l' = 2 /\ current l' = None).
Proof.
  intros Hne Hget Hnext Hhref Hlast. destruct base as [|c u]; [done|]. unfold run.
  rewrite (bind_ok _ _ _ _ _ (log_ok _ _ _)).
  set (st0 := after st 0 _). set (cur := c :: u) in *.
  set (l0 := mkLocals (Some cur) ∅ 1 None).
  set (l2 := mkLocals (Some cur) {[cur]} 1 (Some Button)).
  set (l3 := mkLocals None {[cur]} 2 (Some Button)).
  destruct (pass_without_href l2 cur soup (first_pass_state cur st) eq_refl Hnext Hhref Hlast)
    as [Hflow Hclean].
  assert (exists f st1,
            loop_body E max_pages l0 cur st0 = (Ok f, st1) /\
            match process_page E l2 cur soup (first_pass_state cur st) with
            | (Ok _, _) => f = Continue l3
            | (Raise _, _) => f = Break l2
            end)
    as (f & st1 & Hpass & Hf).
  { unfold loop_body. rewrite bool_decide_eq_false_2 by set_solver.
    assert (match max_pages with Some (S n) => (S n <? page l0)%nat | _ => false end = false)
      as ->.
    { destruct max_pages as [[|n]|]; try done; apply Nat.ltb_ge; cbn; lia. }
    rewrite (bind_ok _ _ _ _ _ (log_ok _ _ _)).
    set (st0' := after st0 0 _).
    destruct (Hget (clock st0')) as (r & Hr & Hs & Hdoc).
    assert (fetch E cur st0' = (Ok soup, after st0' 1 [Request GET cur false 30])) as Hfe.
    { rewrite fetch_eq, Hr, Hdoc.
      assert ((400 <=? status_code r)%nat && (status_code r <? 600)%nat = false) as ->; [|done].
      apply andb_false_iff. rewrite Nat.leb_gt, Nat.ltb_ge. lia. }
    erewrite bind_ok; [|apply try_ok; by rewrite (bind_ok _ _ _ _ _ Hfe)].
    cbv beta iota.
    erewrite bind_ok.
    2:{ apply try_ok. unfold detect_once. cbn [pagination_mode].
        unfold detect_pagination_mode. rewrite Hnext. munfold. reflexivity. }
    cbv beta iota. cbn [current visited page l0].
    rewrite (right_id_L ∅ (∪) {[cur]}). fold l2.
    change (mkState _ _ _ _) with (first_pass_state cur st).
    destruct (process_page E l2 cur soup (first_pass_state cur st)) as [[f|e] st3] eqn:Hpp.
    - subst f. eexists _, _. split; [by apply try_ok|done].
    - erewrite try_raise; [|exact Hpp].
      unfold on_page_error. rewrite (bind_ok _ _ _ _ _ (log_ok _ _ _)).
      cbn [pagination_mode l2]. eexists _, _. split; [reflexivity|done]. }
  assert (exists l' st',
            (mbind (M := M) (fun flow => match flow with
                          | Continue l' => while_current E fuel max_pages l'
                          | Break l' => mret (Some l')
                          end) (loop_body E max_pages l0 cur)) st0 = (Ok (Some l'), st') /\
            match process_page E l2 cur soup (first_pass_state cur st) with
            | (Ok _, _) => l' = l3
            | (Raise _, _) => l' = l2
            end) as (l' & st' & Hloop & Hl').
  { destruct (process_page E l2 cur soup (first_pass_state cur st)) as [[f'|e] st3].
    - subst f. exists l3. eexists. split; [|done].
      rewrite (bind_ok _ _ _ _ _ Hpass).
      destruct fuel; cbn [while_current current l3]; munfold; reflexivity.
    - subst f. exists l2. eexists. split; [|done].
      rewrite (bind_ok _ _ _ _ _ Hpass). munfold. reflexivity. }
  exists l'. eexists. split.
  { cbn [while_current current l0]. unfold cur at 1. cbv iota. fold cur.
    rewrite (bind_ok _ _ _ _ _ Hloop). munfold. reflexivity. }
  destruct (process_page E l2 cur soup (first_pass_state cur st)) as [[f'|e] st3] eqn:Hpp.
  - subst l'. cbn. done.
  - subst l'. cbn. split; [done|]. split; [done|]. split; [done|].
    intros Hex. destruct (Hclean Hex) as [st4 Heq]. discriminate Heq.
Qed.

End Buttons.

Lemma next_button_without_href_witness :
  exists l' st',
    run (fx_env site_scripted (fun _ => true)) list_url None 3 (init ∅) = (Ok (Some l'), st') /\
    visited l' = {[list_url]} /\ page l' = 2 /\ current l' = None.
Proof.
  destruct (next_button_without_href (fx_env site_scripted (fun _ => true)) list_url None 2
              (init ∅) doc_scripted) as (l' & st' & Hrun & Hv & _ & _ & Hclean).
  - done.
  - intros t. eexists. split; [reflexivity|]. split; [cbn; lia|reflexivity].
  - reflexivity.
  - intros a Ha. apply list_elem_of_In in Ha. vm_compute in Ha.
    destruct Ha as [<-|[<-|[]]]; [reflexivity|]. intros H. vm_compute in H. discriminate H.
  - vm_compute. discriminate.
  - destruct Hclean as [Hp Hc]; [reflexivity|]. exists l', st'. auto.
Defined.

End Buttons.
